(** * Memory accounting, scratch files and query state of the Impala backend

    A shallow embedding of [be/src/runtime/mem-tracker.cc] and
    [be/src/runtime/query-state.cc], followed by the scratch-file manager
    exercised by [be/src/runtime/tmp-file-mgr-test.cc].

    Objects that the C++ code reaches through pointers live in an explicit
    store: a [MemTracker*] is an address into [heap], the counter behind
    [consumption_] and the gauges of the metric group live in [Counters].
    Operations whose C++ counterpart has undefined behaviour on some input
    (a null or dangling pointer, erasing through the end iterator) return
    [None] there. *)

From stdpp Require Import base option list gmap strings numbers functions pretty.

(** ** Machine integers *)

Module Int64.
Definition modulus : Z := 2 ^ 64.
Definition half_modulus : Z := 2 ^ 63.

(** Conversion of a value to [uint64_t]. *)
Definition to_uint64 (z : Z) : Z := z `mod` modulus.

(** Conversion of a value to [int64_t] (two's complement). *)
Definition to_int64 (z : Z) : Z := (z + half_modulus) `mod` modulus - half_modulus.

Definition in_range (z : Z) : Prop := (- half_modulus ≤ z < half_modulus)%Z.
End Int64.

(** ** Identifiers *)

(** Address of a [MemTracker] object. *)
Definition ptr := nat.

(** The Thrift struct [TUniqueId]; its generated default constructor zeroes
    both halves. *)
Record TUniqueId := { hi : Z; lo : Z }.

Definition TUniqueId_default : TUniqueId := {| hi := 0; lo := 0 |}.

Global Instance TUniqueId_eq_dec : EqDecision TUniqueId.
Proof. solve_decision. Defined.

Global Instance TUniqueId_countable : Countable TUniqueId.
Proof.
  refine (inj_countable' (λ i, (hi i, lo i)) (λ p, {| hi := p.1; lo := p.2 |}) _).
  by intros [].
Defined.

(** A reclamation callback registered with a tracker, by name. *)
Definition GcFunction := nat.

(** ** Counters *)

(** [RuntimeProfile::HighWaterMarkCounter]: a current value and its peak. *)
Record HighWaterMarkCounter := { current_value : Z; max_value : Z }.

Definition hwm_zero : HighWaterMarkCounter := {| current_value := 0; max_value := 0 |}.

(** [HighWaterMarkCounter::Set]. *)
Definition hwm_Set (v : Z) (c : HighWaterMarkCounter) : HighWaterMarkCounter :=
  {| current_value := v; max_value := Z.max (max_value c) v |}.

(** The numbers a reclamation callback can change: the counter behind each
    tracker's [consumption_], indexed by the tracker's address, and the
    gauges and counters of the metric group, indexed by name. *)
Record Counters := {
  counter : ptr → HighWaterMarkCounter;
  metric : string → Z;
}.

Definition set_counter (p : ptr) (c : HighWaterMarkCounter) (m : Counters) : Counters :=
  {| counter := <[p := c]> (counter m); metric := metric m |}.

Definition set_metric (name : string) (v : Z) (m : Counters) : Counters :=
  {| counter := counter m; metric := <[name := v]> (metric m) |}.

(** ** Trackers *)

Record MemTracker := {
  limit_ : Z;
  label_ : string;
  parent_ : option ptr;
  consumption_metric_ : option string;
  auto_unregister_ : bool;
  log_usage_if_zero_ : bool;
  num_gcs_metric_ : option string;
  bytes_freed_by_last_gc_metric_ : option string;
  bytes_over_limit_metric_ : option string;
  limit_metric_ : option string;
  all_trackers_ : list ptr;
  limit_trackers_ : list ptr;
  child_trackers_ : list ptr;
  (** Iterator into the parent's [child_trackers_]: [Some p] designates the
      node that holds [p], [None] is [end()]. A tracker is inserted in its
      parent's list once, by its constructor, so a node is identified by the
      tracker it holds. *)
  child_tracker_it_ : option ptr;
  gc_functions_ : list GcFunction;
  query_id_ : TUniqueId;
  pool_name_ : string;
}.

Definition with_cached (all lim : list ptr) (t : MemTracker) : MemTracker :=
  {| limit_ := limit_ t; label_ := label_ t; parent_ := parent_ t;
     consumption_metric_ := consumption_metric_ t;
     auto_unregister_ := auto_unregister_ t;
     log_usage_if_zero_ := log_usage_if_zero_ t;
     num_gcs_metric_ := num_gcs_metric_ t;
     bytes_freed_by_last_gc_metric_ := bytes_freed_by_last_gc_metric_ t;
     bytes_over_limit_metric_ := bytes_over_limit_metric_ t;
     limit_metric_ := limit_metric_ t;
     all_trackers_ := all; limit_trackers_ := lim;
     child_trackers_ := child_trackers_ t;
     child_tracker_it_ := child_tracker_it_ t;
     gc_functions_ := gc_functions_ t;
     query_id_ := query_id_ t; pool_name_ := pool_name_ t |}.

Definition with_child_trackers (cs : list ptr) (t : MemTracker) : MemTracker :=
  {| limit_ := limit_ t; label_ := label_ t; parent_ := parent_ t;
     consumption_metric_ := consumption_metric_ t;
     auto_unregister_ := auto_unregister_ t;
     log_usage_if_zero_ := log_usage_if_zero_ t;
     num_gcs_metric_ := num_gcs_metric_ t;
     bytes_freed_by_last_gc_metric_ := bytes_freed_by_last_gc_metric_ t;
     bytes_over_limit_metric_ := bytes_over_limit_metric_ t;
     limit_metric_ := limit_metric_ t;
     all_trackers_ := all_trackers_ t; limit_trackers_ := limit_trackers_ t;
     child_trackers_ := cs;
     child_tracker_it_ := child_tracker_it_ t;
     gc_functions_ := gc_functions_ t;
     query_id_ := query_id_ t; pool_name_ := pool_name_ t |}.

Definition with_child_tracker_it (it : option ptr) (t : MemTracker) : MemTracker :=
  {| limit_ := limit_ t; label_ := label_ t; parent_ := parent_ t;
     consumption_metric_ := consumption_metric_ t;
     auto_unregister_ := auto_unregister_ t;
     log_usage_if_zero_ := log_usage_if_zero_ t;
     num_gcs_metric_ := num_gcs_metric_ t;
     bytes_freed_by_last_gc_metric_ := bytes_freed_by_last_gc_metric_ t;
     bytes_over_limit_metric_ := bytes_over_limit_metric_ t;
     limit_metric_ := limit_metric_ t;
     all_trackers_ := all_trackers_ t; limit_trackers_ := limit_trackers_ t;
     child_trackers_ := child_trackers_ t;
     child_tracker_it_ := it;
     gc_functions_ := gc_functions_ t;
     query_id_ := query_id_ t; pool_name_ := pool_name_ t |}.

(** The three assignments that follow construction in the two interning
    functions: [auto_unregister_], [query_id_] and [pool_name_]. *)
Definition with_registration (au : bool) (qid : TUniqueId) (pool : string)
    (t : MemTracker) : MemTracker :=
  {| limit_ := limit_ t; label_ := label_ t; parent_ := parent_ t;
     consumption_metric_ := consumption_metric_ t;
     auto_unregister_ := au;
     log_usage_if_zero_ := log_usage_if_zero_ t;
     num_gcs_metric_ := num_gcs_metric_ t;
     bytes_freed_by_last_gc_metric_ := bytes_freed_by_last_gc_metric_ t;
     bytes_over_limit_metric_ := bytes_over_limit_metric_ t;
     limit_metric_ := limit_metric_ t;
     all_trackers_ := all_trackers_ t; limit_trackers_ := limit_trackers_ t;
     child_trackers_ := child_trackers_ t;
     child_tracker_it_ := child_tracker_it_ t;
     gc_functions_ := gc_functions_ t;
     query_id_ := qid; pool_name_ := pool |}.

Definition with_metrics (gcs freed over lim : option string)
    (t : MemTracker) : MemTracker :=
  {| limit_ := limit_ t; label_ := label_ t; parent_ := parent_ t;
     consumption_metric_ := consumption_metric_ t;
     auto_unregister_ := auto_unregister_ t;
     log_usage_if_zero_ := log_usage_if_zero_ t;
     num_gcs_metric_ := gcs;
     bytes_freed_by_last_gc_metric_ := freed;
     bytes_over_limit_metric_ := over;
     limit_metric_ := lim;
     all_trackers_ := all_trackers_ t; limit_trackers_ := limit_trackers_ t;
     child_trackers_ := child_trackers_ t;
     child_tracker_it_ := child_tracker_it_ t;
     gc_functions_ := gc_functions_ t;
     query_id_ := query_id_ t; pool_name_ := pool_name_ t |}.

(** Modelled from the spec: [has_limit()] is declared in [mem-tracker.h],
    which is not among the sources; a limit of [-1] means unlimited, any
    other limit is a finite one. *)
Definition has_limit (t : MemTracker) : bool := bool_decide (limit_ t ≠ (-1)%Z).

(** ** The process *)

Inductive LogEntry :=
  | WARNING (msg : string)
  | VLOG_QUERY (msg : string).

Record Process := {
  (** The live [MemTracker] objects. *)
  heap : gmap ptr MemTracker;
  (** The next address the allocator hands out; addresses are not reused. *)
  next_ptr : ptr;
  (** Strong reference counts of the trackers owned through [shared_ptr]. *)
  use_count : gmap ptr nat;
  request_to_mem_trackers_ : gmap TUniqueId ptr;
  pool_to_mem_trackers_ : gmap string ptr;
  mem : Counters;
  log : list LogEntry;
}.

Definition with_heap (h : gmap ptr MemTracker) (s : Process) : Process :=
  {| heap := h; next_ptr := next_ptr s; use_count := use_count s;
     request_to_mem_trackers_ := request_to_mem_trackers_ s;
     pool_to_mem_trackers_ := pool_to_mem_trackers_ s;
     mem := mem s; log := log s |}.

Definition with_mem (m : Counters) (s : Process) : Process :=
  {| heap := heap s; next_ptr := next_ptr s; use_count := use_count s;
     request_to_mem_trackers_ := request_to_mem_trackers_ s;
     pool_to_mem_trackers_ := pool_to_mem_trackers_ s;
     mem := m; log := log s |}.

Definition with_log (l : list LogEntry) (s : Process) : Process :=
  {| heap := heap s; next_ptr := next_ptr s; use_count := use_count s;
     request_to_mem_trackers_ := request_to_mem_trackers_ s;
     pool_to_mem_trackers_ := pool_to_mem_trackers_ s;
     mem := mem s; log := l |}.

Definition with_use_count (u : gmap ptr nat) (s : Process) : Process :=
  {| heap := heap s; next_ptr := next_ptr s; use_count := u;
     request_to_mem_trackers_ := request_to_mem_trackers_ s;
     pool_to_mem_trackers_ := pool_to_mem_trackers_ s;
     mem := mem s; log := log s |}.

Definition with_registries (r : gmap TUniqueId ptr) (p : gmap string ptr)
    (s : Process) : Process :=
  {| heap := heap s; next_ptr := next_ptr s; use_count := use_count s;
     request_to_mem_trackers_ := r;
     pool_to_mem_trackers_ := p;
     mem := mem s; log := log s |}.

Definition empty_process : Process :=
  {| heap := ∅; next_ptr := 0; use_count := ∅;
     request_to_mem_trackers_ := ∅; pool_to_mem_trackers_ := ∅;
     mem := {| counter := λ _, hwm_zero; metric := λ _, 0%Z |};
     log := [] |}.

(** [consumption()]: the current value of the counter behind [consumption_]. *)
Definition consumption (s : Process) (this : ptr) : Z :=
  current_value (counter (mem s) this).

(** ** Construction *)

(** The loop of [MemTracker::Init]: [tracker] walks up the parent pointers,
    appending to the two vectors. Reading a tracker that is not live has no
    defined result. The walk is bounded by [fuel]. *)
Fixpoint Init_loop (fuel : nat) (h : gmap ptr MemTracker) (tracker : option ptr)
    (all lim : list ptr) : option (list ptr * list ptr) :=
  match tracker with
  | None => Some (all, lim)
  | Some p =>
      match fuel with
      | O => None
      | S fuel' =>
          t ← h !! p;
          Init_loop fuel' h (parent_ t) (all ++ [p])
            (if has_limit t then lim ++ [p] else lim)
      end
  end.

(** [MemTracker::Init]. Every live tracker has an address below [next_ptr],
    which bounds the length of a parent chain. *)
Definition Init (this : ptr) (s : Process) : option Process :=
  t ← heap s !! this;
  '(all, lim) ← Init_loop (next_ptr s) (heap s) (Some this)
                  (all_trackers_ t) (limit_trackers_ t);
  Some (with_heap (<[this := with_cached all lim t]> (heap s)) s).

(** [MemTracker::AddChildTracker]: [this] is the parent. *)
Definition AddChildTracker (this tracker : ptr) (s : Process) : option Process :=
  p ← heap s !! this;
  c ← heap s !! tracker;
  let h1 := <[this := with_child_trackers (child_trackers_ p ++ [tracker]) p]> (heap s) in
  c1 ← h1 !! tracker;
  Some (with_heap (<[tracker := with_child_tracker_it (Some tracker) c1]> h1) s).

(** The member initialisers shared by the three constructors. The iterator
    [child_tracker_it_] is not initialised by them; [query_id_] and
    [pool_name_] are default-constructed. *)
Definition initial_tracker (byte_limit : Z) (label : string) (parent : option ptr)
    (consumption_metric : option string) (log_usage_if_zero : bool) : MemTracker :=
  {| limit_ := byte_limit; label_ := label; parent_ := parent;
     consumption_metric_ := consumption_metric;
     auto_unregister_ := false;
     log_usage_if_zero_ := log_usage_if_zero;
     num_gcs_metric_ := None;
     bytes_freed_by_last_gc_metric_ := None;
     bytes_over_limit_metric_ := None;
     limit_metric_ := None;
     all_trackers_ := []; limit_trackers_ := [];
     child_trackers_ := [];
     child_tracker_it_ := None;
     gc_functions_ := [];
     query_id_ := TUniqueId_default; pool_name_ := "" |}.

(** Storage for a new object, with its counter at zero.  Every object gets
    an address of its own, while [operator new] may hand out the address of
    a destroyed object again; the two differ only on a run that still holds
    a pointer to a destroyed tracker. *)
Definition allocate (t : MemTracker) (s : Process) : ptr * Process :=
  (next_ptr s,
   {| heap := <[next_ptr s := t]> (heap s); next_ptr := S (next_ptr s);
      use_count := use_count s;
      request_to_mem_trackers_ := request_to_mem_trackers_ s;
      pool_to_mem_trackers_ := pool_to_mem_trackers_ s;
      mem := set_counter (next_ptr s) hwm_zero (mem s); log := log s |}).

(** [MemTracker::MemTracker(byte_limit, label, parent, log_usage_if_zero)].
    The constructor taking a [RuntimeProfile] differs in the counter it
    points [consumption_] to and in [log_usage_if_zero_], which it sets. *)
Definition MemTracker_new (byte_limit : Z) (label : string) (parent : option ptr)
    (log_usage_if_zero : bool) (s : Process) : option (ptr * Process) :=
  let '(this, s1) := allocate (initial_tracker byte_limit label parent None
                                 log_usage_if_zero) s in
  s2 ← match parent with
       | Some p => AddChildTracker p this s1
       | None => Some s1
       end;
  s3 ← Init this s2;
  Some (this, s3).

(** [MemTracker::MemTracker(consumption_metric, byte_limit, label)]. *)
Definition MemTracker_new_metric (consumption_metric : string) (byte_limit : Z)
    (label : string) (s : Process) : option (ptr * Process) :=
  let '(this, s1) := allocate (initial_tracker byte_limit label None
                                 (Some consumption_metric) true) s in
  s2 ← Init this s1;
  Some (this, s2).

(** [std::list::erase] through an iterator: defined only for an iterator
    that designates a node of the list. *)
Definition list_erase (it : option ptr) (l : list ptr) : option (list ptr) :=
  match it with
  | None => None
  | Some q => if bool_decide (q ∈ l) then Some (filter (λ x, x ≠ q) l) else None
  end.

(** [MemTracker::UnregisterFromParent]. *)
Definition UnregisterFromParent (this : ptr) (s : Process) : option Process :=
  t ← heap s !! this;
  p ← parent_ t;
  pt ← heap s !! p;
  cs ← list_erase (child_tracker_it_ t) (child_trackers_ pt);
  let h1 := <[p := with_child_trackers cs pt]> (heap s) in
  t1 ← h1 !! this;
  Some (with_heap (<[this := with_child_tracker_it None t1]> h1) s).

(** Modelled from the spec: [AddGcFunction] is defined in [mem-tracker.h],
    which is not among the sources; reclamation callbacks are kept in
    registration order. *)
Definition AddGcFunction (this : ptr) (f : GcFunction) (s : Process) : option Process :=
  t ← heap s !! this;
  Some (with_heap (<[this :=
    {| limit_ := limit_ t; label_ := label_ t; parent_ := parent_ t;
       consumption_metric_ := consumption_metric_ t;
       auto_unregister_ := auto_unregister_ t;
       log_usage_if_zero_ := log_usage_if_zero_ t;
       num_gcs_metric_ := num_gcs_metric_ t;
       bytes_freed_by_last_gc_metric_ := bytes_freed_by_last_gc_metric_ t;
       bytes_over_limit_metric_ := bytes_over_limit_metric_ t;
       limit_metric_ := limit_metric_ t;
       all_trackers_ := all_trackers_ t; limit_trackers_ := limit_trackers_ t;
       child_trackers_ := child_trackers_ t;
       child_tracker_it_ := child_tracker_it_ t;
       gc_functions_ := gc_functions_ t ++ [f];
       query_id_ := query_id_ t; pool_name_ := pool_name_ t |}]> (heap s)) s).

(** [MemTracker::~MemTracker], followed by the release of the object's
    storage. *)
Definition MemTracker_delete (this : ptr) (s : Process) : option Process :=
  t ← heap s !! this;
  s1 ← (if auto_unregister_ t then UnregisterFromParent this s else Some s);
  let s2 := with_registries (delete (query_id_ t) (request_to_mem_trackers_ s1))
                            (delete (pool_name_ t) (pool_to_mem_trackers_ s1)) s1 in
  Some (with_heap (delete this (heap s2)) s2).

(** A [shared_ptr<MemTracker>] owner goes away; the last one destroys the
    tracker. *)
Definition shared_ptr_release (p : ptr) (s : Process) : option Process :=
  n ← use_count s !! p;
  match n with
  | O => None
  | S O => s1 ← MemTracker_delete p s;
           Some (with_use_count (delete p (use_count s1)) s1)
  | S (S n') => Some (with_use_count (<[p := S n']> (use_count s)) s)
  end.

(** [weak_ptr::lock]: a new strong reference if the object is still owned,
    a null pointer otherwise. *)
Definition weak_ptr_lock (p : ptr) (s : Process) : option ptr * Process :=
  match use_count s !! p with
  | Some n => (Some p, with_use_count (<[p := S n]> (use_count s)) s)
  | None => (None, s)
  end.

(** The constructor's default for [log_usage_if_zero], which the two
    interning functions leave unspecified. *)
Definition log_usage_if_zero_default : bool := true.

Definition REQUEST_POOL_MEM_TRACKER_LABEL_FORMAT (pool_name : string) : string :=
  "RequestPool=" +:+ pool_name.

(** [MemTracker::GetRequestPoolMemTracker]. *)
Definition GetRequestPoolMemTracker (pool_name : string) (parent : option ptr)
    (s : Process) : option (option ptr * Process) :=
  match pool_to_mem_trackers_ s !! pool_name with
  | Some tracker => Some (Some tracker, s)
  | None =>
      match parent with
      | None => Some (None, s)
      | Some _ =>
          '(tracker, s1) ← MemTracker_new (-1)
              (REQUEST_POOL_MEM_TRACKER_LABEL_FORMAT pool_name) parent
              log_usage_if_zero_default s;
          t ← heap s1 !! tracker;
          let s2 := with_heap
            (<[tracker := with_registration true (query_id_ t) pool_name t]> (heap s1)) s1 in
          Some (Some tracker,
                with_registries (request_to_mem_trackers_ s2)
                  (<[pool_name := tracker]> (pool_to_mem_trackers_ s2)) s2)
      end
  end.

Section Query.
(** [MemInfo::physical_mem()], [PrettyPrinter::Print(_, TUnit::BYTES)] and
    the textual form of a [TUniqueId] are defined outside the sources. *)
Variable physical_mem : Z.
Variable PrettyPrinter_Print : Z → string.
Variable PrintId : TUniqueId → string.

(** The log statements at the head of [GetQueryMemTracker]. *)
Definition log_query_limit (byte_limit : Z) (s : Process) : Process :=
  if bool_decide (byte_limit ≠ (-1)%Z) then
    let s1 :=
      if bool_decide (byte_limit > physical_mem)%Z then
        with_log (log s ++ [WARNING ("Memory limit " +:+ PrettyPrinter_Print byte_limit
                    +:+ " exceeds physical memory of "
                    +:+ PrettyPrinter_Print physical_mem)]) s
      else s in
    with_log (log s1 ++ [VLOG_QUERY ("Using query memory limit: "
                +:+ PrettyPrinter_Print byte_limit)]) s1
  else s.

(** [MemTracker::GetQueryMemTracker]. *)
Definition GetQueryMemTracker (id : TUniqueId) (byte_limit : Z) (parent : option ptr)
    (s : Process) : option (option ptr * Process) :=
  let s0 := log_query_limit byte_limit s in
  match request_to_mem_trackers_ s0 !! id with
  | Some w => Some (weak_ptr_lock w s0)
  | None =>
      '(tracker, s1) ← MemTracker_new byte_limit
          ("Query(" +:+ PrintId id +:+ ")") parent log_usage_if_zero_default s0;
      t ← heap s1 !! tracker;
      let s2 := with_heap
        (<[tracker := with_registration true id (pool_name_ t) t]> (heap s1)) s1 in
      Some (Some tracker,
            with_registries (<[id := tracker]> (request_to_mem_trackers_ s2))
              (pool_to_mem_trackers_ s2)
              (with_use_count (<[tracker := 1]> (use_count s2)) s2))
  end.
End Query.

(** [MemTracker::RegisterMetrics]. *)
Definition RegisterMetrics (this : ptr) (prefix : string) (s : Process) : option Process :=
  t ← heap s !! this;
  let gcs := prefix +:+ ".num-gcs" in
  let freed := prefix +:+ ".bytes-freed-by-last-gc" in
  let over := prefix +:+ ".bytes-over-limit" in
  let lim := prefix +:+ ".limit" in
  let m := set_metric lim (limit_ t)
             (set_metric over (-1) (set_metric freed (-1) (set_metric gcs 0 (mem s)))) in
  Some (with_mem m
          (with_heap (<[this := with_metrics (Some gcs) (Some freed) (Some over) (Some lim) t]>
                        (heap s)) s)).

(** [consumption_->Set(consumption_metric_->value())]: the gauge is
    unsigned, [Set] takes an [int64_t]. *)
Definition set_from_metric (this : ptr) (name : string) (m : Counters) : Counters :=
  set_counter this (hwm_Set (Int64.to_int64 (metric m name)) (counter m this)) m.

(** [MemTracker::RefreshConsumptionFromMetric]. *)
Definition RefreshConsumptionFromMetric (this : ptr) (s : Process) : option Process :=
  t ← heap s !! this;
  name ← consumption_metric_ t;
  Some (with_mem (set_from_metric this name (mem s)) s).

Section Gc.
(** What invoking a reclamation callback does to the counters. *)
Variable gc_call : GcFunction → Counters → Counters.

Definition refresh_if_metric (this : ptr) (t : MemTracker) (m : Counters) : Counters :=
  match consumption_metric_ t with
  | Some name => set_from_metric this name m
  | None => m
  end.

(** The loop of [GcMemory] over [gc_functions_]. *)
Fixpoint gc_loop (this : ptr) (t : MemTracker) (max_consumption : Z)
    (fs : list GcFunction) (m : Counters) : Counters :=
  match fs with
  | [] => m
  | f :: fs' =>
      let m1 := refresh_if_metric this t (gc_call f m) in
      if bool_decide (current_value (counter m1 this) ≤ max_consumption)%Z then m1
      else gc_loop this t max_consumption fs' m1
  end.

Definition metric_update (name : option string) (f : Z → Z) (m : Counters) : Counters :=
  match name with
  | Some n => set_metric n (f (metric m n)) m
  | None => m
  end.

(** [MemTracker::GcMemory]. *)
Definition GcMemory (this : ptr) (max_consumption : Z) (s : Process)
    : option (bool * Process) :=
  if bool_decide (max_consumption < 0)%Z then Some (true, s)
  else
    t ← heap s !! this;
    let m0 := refresh_if_metric this t (mem s) in
    let pre_gc_consumption := Int64.to_uint64 (current_value (counter m0 this)) in
    if bool_decide (pre_gc_consumption < Int64.to_uint64 max_consumption)%Z
    then Some (false, with_mem m0 s)
    else
      let m1 := metric_update (num_gcs_metric_ t) (λ v, v + 1)%Z m0 in
      let m2 := gc_loop this t max_consumption (gc_functions_ t) m1 in
      let m3 := metric_update (bytes_freed_by_last_gc_metric_ t)
                  (λ _, Int64.to_int64
                          (Int64.to_uint64
                             (pre_gc_consumption
                              - Int64.to_uint64 (current_value (counter m2 this)))))
                  m2 in
      Some (bool_decide (current_value (counter m3 this) > max_consumption)%Z,
            with_mem m3 s).
End Gc.

(** ** Status values *)

Inductive TErrorCode :=
  | OK
  | GENERAL
  | MEM_LIMIT_EXCEEDED
  | SCRATCH_LIMIT_EXCEEDED
  | IO_ERROR.

Global Instance TErrorCode_eq_dec : EqDecision TErrorCode.
Proof. solve_decision. Defined.

Record Status := { code : TErrorCode; error_details : list string }.

Definition Status_OK : Status := {| code := OK; error_details := [] |}.

Definition ok (st : Status) : bool := bool_decide (code st = OK).

(** [MemTracker::MemLimitExceeded] with a null [RuntimeState]: the status
    [Status::MemLimitExceeded()] with [details] added. *)
Definition MemLimitExceeded (details : string) : Status :=
  {| code := MEM_LIMIT_EXCEEDED; error_details := [details] |}.

(** ** Query state *)

Record TQueryOptions := {
  max_errors : Z;
  batch_size : Z;
  mem_limit : option Z;
}.

Record TQueryCtx := { ctx_query_id : TUniqueId; query_options : TQueryOptions }.

Record QueryState := {
  query_ctx_ : TQueryCtx;
  refcnt_ : Z;
  prepared_ : bool;
  released_resources_ : bool;
  prepare_status_ : Status;
  query_mem_tracker_ : ptr;
}.

Definition query_id (qs : QueryState) : TUniqueId := ctx_query_id (query_ctx_ qs).

Definition DEFAULT_BATCH_SIZE : Z := 1024.

Section QueryState.
(** Defined outside the sources: [MemTracker::CreateQueryMemTracker],
    [MemTracker::LimitExceeded], the process tracker held by [ExecEnv] and
    [PrintId]. *)
Variable CreateQueryMemTracker :
  TUniqueId → TQueryOptions → string → Process → option (ptr * Process).
Variable LimitExceeded : ptr → Process → bool * Process.
Variable process_mem_tracker : ptr.
Variable PrintId : TUniqueId → string.
Variable PrettyPrinter_Print : Z → string.

(** The line that [QueryState::InitMemTrackers] writes for a memory limit
    that is set in the query options and positive. *)
Definition log_query_options_limit (o : TQueryOptions) (s : Process) : Process :=
  match mem_limit o with
  | Some bytes_limit =>
      if bool_decide (bytes_limit > 0)%Z then
        with_log (log s ++ [VLOG_QUERY ("Using query memory limit from query options: "
                    +:+ PrettyPrinter_Print bytes_limit)]) s
      else s
  | None => s
  end.

(** [QueryState::QueryState], with [InitMemTrackers] inlined: the options
    are corrected, the line about the memory limit is written, and then the
    tracker is created. *)
Definition QueryState_new (query_ctx : TQueryCtx) (pool : string) (s : Process)
    : option (QueryState * Process) :=
  let o := query_options query_ctx in
  let o1 := {| max_errors := if bool_decide (max_errors o ≤ 0)%Z then 100 else max_errors o;
               batch_size := batch_size o; mem_limit := mem_limit o |} in
  let o2 := {| max_errors := max_errors o1;
               batch_size := if bool_decide (batch_size o1 ≤ 0)%Z
                             then DEFAULT_BATCH_SIZE else batch_size o1;
               mem_limit := mem_limit o1 |} in
  let ctx := {| ctx_query_id := ctx_query_id query_ctx; query_options := o2 |} in
  '(tracker, s1) ← CreateQueryMemTracker (ctx_query_id ctx) o2 pool
                      (log_query_options_limit o2 s);
  Some ({| query_ctx_ := ctx; refcnt_ := 0; prepared_ := false;
           released_resources_ := false; prepare_status_ := Status_OK;
           query_mem_tracker_ := tracker |}, s1).


(** [QueryState::Prepare]. *)
Definition Prepare (qs : QueryState) (s : Process) : Status * QueryState * Process :=
  if prepared_ qs then (Status_OK, qs, s)
  else if negb (ok (prepare_status_ qs)) then (prepare_status_ qs, qs, s)
  else
    let '(exceeded, s1) := LimitExceeded process_mem_tracker s in
    if exceeded then
      let msg := "Query " +:+ PrintId (query_id qs)
                 +:+ " could not start because the backend Impala daemon "
                 +:+ "is over its memory limit" in
      let st := MemLimitExceeded msg in
      (st, {| query_ctx_ := query_ctx_ qs; refcnt_ := refcnt_ qs;
              prepared_ := prepared_ qs;
              released_resources_ := released_resources_ qs;
              prepare_status_ := st;
              query_mem_tracker_ := query_mem_tracker_ qs |}, s1)
    else
      (Status_OK, {| query_ctx_ := query_ctx_ qs; refcnt_ := refcnt_ qs;
                     prepared_ := true;
                     released_resources_ := released_resources_ qs;
                     prepare_status_ := prepare_status_ qs;
                     query_mem_tracker_ := query_mem_tracker_ qs |}, s1).
(** Later calls of [Prepare], each on the process as it is then. *)
Fixpoint Prepare_again (n : nat) (qs : QueryState) (s : Process)
    : list Status * QueryState * Process :=
  match n with
  | O => ([], qs, s)
  | S n' =>
      let '(st, qs1, s1) := Prepare qs s in
      let '(sts, qs2, s2) := Prepare_again n' qs1 s1 in
      (st :: sts, qs2, s2)
  end.
End QueryState.

(** ** Scratch files

    [tmp-file-mgr.cc] is not among the sources; only its test is. The
    definitions of this module follow the specification. *)

Module TmpFileMgr.

Definition DeviceId := nat.

Inductive result (A : Type) :=
  | Ok (a : A)
  | Err (e : TErrorCode).
Global Arguments Ok {A} a.
Global Arguments Err {A} e.

(** Modelled from the spec: the [TmpFileDevice] of the data model, a
    scratch directory with a health flag; its id is its position in the
    manager's device list. *)
Record Device := { dir_path : string; active : bool }.

(** Modelled from the spec: the [TmpFile] of the data model, with its
    owning device, path, allocated high-water offset and error flag;
    blacklisting is the noted-but-disabled policy. *)
Record File := {
  device_id : DeviceId;
  path : string;
  current_offset : Z;
  io_error : option string;
  blacklisted : bool;
}.

(** Modelled from the spec: the [TmpFileGroup] of the data model, an
    ordered collection of files, a round-robin pointer, an optional
    aggregate limit and the group-wide counter of allocated bytes. *)
Record FileGroup := {
  files : list File;
  next_allocation_index : nat;
  bytes_limit : option Z;
  current_bytes_allocated : Z;
  closed : bool;
}.

(** The scratch directories as the file system has them: the length of
    each file that exists, and whether a device accepts writes. *)
Record Disk := {
  file_size : gmap string Z;
  writable : DeviceId → bool;
}.

Record State := {
  devices : list Device;
  group : FileGroup;
  disk : Disk;
}.

Definition with_files (fs : list File) (g : FileGroup) : FileGroup :=
  {| files := fs; next_allocation_index := next_allocation_index g;
     bytes_limit := bytes_limit g;
     current_bytes_allocated := current_bytes_allocated g;
     closed := closed g |}.

Definition with_next_allocation_index (n : nat) (g : FileGroup) : FileGroup :=
  {| files := files g; next_allocation_index := n;
     bytes_limit := bytes_limit g;
     current_bytes_allocated := current_bytes_allocated g;
     closed := closed g |}.

Definition with_current_bytes_allocated (b : Z) (g : FileGroup) : FileGroup :=
  {| files := files g; next_allocation_index := next_allocation_index g;
     bytes_limit := bytes_limit g;
     current_bytes_allocated := b;
     closed := closed g |}.

Definition with_group (g : FileGroup) (st : State) : State :=
  {| devices := devices st; group := g; disk := disk st |}.

(** Modelled from the spec: the ids of the devices that are usable. *)
Definition active_tmp_devices (st : State) : list DeviceId :=
  (filter (λ d, active d.2 = true) (imap (λ i d, (i, d)) (devices st))).*1.

Definition num_active_tmp_devices (st : State) : nat :=
  length (active_tmp_devices st).

(** Modelled from the spec: a group is constructed with its optional
    aggregate limit and no file. *)
Definition FileGroup_new (limit : option Z) : FileGroup :=
  {| files := []; next_allocation_index := 0; bytes_limit := limit;
     current_bytes_allocated := 0; closed := false |}.

Section Files.
(** The generated unique file name for a query id and a sequence number. *)
Variable file_name : TUniqueId → nat → string.

(** Modelled from the spec: [NewFile(device_id, query_id)] creates a
    fresh file on the given device, scoped to the group, and does not
    touch the disk; a failed device is excluded from future allocation.
    The file is returned as its position in the group. *)
Definition NewFile (dev : DeviceId) (query_id : TUniqueId) (st : State)
    : result nat * State :=
  match devices st !! dev with
  | Some d =>
      if active d then
        let g := group st in
        let f := {| device_id := dev;
                    path := dir_path d +:+ "/impala-scratch/"
                            +:+ file_name query_id (length (files g));
                    current_offset := 0; io_error := None;
                    blacklisted := false |} in
        (Ok (length (files g)), with_group (with_files (files g ++ [f]) g) st)
      else (Err GENERAL, st)
  | None => (Err GENERAL, st)
  end.
End Files.

(** Modelled from the spec: [ReportIOError(msg)] records the first error
    seen, is idempotent and does not raise. *)
Definition File_ReportIOError (msg : string) (f : File) : File :=
  {| device_id := device_id f; path := path f;
     current_offset := current_offset f;
     io_error := match io_error f with Some e => Some e | None => Some msg end;
     blacklisted := blacklisted f |}.

(** Modelled from the spec: [AllocateSpace(file, num_bytes)] returns the
    current high-water mark, extends the file to [offset + num_bytes] on
    disk and advances the mark; on an I/O failure it marks the file's error
    flag and surfaces the error. *)
Definition File_AllocateSpace (num_bytes : Z) (f : File) (d : Disk)
    : result Z * File * Disk :=
  if writable d (device_id f) then
    let offset := current_offset f in
    (Ok offset,
     {| device_id := device_id f; path := path f;
        current_offset := (offset + num_bytes)%Z;
        io_error := io_error f; blacklisted := blacklisted f |},
     {| file_size := <[path f := (offset + num_bytes)%Z]> (file_size d);
        writable := writable d |})
  else
    (Err IO_ERROR, File_ReportIOError "allocation failed" f, d).

(** Modelled from the spec: [File::ReportIOError] on the file at position
  [i] of the group; the error is recorded on that file and nowhere else. *)
Definition ReportIOError (i : nat) (msg : string) (st : State) : State :=
  with_group (with_files (alter (File_ReportIOError msg) i (files (group st)))
                (group st)) st.

(** Modelled from the spec: [File::AllocateSpace] on the file at position
  [i] of the group. *)
Definition AllocateSpace (i : nat) (num_bytes : Z) (st : State)
    : result Z * State :=
  match files (group st) !! i with
  | None => (Err GENERAL, st)
  | Some f =>
      let '(r, f', d') := File_AllocateSpace num_bytes f (disk st) in
      (r, {| devices := devices st;
             group := with_files (<[i := f']> (files (group st))) (group st);
             disk := d' |})
  end.

(** Modelled from the spec: [FileGroup::AllocateSpace(num_bytes)] selects
    the next file in round-robin order, advancing the pointer
    unconditionally; it fails with [ScratchLimitExceeded] before touching
    any file when the aggregate limit would be exceeded; the group-wide
    counter is incremented only after a successful per-file allocation. *)
Definition FileGroup_AllocateSpace (num_bytes : Z) (st : State)
    : result (nat * Z) * State :=
  let g := group st in
  let i := next_allocation_index g in
  let g1 := with_next_allocation_index (S i `mod` length (files g)) g in
  let over := match bytes_limit g with
              | Some limit =>
                  bool_decide (current_bytes_allocated g + num_bytes > limit)%Z
              | None => false
              end in
  if over then (Err SCRATCH_LIMIT_EXCEEDED, with_group g1 st)
  else
    match AllocateSpace i num_bytes (with_group g1 st) with
    | (Ok offset, st1) =>
        (Ok (i, offset),
         with_group (with_current_bytes_allocated
                       (current_bytes_allocated g + num_bytes)%Z (group st1)) st1)
    | (Err e, st1) => (Err e, st1)
    end.

(** Modelled from the spec: [Close()] deletes every file's backing
    storage and releases the counter back to zero; later calls are
    no-ops. *)
Definition Close (st : State) : State :=
  if closed (group st) then st
  else
    {| devices := devices st;
       group := {| files := files (group st);
                   next_allocation_index := next_allocation_index (group st);
                   bytes_limit := bytes_limit (group st);
                   current_bytes_allocated := 0;
                   closed := true |};
       disk := {| file_size := foldr (λ f m, delete (path f) m)
                                 (file_size (disk st)) (files (group st));
                  writable := writable (disk st) |} |}.

(** The length on disk of the file at position [i]. *)
Definition on_disk_size (i : nat) (st : State) : option Z :=
  f ← files (group st) !! i;
  file_size (disk st) !! path f.

(** A run of [AllocateSpace] calls on one file, all successful: the
    offsets returned, each with the length of the file after the call. *)
Fixpoint AllocateSpace_all (i : nat) (sizes : list Z) (st : State)
    : option (list (Z * option Z) * State) :=
  match sizes with
  | [] => Some ([], st)
  | r :: sizes' =>
      match AllocateSpace i r st with
      | (Ok offset, st1) =>
          '(res, st2) ← AllocateSpace_all i sizes' st1;
          Some ((offset, on_disk_size i st1) :: res, st2)
      | (Err _, _) => None
      end
  end.

(** The offsets [0, r1, r1 + r2, ...] of back-to-back ranges from [o]. *)
Fixpoint range_starts (o : Z) (sizes : list Z) : list Z :=
  match sizes with
  | [] => []
  | r :: sizes' => o :: range_starts (o + r) sizes'
  end.

(** Their ends [r1, r1 + r2, ...]. *)
Fixpoint range_ends (o : Z) (sizes : list Z) : list Z :=
  match sizes with
  | [] => []
  | r :: sizes' => (o + r)%Z :: range_ends (o + r) sizes'
  end.

(** A run of [FileGroup::AllocateSpace] requests with their outcomes. *)
Fixpoint FileGroup_AllocateSpace_all (requests : list Z) (st : State)
    : list (Z * result (nat * Z)) * State :=
  match requests with
  | [] => ([], st)
  | n :: requests' =>
      let '(r, st1) := FileGroup_AllocateSpace n st in
      let '(rs, st2) := FileGroup_AllocateSpace_all requests' st1 in
      ((n, r) :: rs, st2)
  end.

(** The bytes handed out by the successful requests of a run. *)
Fixpoint allocated_bytes (outcomes : list (Z * result (nat * Z))) : Z :=
  match outcomes with
  | [] => 0
  | (n, Ok _) :: outcomes' => n + allocated_bytes outcomes'
  | (_, Err _) :: outcomes' => allocated_bytes outcomes'
  end.

End TmpFileMgr.

(** ** The operations of a tracker's lifetime *)

Inductive Op :=
  | OpNew (byte_limit : Z) (label : string) (parent : option ptr) (log_usage_if_zero : bool)
  | OpNewMetric (consumption_metric : string) (byte_limit : Z) (label : string)
  | OpAddGcFunction (this : ptr) (f : GcFunction)
  | OpUnregisterFromParent (this : ptr)
  | OpDelete (this : ptr)
  | OpSharedPtrRelease (this : ptr)
  | OpGetRequestPoolMemTracker (pool_name : string) (parent : option ptr)
  | OpGetQueryMemTracker (id : TUniqueId) (byte_limit : Z) (parent : option ptr)
  | OpRegisterMetrics (this : ptr) (prefix : string)
  | OpRefreshConsumptionFromMetric (this : ptr)
  | OpGcMemory (this : ptr) (max_consumption : Z)
  | OpCounters (f : Counters → Counters).

Section Exec.
Variable physical_mem : Z.
Variable PrettyPrinter_Print : Z → string.
Variable PrintId : TUniqueId → string.
Variable gc_call : GcFunction → Counters → Counters.

(** One operation on the process; [OpCounters] stands for the calls that
    only move counters ([Consume], [Release], a gauge update). *)
Definition exec (op : Op) (s : Process) : option Process :=
  match op with
  | OpNew byte_limit label parent log_usage_if_zero =>
      snd <$> MemTracker_new byte_limit label parent log_usage_if_zero s
  | OpNewMetric consumption_metric byte_limit label =>
      snd <$> MemTracker_new_metric consumption_metric byte_limit label s
  | OpAddGcFunction this f => AddGcFunction this f s
  | OpUnregisterFromParent this => UnregisterFromParent this s
  | OpDelete this => MemTracker_delete this s
  | OpSharedPtrRelease this => shared_ptr_release this s
  | OpGetRequestPoolMemTracker pool_name parent =>
      snd <$> GetRequestPoolMemTracker pool_name parent s
  | OpGetQueryMemTracker id byte_limit parent =>
      snd <$> GetQueryMemTracker physical_mem PrettyPrinter_Print PrintId
                id byte_limit parent s
  | OpRegisterMetrics this prefix => RegisterMetrics this prefix s
  | OpRefreshConsumptionFromMetric this => RefreshConsumptionFromMetric this s
  | OpGcMemory this max_consumption => snd <$> GcMemory gc_call this max_consumption s
  | OpCounters f => Some (with_mem (f (mem s)) s)
  end.

Fixpoint exec_all (ops : list Op) (s : Process) : option Process :=
  match ops with
  | [] => Some s
  | op :: ops' => s1 ← exec op s; exec_all ops' s1
  end.
End Exec.

(** ** The three constructors *)

(** [MemTracker::MemTracker(profile, byte_limit, label, parent)]: the
    counter behind [consumption_] is the one the profile adds, and
    [log_usage_if_zero_] is set. *)
Definition MemTracker_new_profile (byte_limit : Z) (label : string)
    (parent : option ptr) (s : Process) : option (ptr * Process) :=
  MemTracker_new byte_limit label parent true s.

Inductive Constructor :=
  | New (byte_limit : Z) (label : string) (parent : option ptr) (log_usage_if_zero : bool)
  | NewWithProfile (byte_limit : Z) (label : string) (parent : option ptr)
  | NewWithMetric (consumption_metric : string) (byte_limit : Z) (label : string).

Definition construct (c : Constructor) (s : Process) : option (ptr * Process) :=
  match c with
  | New byte_limit label parent log_usage_if_zero =>
      MemTracker_new byte_limit label parent log_usage_if_zero s
  | NewWithProfile byte_limit label parent =>
      MemTracker_new_profile byte_limit label parent s
  | NewWithMetric consumption_metric byte_limit label =>
      MemTracker_new_metric consumption_metric byte_limit label s
  end.

Definition constructor_parent (c : Constructor) : option ptr :=
  match c with
  | New _ _ parent _ | NewWithProfile _ _ parent => parent
  | NewWithMetric _ _ _ => None
  end.

(** ** Parent chains *)

(** [ancestor_chain h p l]: [l] is [p], its parent, its grandparent, and so
    on up to a tracker without parent, all of them live in [h]. *)
Inductive ancestor_chain (h : gmap ptr MemTracker) : ptr → list ptr → Prop :=
  | chain_root p t :
      h !! p = Some t → parent_ t = None → ancestor_chain h p [p]
  | chain_parent p t q l :
      h !! p = Some t → parent_ t = Some q → ancestor_chain h q l →
      ancestor_chain h p (p :: l).

(** The chain above an optional parent pointer. *)
Definition parent_chain (h : gmap ptr MemTracker) (parent : option ptr)
    (l : list ptr) : Prop :=
  match parent with
  | None => l = []
  | Some q => ancestor_chain h q l
  end.

(** Whether the tracker at [p] has a finite limit. *)
Definition has_limit_at (h : gmap ptr MemTracker) (p : ptr) : bool :=
  match h !! p with
  | Some t => has_limit t
  | None => false
  end.

(** Live trackers sit below [next_ptr], and a parent was allocated before
    its children. *)
Definition wf_process (s : Process) : Prop :=
  ∀ p t, heap s !! p = Some t →
    p < next_ptr s ∧ ∀ q, parent_ t = Some q → q < p.

(** ** Scratch states of the examples *)

Definition test_devices : list TmpFileMgr.Device :=
  [ {| TmpFileMgr.dir_path := "/tmp/tmp-file-mgr-test.1"; TmpFileMgr.active := true |};
    {| TmpFileMgr.dir_path := "/tmp/tmp-file-mgr-test.2"; TmpFileMgr.active := true |} ].

Definition test_file_name (query_id : TUniqueId) (n : nat) : string := pretty n.

Definition scratch_state (limit : option Z) : TmpFileMgr.State :=
  {| TmpFileMgr.devices := test_devices;
     TmpFileMgr.group := TmpFileMgr.FileGroup_new limit;
     TmpFileMgr.disk := {| TmpFileMgr.file_size := ∅;
                           TmpFileMgr.writable := λ _, true |} |}.

(** One file on the first device, in a group without limit. *)
Definition one_file_state : TmpFileMgr.State :=
  (TmpFileMgr.NewFile test_file_name 0 TUniqueId_default (scratch_state None)).2.

(** The group of [TestScratchLimit]: a limit of 100 bytes and one file on
    each of the two devices. *)
Definition two_files_state : TmpFileMgr.State :=
  (TmpFileMgr.NewFile test_file_name 1 TUniqueId_default
     (TmpFileMgr.NewFile test_file_name 0 TUniqueId_default
        (scratch_state (Some 100%Z))).2).2.

(** ** Shapes, steps and examples *)

(** The process of the examples: one tracker without limit at address 0. *)
Definition one_tracker : Process :=
  default empty_process (snd <$> MemTracker_new (-1) "Process" None true empty_process).

(** The hierarchy [Process (no limit) → Query (limit 100) → Fragment (no
    limit)], at the addresses 0, 1 and 2. *)
Definition three_levels : option Process :=
  '(_, s1) ← MemTracker_new 100 "Query" (Some 0) true one_tracker;
  '(_, s2) ← MemTracker_new (-1) "Fragment" (Some 1) true s1;
  Some s2.

(** That tracker with one reclamation callback registered and 100 bytes
    consumed. *)
Definition busy_tracker : Process :=
  let s := default one_tracker (AddGcFunction 0 7 one_tracker) in
  with_mem (set_counter 0 {| current_value := 100; max_value := 100 |} (mem s)) s.

(** A callback that gives back half of what the tracker at address 0
    consumes. *)
Definition release_half (f : GcFunction) (m : Counters) : Counters :=
  set_counter 0 (hwm_Set (current_value (counter m 0) `div` 2) (counter m 0)) m.

(** What an update of a live tracker leaves alone in every operation but
    [Init]: its parent, its limit and its two cached lists. *)
Definition same_shape (t t' : MemTracker) : Prop :=
  parent_ t' = parent_ t ∧ limit_ t' = limit_ t ∧
  all_trackers_ t' = all_trackers_ t ∧ limit_trackers_ t' = limit_trackers_ t.

(** Every tracker of [h'] below address [k] is a tracker of [h], of the
    same shape. *)
Definition preserved (k : nat) (h h' : gmap ptr MemTracker) : Prop :=
  ∀ p t', p < k → h' !! p = Some t' → ∃ t, h !! p = Some t ∧ same_shape t t'.

Definition wf_heap (n : nat) (h : gmap ptr MemTracker) : Prop :=
  ∀ p t, h !! p = Some t → p < n ∧ ∀ q, parent_ t = Some q → q < p.

Definition new_process (this : ptr) (h : gmap ptr MemTracker) (s : Process) : Process :=
  {| heap := h; next_ptr := S this; use_count := use_count s;
     request_to_mem_trackers_ := request_to_mem_trackers_ s;
     pool_to_mem_trackers_ := pool_to_mem_trackers_ s;
     mem := set_counter this hwm_zero (mem s); log := log s |}.

(** Every tracker of [h] is a tracker of [h'] with the same parent and the
    same limit. *)
Definition extends (h h' : gmap ptr MemTracker) : Prop :=
  ∀ q t, h !! q = Some t →
    ∃ t', h' !! q = Some t' ∧ parent_ t' = parent_ t ∧ limit_ t' = limit_ t.

(** The heap a constructor leaves behind, before [Init] runs. *)
Definition constructed_heap (this : ptr) (t0 : MemTracker) (parent : option ptr)
    (h h1 : gmap ptr MemTracker) : Prop :=
  match parent with
  | None => h1 = <[this := t0]> h
  | Some q => ∃ pt, q ≠ this ∧ h !! q = Some pt ∧
      h1 = <[this := with_child_tracker_it (Some this) t0]>
             (<[q := with_child_trackers (child_trackers_ pt ++ [this]) pt]>
                (<[this := t0]> h))
  end.

(** A step keeps the heap well formed, never lowers [next_ptr] and keeps
    the shape of the trackers that were there before. *)
Definition step_ok (s s' : Process) : Prop :=
  wf_process s' ∧ next_ptr s ≤ next_ptr s' ∧
  preserved (next_ptr s) (heap s) (heap s').

(** The query id [0:0], as [TestEnv::CreateQueryState(0, ...)] makes it:
    a query tracker is interned under it, a tracker that belongs to no
    query is created and destroyed, and the query is looked up again. *)
Definition default_id_scenario : option (option ptr * option ptr * Process) :=
  '(first, s1) ← GetQueryMemTracker 100 (λ _, "") (λ _, "")
                    TUniqueId_default (-1) (Some 0) one_tracker;
  '(io_mgr_tracker, s2) ← MemTracker_new (-1) "" None true s1;
  s3 ← MemTracker_delete io_mgr_tracker s2;
  '(second, s4) ← GetQueryMemTracker 100 (λ _, "") (λ _, "")
                     TUniqueId_default (-1) (Some 0) s3;
  Some (first, second, s4).

(** A query tracker at address 1 under the process tracker, and the state
    of its query. *)
Definition query_process : Process :=
  default one_tracker (snd <$> MemTracker_new 100 "Query" (Some 0) true one_tracker).

Definition query_state_example : QueryState :=
  {| query_ctx_ := {| ctx_query_id := {| hi := 0; lo := 7 |};
                      query_options := {| max_errors := 100; batch_size := 1024;
                                          mem_limit := Some 100%Z |} |};
     refcnt_ := 1; prepared_ := false; released_resources_ := false;
     prepare_status_ := Status_OK; query_mem_tracker_ := 1 |}.

(** [interned id tq s]: the registry maps [id] to the tracker [tq], [tq]
    is owned, and no other live tracker carries [id] as its [query_id_]. *)
Definition interned (id : TUniqueId) (tq : ptr) (s : Process) : Prop :=
  request_to_mem_trackers_ s !! id = Some tq ∧
  is_Some (use_count s !! tq) ∧
  ∀ p t, heap s !! p = Some t → query_id_ t = id → p = tq.

(** A tracker of [h'] that carries [id] is a tracker of [h] that carries
    [id]. *)
Definition no_new_carrier (id : TUniqueId) (h h' : gmap ptr MemTracker) : Prop :=
  ∀ p t', h' !! p = Some t' → query_id_ t' = id →
    ∃ t, h !! p = Some t ∧ query_id_ t = id.

(** A step that leaves the registry of queries and the owners alone. *)
Definition frame_step (id : TUniqueId) (s s' : Process) : Prop :=
  request_to_mem_trackers_ s' = request_to_mem_trackers_ s ∧
  use_count s' = use_count s ∧
  no_new_carrier id (heap s) (heap s').

(** ** Further operations of [mem-tracker.cc] *)

(** Addition of two [int64_t] values; a signed overflow has no defined
    result. *)
Definition int64_add (a b : Z) : option Z :=
  if bool_decide (Int64.in_range (a + b)) then Some (a + b)%Z else None.

Section PoolMemReserved.
Variable physical_mem : Z.

(** What one child adds to [mem_reserved] in [GetPoolMemReserved]. *)
Definition child_mem_reserved (s : Process) (child : ptr) (t : MemTracker) : Z :=
  if bool_decide (limit_ t > 0)%Z then Z.min (limit_ t) physical_mem
  else consumption s child.

(** What a query with the limit [byte_limit] that consumes nothing adds. *)
Definition query_mem_reserved (byte_limit : Z) : Z :=
  if bool_decide (byte_limit > 0)%Z then Z.min byte_limit physical_mem else 0%Z.

(** The loop of [GetPoolMemReserved] over [child_trackers_]. *)
Fixpoint GetPoolMemReserved_loop (s : Process) (children : list ptr)
    (mem_reserved : Z) : option Z :=
  match children with
  | [] => Some mem_reserved
  | it :: rest =>
      t ← heap s !! it;
      r ← int64_add mem_reserved (child_mem_reserved s it t);
      GetPoolMemReserved_loop s rest r
  end.

(** [MemTracker::GetPoolMemReserved]; its [DCHECK]s on the pool name and on
    the limits are checks of a debug build and no part of the result. *)
Definition GetPoolMemReserved (this : ptr) (s : Process) : option Z :=
  t ← heap s !! this;
  GetPoolMemReserved_loop s (child_trackers_ t) 0.
End PoolMemReserved.

Section GcRun.
Variable gc_call : GcFunction → Counters → Counters.

(** The callbacks [fs] invoked one after the other, each followed by the
    refresh from the gauge that [GcMemory] does. *)
Definition gc_run (this : ptr) (t : MemTracker) (fs : list GcFunction)
    (m : Counters) : Counters :=
  foldl (λ m f, refresh_if_metric this t (gc_call f m)) m fs.
End GcRun.

(** ** The tree of trackers *)

(** What the lists of children hold at every moment.  A child list names no
    tracker twice, and only addresses that were allocated; a live tracker
    named in the list of a live tracker has that tracker as parent and an
    iterator that designates its own node; the iterator of a live tracker is
    [end()] or designates its own node, and then the tracker has a parent
    which, if still live, has it in its list. *)
Definition wf_children (n : nat) (h : gmap ptr MemTracker) : Prop :=
  ∀ p t, h !! p = Some t →
    NoDup (child_trackers_ t) ∧
    (∀ c, c ∈ child_trackers_ t → c < n ∧
       ∀ tc, h !! c = Some tc → parent_ tc = Some p ∧ child_tracker_it_ tc = Some c) ∧
    (∀ x, child_tracker_it_ t = Some x → x = p ∧
       ∃ q, parent_ t = Some q ∧ ∀ pt, h !! q = Some pt → p ∈ child_trackers_ pt).

(** No child list names a tracker that was destroyed. *)
Definition no_dangling_child (h : gmap ptr MemTracker) : Prop :=
  ∀ p t c, h !! p = Some t → c ∈ child_trackers_ t → is_Some (h !! c).

(** Two values of a tracker that agree on its place in the tree. *)
Definition same_links (t t' : MemTracker) : Prop :=
  parent_ t' = parent_ t ∧ child_trackers_ t' = child_trackers_ t ∧
  child_tracker_it_ t' = child_tracker_it_ t.

(** ** The two registries *)

(** What the registries hold at every moment: the registry of queries maps
    an id to a live tracker that carries that id and has an owner, the
    registry of pools maps a name to a live tracker that carries that
    name. *)
Definition wf_registries (s : Process) : Prop :=
  (∀ id w, request_to_mem_trackers_ s !! id = Some w →
     ∃ t n, heap s !! w = Some t ∧ query_id_ t = id ∧
            use_count s !! w = Some (S n)) ∧
  (∀ name w, pool_to_mem_trackers_ s !! name = Some w →
     ∃ t, heap s !! w = Some t ∧ pool_name_ t = name).

(** Every tracker of [h] is a tracker of [h'] that carries the same query id
    and the same pool name. *)
Definition keeps_names (h h' : gmap ptr MemTracker) : Prop :=
  ∀ p t, h !! p = Some t →
    ∃ t', h' !! p = Some t' ∧ query_id_ t' = query_id_ t ∧ pool_name_ t' = pool_name_ t.

(** ** Fragment instances of a query *)

Section FInstances.
(** [FragmentInstanceState::instance_id()] of the object at an address;
    the class is defined outside the sources. *)
Variable instance_id : ptr → TUniqueId.
Variable PrintId : TUniqueId → string.

(** Lines written at the two verbose levels of [query-state.cc]. *)
Inductive VLogLine :=
  | VLogQuery (msg : string)
  | VLogFile (msg : string).

(** The part of a [QueryState] that the two functions below touch:
    [fis_map_], and the verbose log. *)
Record FInstances := {
  fis_map_ : gmap TUniqueId ptr;
  vlog : list VLogLine;
}.

(** [QueryState::RegisterFInstance]: [unordered_map::insert] leaves an
    entry that is already there as it is; the [DCHECK_EQ] that no entry is
    there is a check of a debug build. *)
Definition RegisterFInstance (fis : ptr) (q : FInstances) : FInstances :=
  let l := vlog q ++ [VLogQuery ("RegisterFInstance(): instance_id="
                                  +:+ PrintId (instance_id fis))] in
  {| fis_map_ := match fis_map_ q !! instance_id fis with
                 | Some _ => fis_map_ q
                 | None => <[instance_id fis := fis]> (fis_map_ q)
                 end;
     vlog := l |}.

(** [QueryState::GetFInstanceState]; [None] is the null pointer. *)
Definition GetFInstanceState (id : TUniqueId) (q : FInstances)
    : option ptr * FInstances :=
  (fis_map_ q !! id,
   {| fis_map_ := fis_map_ q;
      vlog := vlog q ++ [VLogFile ("GetFInstanceState(): instance_id=" +:+ PrintId id)] |}).

(** Registration of several fragment instances, one after the other. *)
Definition RegisterFInstances (fs : list ptr) (q : FInstances) : FInstances :=
  foldl (λ q fis, RegisterFInstance fis q) q fs.
End FInstances.

(** ** The test environment *)

Module Int32.
Definition in_range (z : Z) : Prop := (- 2 ^ 31 ≤ z < 2 ^ 31)%Z.
End Int32.

(** Product of two [int64_t] values; a signed overflow has no defined
    result. *)
Definition int64_mul (a b : Z) : option Z :=
  if bool_decide (Int64.in_range (a * b)) then Some (a * b)%Z else None.

(** [TestEnv::CalculateMemLimit]; both arguments are [int], the second one
    is widened before the product is taken. *)
Definition CalculateMemLimit (max_buffers block_size : Z) : option Z :=
  if bool_decide (max_buffers = -1)%Z then Some (-1)%Z
  else int64_mul max_buffers block_size.

Section TestEnv.
(** Defined outside the sources: the state of everything a [RuntimeState]
    and a block manager live in, the default-constructed query options, the
    constructor of [RuntimeState], its [InitMemTrackers] and
    [set_block_mgr], and [BufferedBlockMgr::Create]. *)
Variable World : Type.
Variable TQueryOptions_default : TQueryOptions.
Variable RuntimeState_new : TQueryCtx → World → ptr * World.
Variable InitMemTrackers : ptr → World → World.
Variable BufferedBlockMgr_Create : ptr → Z → Z → World → Status * option ptr * World.
Variable set_block_mgr : ptr → option ptr → World → World.

Record TestEnv := {
  runtime_states_ : gmap Z ptr;
  world : World;
}.

(** [Status(Substitute("Duplicate query id found: $0", query_id))]. *)
Definition duplicate_query_id (query_id : Z) : Status :=
  {| code := GENERAL;
     error_details := ["Duplicate query id found: " +:+ pretty query_id] |}.

(** [TestEnv::CreateQueryState]; the second component of the result is what
    the call stores through [runtime_state], if it stores anything. *)
Definition CreateQueryState (query_id max_buffers block_size : Z)
    (query_options : option TQueryOptions) (e : TestEnv)
    : option (Status * option ptr * TestEnv) :=
  match runtime_states_ e !! query_id with
  | Some _ => Some (duplicate_query_id query_id, None, e)
  | None =>
      let query_ctx :=
        {| ctx_query_id := {| hi := 0; lo := query_id |};
           query_options := default TQueryOptions_default query_options |} in
      let '(runtime_state, w1) := RuntimeState_new query_ctx (world e) in
      let w2 := InitMemTrackers runtime_state w1 in
      mem_limit ← CalculateMemLimit max_buffers block_size;
      let '(status, mgr, w3) :=
        BufferedBlockMgr_Create runtime_state mem_limit block_size w2 in
      if ok status then
        Some (Status_OK, Some runtime_state,
              {| runtime_states_ := <[query_id := runtime_state]> (runtime_states_ e);
                 world := set_block_mgr runtime_state mgr w3 |})
      else
        Some (status, Some runtime_state,
              {| runtime_states_ := runtime_states_ e; world := w3 |})
  end.
End TestEnv.

Global Arguments runtime_states_ {World} _.
Global Arguments world {World} _.
Global Arguments CreateQueryState {World} _ _ _ _ _ _ _ _ _ _.

(** [pool_interned name tp s]: the registry of pools maps [name] to the
    tracker [tp], and no other live tracker carries [name] as its
    [pool_name_]. *)
Definition pool_interned (name : string) (tp : ptr) (s : Process) : Prop :=
  pool_to_mem_trackers_ s !! name = Some tp ∧
  ∀ p t, heap s !! p = Some t → pool_name_ t = name → p = tp.

(** A tracker of [h'] that carries the pool name [name] is a tracker of [h]
    that carries it. *)
Definition no_new_named (name : string) (h h' : gmap ptr MemTracker) : Prop :=
  ∀ p t', h' !! p = Some t' → pool_name_ t' = name →
    ∃ t, h !! p = Some t ∧ pool_name_ t = name.

(** ** Runs that free no address still in use

    [operator new] may hand out the address of a destroyed tracker again,
    while the store of this development gives every tracker an address of
    its own.  The two agree, up to the choice of addresses, on the runs in
    which a tracker is destroyed only when nothing refers to it any more:
    it is out of the list of its parent by then, or takes itself out in its
    destructor, and no live tracker has it as parent. *)

(** The tracker that an operation destroys, if it destroys one. *)
Definition destroyed_by (op : Op) (s : Process) : option ptr :=
  match op with
  | OpDelete this => Some this
  | OpSharedPtrRelease this =>
      if bool_decide (use_count s !! this = Some 1) then Some this else None
  | _ => None
  end.

Definition orderly_destroy (this : ptr) (s : Process) : Prop :=
  (∀ t, heap s !! this = Some t →
     auto_unregister_ t = true ∨ child_tracker_it_ t = None) ∧
  (∀ p t, heap s !! p = Some t → parent_ t ≠ Some this).

(** The parent of every live tracker is live. *)
Definition live_parents (h : gmap ptr MemTracker) : Prop :=
  ∀ p t q, h !! p = Some t → parent_ t = Some q → is_Some (h !! q).

(** The tree of trackers as the lists of children and the parent pointers
    give it: a list of children names no tracker twice, and every tracker
    it names is live, has the owner of the list as parent and an iterator
    that designates its own node; the iterator of a tracker is [end()] or
    designates the tracker's own node in the list of its parent; and the
    parent of a live tracker is live. *)
Definition tree_consistent (h : gmap ptr MemTracker) : Prop :=
  ∀ p t, h !! p = Some t →
    NoDup (child_trackers_ t) ∧
    (∀ c, c ∈ child_trackers_ t →
       ∃ tc, h !! c = Some tc ∧ parent_ tc = Some p ∧ child_tracker_it_ tc = Some c) ∧
    (∀ x, child_tracker_it_ t = Some x → x = p ∧
       ∃ q pt, parent_ t = Some q ∧ h !! q = Some pt ∧ p ∈ child_trackers_ pt) ∧
    (∀ q, parent_ t = Some q → is_Some (h !! q)).

Section Runs.
Variable physical_mem : Z.
Variable PrettyPrinter_Print : Z → string.
Variable PrintId : TUniqueId → string.
Variable gc_call : GcFunction → Counters → Counters.

(** Every destruction of the run [ops] from [s] is an orderly one. *)
Fixpoint orderly_run (ops : list Op) (s : Process) : Prop :=
  match ops with
  | [] => True
  | op :: ops' =>
      (∀ this, destroyed_by op s = Some this → orderly_destroy this s) ∧
      match exec physical_mem PrettyPrinter_Print PrintId gc_call op s with
      | Some s1 => orderly_run ops' s1
      | None => True
      end
  end.

(** No operation of the run [ops] from [s] destroys the tracker [this]. *)
Fixpoint spared (this : ptr) (ops : list Op) (s : Process) : Prop :=
  match ops with
  | [] => True
  | op :: ops' =>
      destroyed_by op s ≠ Some this ∧
      match exec physical_mem PrettyPrinter_Print PrintId gc_call op s with
      | Some s1 => spared this ops' s1
      | None => True
      end
  end.
End Runs.

(** ** Further states of the examples *)

Definition example_query_id : TUniqueId := {| hi := 0; lo := 7 |}.

(** The tracker at an address of an example state. *)
Definition tracker_at (s : Process) (p : ptr) : MemTracker :=
  default (initial_tracker 0 "" None None true) (heap s !! p).

(** The operations that build the examples from the empty process. *)
Definition one_tracker_ops : list Op := [OpNew (-1) "Process" None true].

Definition query_process_ops : list Op :=
  one_tracker_ops ++ [OpNew 100 "Query" (Some 0) true].

Definition running_query_ops : list Op :=
  one_tracker_ops ++
  [OpGetRequestPoolMemTracker "default-pool" (Some 0);
   OpGetQueryMemTracker example_query_id 100 (Some 1)].

(** The query of [running_query_ops] comes and goes: its only owner gives it
    up, and a second query is created in the pool. *)
Definition query_turnover_ops : list Op :=
  running_query_ops ++
  [OpSharedPtrRelease 2;
   OpGetQueryMemTracker {| hi := 0; lo := 8 |} (-1) (Some 1)].

(** The process tracker, the tracker of the pool [default-pool] at address
    1 and, in that pool, the tracker of a query with a limit of 100 bytes at
    address 2. *)
Definition running_query : Process :=
  default empty_process
    (exec_all 1000 (λ _, "") (λ _, "") (λ _ m, m) running_query_ops empty_process).

(** The tracker of the examples with its metrics registered under the
    prefix [mem-tracker.process], one callback and 100 bytes consumed. *)
Definition metered_tracker : Process :=
  default busy_tracker (RegisterMetrics 0 "mem-tracker.process" busy_tracker).

(** A world for the test environment in which a [RuntimeState] is a fresh
    number and the block manager can always be made. *)
Definition counting_RuntimeState_new (query_ctx : TQueryCtx) (w : nat) : ptr * nat :=
  (w, S w).

Definition willing_BufferedBlockMgr_Create (runtime_state : ptr) (mem_limit block_size : Z)
    (w : nat) : Status * option ptr * nat :=
  (Status_OK, Some runtime_state, w).

Definition default_query_options : TQueryOptions :=
  {| max_errors := 0; batch_size := 0; mem_limit := None |}.

Definition empty_TestEnv : TestEnv nat := {| runtime_states_ := ∅; world := 0 |}.

(** * Properties *)

(** ** Machine integers *)

Lemma to_int64_in_range z : Int64.in_range (Int64.to_int64 z).
Proof.
  unfold Int64.in_range, Int64.to_int64, Int64.modulus, Int64.half_modulus.
  pose proof (Z.mod_pos_bound (z + 2 ^ 63) (2 ^ 64)) as H. lia.
Qed.

Lemma to_int64_id z : Int64.in_range z → Int64.to_int64 z = z.
Proof.
  unfold Int64.in_range, Int64.to_int64, Int64.modulus, Int64.half_modulus. intros H.
  rewrite Z.mod_small; lia.
Qed.

Lemma to_uint64_nonneg z : (0 ≤ z < Int64.modulus)%Z → Int64.to_uint64 z = z.
Proof. intros H. unfold Int64.to_uint64. by rewrite Z.mod_small. Qed.

Lemma to_uint64_neg z :
  (- Int64.half_modulus ≤ z < 0)%Z → Int64.to_uint64 z = (z + Int64.modulus)%Z.
Proof.
  unfold Int64.to_uint64, Int64.modulus, Int64.half_modulus. intros H.
  rewrite <- (Z.mod_add z 1 (2 ^ 64)) by lia. rewrite Z.mod_small; lia.
Qed.

(** ** Reclamation *)

Lemma refresh_if_metric_in_range this t m :
  Int64.in_range (current_value (counter m this)) →
  Int64.in_range (current_value (counter (refresh_if_metric this t m) this)).
Proof.
  intros Hr. unfold refresh_if_metric.
  destruct (consumption_metric_ t) as [name|]; [|done].
  unfold set_from_metric, set_counter; simpl.
  rewrite fn_lookup_insert. simpl. apply to_int64_in_range.
Qed.

Lemma uint64_lt_signed c max_consumption :
  Int64.in_range c → Int64.in_range max_consumption → (0 ≤ max_consumption)%Z →
  (Int64.to_uint64 c < Int64.to_uint64 max_consumption)%Z →
  (c < max_consumption)%Z.
Proof.
  unfold Int64.in_range, Int64.half_modulus. intros Hc Hm H0 Hlt.
  rewrite (to_uint64_nonneg max_consumption) in Hlt
    by (unfold Int64.modulus; lia).
  destruct (decide (0 ≤ c)%Z).
  - rewrite to_uint64_nonneg in Hlt by (unfold Int64.modulus; lia). done.
  - rewrite to_uint64_neg in Hlt by (unfold Int64.half_modulus; lia).
    unfold Int64.modulus in Hlt. lia.
Qed.

(** C1, as stated, fails: a tracker that consumes nothing, asked for a
    target of 10 bytes, answers [false] although its consumption after the
    call is below the target. *)
Lemma GcMemory_false_when_target_met :
  ¬ (∀ gc_call this target s b s',
       GcMemory gc_call this target s = Some (b, s') →
       (b = true ↔ (consumption s' this ≤ target)%Z)).
Proof.
  intros H.
  destruct (H (λ _ m, m) 0 10%Z one_tracker false
              (with_mem (mem one_tracker) one_tracker)) as [_ Hr].
  - reflexivity.
  - discriminate Hr. vm_compute. discriminate.
Qed.

(** C1, amended: [GcMemory] always returns; for a target that is not
    negative its result is [true] exactly when the consumption after the
    call is still above the target, and a negative target gives [true]
    without any effect. *)
Theorem GcMemory_returns_still_exceeded gc_call this target s t :
  heap s !! this = Some t →
  Int64.in_range target →
  Int64.in_range (consumption s this) →
  ∃ b s', GcMemory gc_call this target s = Some (b, s') ∧
    ((0 ≤ target)%Z → (b = true ↔ (consumption s' this > target)%Z)) ∧
    ((target < 0)%Z → b = true ∧ s' = s).
Proof.
  intros Ht Hmax Hc. unfold GcMemory.
  case_bool_decide as Hneg.
  { eexists _, _. split; [done|]. split; [lia|done]. }
  rewrite Ht. simpl.
  case_bool_decide as Hpre.
  - eexists _, _. split; [done|]. split; [|lia].
    intros _. split; [done|]. intros Hgt. exfalso.
    apply uint64_lt_signed in Hpre; [| |done|lia].
    + unfold consumption in Hgt. simpl in Hgt. lia.
    + by apply refresh_if_metric_in_range.
  - eexists _, _. split; [done|]. split; [|lia].
    intros _. unfold consumption. simpl.
    by rewrite bool_decide_eq_true.
Qed.

Lemma GcMemory_returns_still_exceeded_witness :
  ∃ b s', GcMemory release_half 0 40%Z busy_tracker = Some (b, s') ∧
    ((0 ≤ 40)%Z → (b = true ↔ (consumption s' 0%nat > 40)%Z)) ∧
    ((40 < 0)%Z → b = true ∧ s' = busy_tracker).
Proof.
  apply (GcMemory_returns_still_exceeded release_half 0 40%Z busy_tracker
           (default (initial_tracker 0 "" None None true) (heap busy_tracker !! 0))).
  - reflexivity.
  - unfold Int64.in_range, Int64.half_modulus. lia.
  - vm_compute. split; [discriminate|reflexivity].
Defined.

(** The tracker of the examples consumes 100 bytes and its callback frees
    half of them. A target of 60 is met by the callback and the answer is
    [false]; a target of 40 is missed and the answer is [true]; a target of
    200 was met before the call, no callback runs and the answer is
    [false]. *)
Lemma GcMemory_examples :
  (∃ s', GcMemory release_half 0 60%Z busy_tracker = Some (false, s') ∧
         consumption s' 0 = 50%Z) ∧
  (∃ s', GcMemory release_half 0 40%Z busy_tracker = Some (true, s') ∧
         consumption s' 0 = 50%Z) ∧
  (∃ s', GcMemory release_half 0 200%Z busy_tracker = Some (false, s') ∧
         consumption s' 0 = 100%Z).
Proof. repeat split; eexists; split; reflexivity. Qed.

(** ** Shape of the heap *)

Lemma wf_process_heap s : wf_process s ↔ wf_heap (next_ptr s) (heap s).
Proof. done. Qed.

Lemma same_shape_refl t : same_shape t t.
Proof. done. Qed.

Lemma same_shape_trans t1 t2 t3 :
  same_shape t1 t2 → same_shape t2 t3 → same_shape t1 t3.
Proof. unfold same_shape. intros (?&?&?&?) (?&?&?&?). repeat split; congruence. Qed.

Lemma preserved_refl k h : preserved k h h.
Proof. intros p t' _ H. eauto using same_shape_refl. Qed.

Lemma preserved_trans k h1 h2 h3 :
  preserved k h1 h2 → preserved k h2 h3 → preserved k h1 h3.
Proof.
  intros H12 H23 p t3 Hp H3.
  destruct (H23 p t3 Hp H3) as (t2 & H2 & S23).
  destruct (H12 p t2 Hp H2) as (t1 & H1 & S12).
  eauto using same_shape_trans.
Qed.

Lemma preserved_mono k k' h h' : k' ≤ k → preserved k h h' → preserved k' h h'.
Proof. intros Hk H p t' Hp. apply H. lia. Qed.

Lemma preserved_insert_same k h p t t' :
  h !! p = Some t → same_shape t t' → preserved k h (<[p := t']> h).
Proof.
  intros Hp Hs q u _ Hq. destruct (decide (p = q)) as [->|Hne].
  - rewrite lookup_insert_eq in Hq. injection Hq as <-. eauto.
  - rewrite lookup_insert_ne in Hq by done. eauto using same_shape_refl.
Qed.

Lemma preserved_insert_fresh k h p t' :
  k ≤ p → preserved k h (<[p := t']> h).
Proof.
  intros Hk q u Hq Hl. rewrite lookup_insert_ne in Hl by lia.
  eauto using same_shape_refl.
Qed.

Lemma preserved_delete k h p : preserved k h (delete p h).
Proof.
  intros q u _ Hl. apply lookup_delete_Some in Hl as [_ Hl].
  eauto using same_shape_refl.
Qed.

Lemma wf_heap_insert_same n h p t t' :
  wf_heap n h → h !! p = Some t → parent_ t' = parent_ t →
  wf_heap n (<[p := t']> h).
Proof.
  intros Hwf Hp Hpar q u Hq. destruct (decide (p = q)) as [->|Hne].
  - rewrite lookup_insert_eq in Hq. injection Hq as <-.
    rewrite Hpar. eauto.
  - rewrite lookup_insert_ne in Hq by done. eauto.
Qed.

Lemma wf_heap_insert_fresh n h t' :
  wf_heap n h → (∀ q, parent_ t' = Some q → q < n) →
  wf_heap (S n) (<[n := t']> h).
Proof.
  intros Hwf Hpar q u Hq. destruct (decide (n = q)) as [->|Hne].
  - rewrite lookup_insert_eq in Hq. injection Hq as <-. split; [lia|done].
  - rewrite lookup_insert_ne in Hq by done.
    destruct (Hwf q u Hq) as [? ?]. split; [lia|done].
Qed.

Lemma wf_heap_delete n h p : wf_heap n h → wf_heap n (delete p h).
Proof.
  intros Hwf q u Hq. apply lookup_delete_Some in Hq as [_ Hq]. eauto.
Qed.

Lemma wf_heap_fresh n h : wf_heap n h → h !! n = None.
Proof.
  intros Hwf. destruct (h !! n) as [t|] eqn:E; [|done].
  destruct (Hwf n t E). lia.
Qed.

(** ** The walk of [Init] *)

Lemma ancestor_chain_live h p l :
  ancestor_chain h p l → ∀ q, q ∈ l → is_Some (h !! q).
Proof.
  induction 1 as [p t Hp _|p t q l Hp _ _ IH]; intros x Hx.
  - apply list_elem_of_singleton in Hx as ->. eauto.
  - apply elem_of_cons in Hx as [->|Hx]; eauto.
Qed.

Lemma ancestor_chain_length n h p l :
  wf_heap n h → ancestor_chain h p l → length l ≤ S p.
Proof.
  intros Hwf. induction 1 as [p t Hp _|p t q l Hp Hq _ IH]; simpl; [lia|].
  destruct (Hwf p t Hp) as [_ Hlt]. specialize (Hlt q Hq). lia.
Qed.

Lemma ancestor_chain_below n h p l :
  wf_heap n h → ancestor_chain h p l → ∀ q, q ∈ l → q < n.
Proof.
  intros Hwf Hc q Hq. destruct (ancestor_chain_live h p l Hc q Hq) as [t Ht].
  by destruct (Hwf q t Ht).
Qed.

Lemma ancestor_chain_preserved h h' p l :
  (∀ q t, h !! q = Some t → ∃ t', h' !! q = Some t' ∧ parent_ t' = parent_ t) →
  ancestor_chain h p l → ancestor_chain h' p l.
Proof.
  intros Hle. induction 1 as [p t Hp Hn|p t q l Hp Hq _ IH].
  - destruct (Hle p t Hp) as (t' & Hp' & Hpar).
    apply (chain_root _ _ t'); [done|congruence].
  - destruct (Hle p t Hp) as (t' & Hp' & Hpar).
    apply (chain_parent _ _ t' q); [done|congruence|done].
Qed.

Lemma ancestor_chain_functional h p l l' :
  ancestor_chain h p l → ancestor_chain h p l' → l = l'.
Proof.
  intros H. revert l'. induction H as [p t Hp Hn|p t q l Hp Hq _ IH]; intros l' H'.
  - inversion H'; simplify_eq; done.
  - inversion H'; simplify_eq. f_equal. eauto.
Qed.

Lemma has_limit_at_lookup h p t : h !! p = Some t → has_limit_at h p = has_limit t.
Proof. intros H. unfold has_limit_at. by rewrite H. Qed.

Lemma filter_has_limit_cons h p t l :
  h !! p = Some t →
  filter (λ q, has_limit_at h q) (p :: l)
  = (if has_limit t then [p] else []) ++ filter (λ q, has_limit_at h q) l.
Proof.
  intros Hp. pose proof (has_limit_at_lookup h p t Hp) as Hl.
  destruct (has_limit t).
  - rewrite filter_cons_True; [done|]. by apply Is_true_true.
  - rewrite filter_cons_False; [done|]. by apply Is_true_false.
Qed.

Lemma Init_loop_done fuel h all lim : Init_loop fuel h None all lim = Some (all, lim).
Proof. by destruct fuel. Qed.

Lemma Init_loop_chain h p l :
  ancestor_chain h p l →
  ∀ fuel all lim, length l ≤ fuel →
    Init_loop fuel h (Some p) all lim
    = Some (all ++ l, lim ++ filter (λ q, has_limit_at h q) l).
Proof.
  induction 1 as [p t Hp Hn|p t q l Hp Hq _ IH]; intros fuel all lim Hf.
  - destruct fuel as [|fuel]; [simpl in Hf; lia|].
    simpl. rewrite Hp. simpl. rewrite Hn, Init_loop_done.
    rewrite (filter_has_limit_cons h p t) by done. rewrite filter_nil.
    destruct (has_limit t); simpl; by rewrite ?app_nil_r.
  - destruct fuel as [|fuel]; [simpl in Hf; lia|].
    simpl in Hf. simpl. rewrite Hp. simpl. rewrite Hq.
    rewrite IH by lia. rewrite (filter_has_limit_cons h p t) by done.
    destruct (has_limit t); simpl; by rewrite <- !app_assoc.
Qed.

Lemma Init_loop_self_parent h p t fuel all lim :
  h !! p = Some t → parent_ t = Some p →
  Init_loop fuel h (Some p) all lim = None.
Proof.
  intros Hp Hpar. revert all lim.
  induction fuel as [|fuel IH]; intros all lim; [done|].
  simpl. rewrite Hp. simpl. rewrite Hpar. apply IH.
Qed.

Global Arguments Init_loop : simpl never.

Lemma MemTracker_new_inv byte_limit label parent luiz s this s' :
  wf_process s →
  MemTracker_new byte_limit label parent luiz s = Some (this, s') →
  let t0 := initial_tracker byte_limit label parent None luiz in
  this = next_ptr s ∧
  ∃ h1 t1 all lim,
    match parent with
    | None => h1 = <[this := t0]> (heap s)
    | Some q => ∃ pt, q ≠ this ∧ heap s !! q = Some pt ∧
        h1 = <[this := with_child_tracker_it (Some this) t0]>
               (<[q := with_child_trackers (child_trackers_ pt ++ [this]) pt]>
                  (<[this := t0]> (heap s)))
    end ∧
    h1 !! this = Some t1 ∧
    Init_loop (S this) h1 (Some this) [] [] = Some (all, lim) ∧
    s' = new_process this (<[this := with_cached all lim t1]> h1) s.
Proof.
  intros Hwf Hnew t0. unfold MemTracker_new, allocate in Hnew. simpl in Hnew.
  pose proof (wf_heap_fresh _ _ Hwf) as Hfresh.
  destruct parent as [q|]; simpl in Hnew.
  - unfold AddChildTracker in Hnew. simpl in Hnew.
    destruct (decide (q = next_ptr s)) as [->|Hne].
    + (* the parent pointer is the object under construction *)
      exfalso. rewrite !lookup_insert_eq in Hnew. simpl in Hnew.
      rewrite insert_insert_eq in Hnew. rewrite lookup_insert_eq in Hnew.
      simpl in Hnew. unfold Init in Hnew. simpl in Hnew.
      rewrite lookup_insert_eq in Hnew. simpl in Hnew.
      erewrite Init_loop_self_parent in Hnew; [done| |]; [apply lookup_insert_eq|done].
    + rewrite (lookup_insert_ne _ (next_ptr s) q) in Hnew by congruence.
      destruct (heap s !! q) as [pt|] eqn:Hq; [|done]. simpl in Hnew.
      rewrite lookup_insert_eq in Hnew. simpl in Hnew.
      rewrite (lookup_insert_ne _ q (next_ptr s)), lookup_insert_eq in Hnew by congruence.
      simpl in Hnew.
      unfold Init in Hnew. simpl in Hnew.
      rewrite lookup_insert_eq in Hnew. simpl in Hnew.
      match type of Hnew with context [Init_loop ?f ?h ?p ?a ?l] =>
        destruct (Init_loop f h p a l) as [[all lim]|] eqn:Hloop end; [|done].
      simpl in Hnew. injection Hnew as <- <-. split; [done|].
      eexists _, _, all, lim. split; [|split; [|split]].
      * exists pt. split; [done|]. split; [done|]. reflexivity.
      * apply lookup_insert_eq.
      * exact Hloop.
      * reflexivity.
  - unfold Init in Hnew. simpl in Hnew.
    rewrite lookup_insert_eq in Hnew. simpl in Hnew.
    match type of Hnew with context [Init_loop ?f ?h ?p ?a ?l] =>
      destruct (Init_loop f h p a l) as [[all lim]|] eqn:Hloop end; [|done].
    simpl in Hnew. injection Hnew as <- <-. split; [done|].
    eexists _, _, all, lim. split; [|split; [|split]].
    * reflexivity.
    * apply lookup_insert_eq.
    * exact Hloop.
    * reflexivity.
Qed.

Lemma extends_refl h : extends h h.
Proof. intros q t H. eauto. Qed.

Lemma extends_trans h1 h2 h3 : extends h1 h2 → extends h2 h3 → extends h1 h3.
Proof.
  intros H12 H23 q t1 H1.
  destruct (H12 q t1 H1) as (t2 & H2 & ? & ?).
  destruct (H23 q t2 H2) as (t3 & H3 & ? & ?).
  exists t3. repeat split; congruence.
Qed.

Lemma extends_insert_same h p t t' :
  h !! p = Some t → parent_ t' = parent_ t → limit_ t' = limit_ t →
  extends h (<[p := t']> h).
Proof.
  intros Hp Hpar Hlim q u Hq. destruct (decide (p = q)) as [->|Hne].
  - rewrite lookup_insert_eq. simplify_eq. eauto.
  - rewrite lookup_insert_ne by done. eauto.
Qed.

Lemma extends_insert_fresh h p t' : h !! p = None → extends h (<[p := t']> h).
Proof.
  intros Hp q u Hq. rewrite lookup_insert_ne by congruence. eauto.
Qed.

Lemma ancestor_chain_extends h h' p l :
  extends h h' → ancestor_chain h p l → ancestor_chain h' p l.
Proof.
  intros He. apply ancestor_chain_preserved. intros q t Hq.
  destruct (He q t Hq) as (t' & ? & ? & ?). eauto.
Qed.

Lemma has_limit_at_extends h h' q :
  extends h h' → is_Some (h !! q) → has_limit_at h' q = has_limit_at h q.
Proof.
  intros He [t Ht]. destruct (He q t Ht) as (t' & Ht' & _ & Hlim).
  rewrite (has_limit_at_lookup h q t Ht), (has_limit_at_lookup h' q t' Ht').
  unfold has_limit. by rewrite Hlim.
Qed.

Lemma filter_has_limit_extends h h' (l : list ptr) :
  extends h h' → (∀ q, q ∈ l → is_Some (h !! q)) →
  filter (λ q, has_limit_at h' q) l = filter (λ q, has_limit_at h q) l.
Proof.
  intros He. induction l as [|p l IH]; intros Hl; [done|].
  destruct (Hl p) as [t Ht]; [by left|].
  destruct (He p t Ht) as (t' & Ht' & _ & Hlim).
  rewrite (filter_has_limit_cons h p t), (filter_has_limit_cons h' p t') by done.
  rewrite IH by (intros q Hq; apply Hl; by right).
  unfold has_limit. by rewrite Hlim.
Qed.

Lemma constructed_heap_extends this t0 parent h h1 :
  h !! this = None → constructed_heap this t0 parent h h1 → extends h h1.
Proof.
  intros Hfresh Hc. destruct parent as [q|]; simpl in Hc.
  - destruct Hc as (pt & Hne & Hq & ->).
    apply (extends_trans _ (<[this := t0]> h)); [by apply extends_insert_fresh|].
    apply (extends_trans _
             (<[q := with_child_trackers (child_trackers_ pt ++ [this]) pt]>
                (<[this := t0]> h))).
    + apply (extends_insert_same _ q pt); [|done|done].
      by rewrite lookup_insert_ne by congruence.
    + apply (extends_insert_same _ this t0); [|done|done].
      rewrite lookup_insert_ne by done. apply lookup_insert_eq.
  - subst h1. by apply extends_insert_fresh.
Qed.

Lemma constructed_heap_lookup this t0 parent h h1 :
  constructed_heap this t0 parent h h1 →
  ∃ t1, h1 !! this = Some t1 ∧ parent_ t1 = parent_ t0 ∧ limit_ t1 = limit_ t0 ∧
        all_trackers_ t1 = all_trackers_ t0 ∧ limit_trackers_ t1 = limit_trackers_ t0 ∧
        auto_unregister_ t1 = auto_unregister_ t0 ∧ query_id_ t1 = query_id_ t0 ∧
        pool_name_ t1 = pool_name_ t0 ∧ gc_functions_ t1 = gc_functions_ t0 ∧
        consumption_metric_ t1 = consumption_metric_ t0.
Proof.
  intros Hc. destruct parent as [q|]; simpl in Hc.
  - destruct Hc as (pt & Hne & Hq & ->). eexists. rewrite lookup_insert_eq. done.
  - subst h1. eexists. rewrite lookup_insert_eq. done.
Qed.

Lemma MemTracker_new_total byte_limit label parent luiz s l :
  wf_process s → parent_chain (heap s) parent l →
  is_Some (MemTracker_new byte_limit label parent luiz s).
Proof.
  intros Hwf Hchain. unfold MemTracker_new, allocate. simpl.
  pose proof (wf_heap_fresh _ _ Hwf) as Hfresh.
  set (t0 := initial_tracker byte_limit label parent None luiz).
  assert (∀ h1, constructed_heap (next_ptr s) t0 parent (heap s) h1 →
            is_Some (Init_loop (S (next_ptr s)) h1 (Some (next_ptr s)) [] [])) as Hinit.
  { intros h1 Hc.
    pose proof (constructed_heap_extends _ _ _ _ _ Hfresh Hc) as Hext.
    destruct (constructed_heap_lookup _ _ _ _ _ Hc) as (t1 & Ht1 & Hpar & _).
    assert (ancestor_chain h1 (next_ptr s) (next_ptr s :: l)) as Hc1.
    { destruct parent as [q|]; simpl in Hchain.
      - apply (chain_parent _ _ t1 q); [done|by rewrite Hpar|].
        by apply (ancestor_chain_extends (heap s)).
      - subst l. apply (chain_root _ _ t1); [done|by rewrite Hpar]. }
    rewrite (Init_loop_chain _ _ _ Hc1); [done|].
    simpl. destruct parent as [q|]; simpl in Hchain.
    - pose proof (ancestor_chain_length _ _ _ _ Hwf Hchain).
      assert (q < next_ptr s); [|lia].
      eapply (ancestor_chain_below _ _ _ _ Hwf Hchain).
      inversion Hchain; by left.
    - subst l. simpl. lia. }
  destruct parent as [q|]; simpl.
  - simpl in Hchain.
    assert (q < next_ptr s) as Hlt.
    { eapply (ancestor_chain_below _ _ _ _ Hwf Hchain). inversion Hchain; by left. }
    destruct (ancestor_chain_live _ _ _ Hchain q) as [pt Hq]; [inversion Hchain; by left|].
    unfold AddChildTracker. simpl.
    rewrite (lookup_insert_ne _ (next_ptr s) q) by lia. rewrite Hq. simpl.
    rewrite lookup_insert_eq. simpl.
    rewrite (lookup_insert_ne _ q (next_ptr s)), lookup_insert_eq by lia. simpl.
    unfold Init. simpl. rewrite lookup_insert_eq. simpl.
    destruct (Hinit _ (ex_intro _ pt (conj (Nat.lt_neq _ _ Hlt) (conj Hq eq_refl))))
      as [[all lim] ->]. simpl. eauto.
  - unfold Init. simpl. rewrite lookup_insert_eq. simpl.
    destruct (Hinit _ eq_refl) as [[all lim] ->]. simpl. eauto.
Qed.

Lemma constructed_heap_wf n t0 parent h h1 :
  wf_heap n h → parent_ t0 = parent → constructed_heap n t0 parent h h1 →
  wf_heap (S n) h1.
Proof.
  intros Hwf Hpar Hc. destruct parent as [q|]; simpl in Hc.
  - destruct Hc as (pt & Hne & Hq & ->).
    destruct (Hwf q pt Hq) as [Hlt _].
    apply (wf_heap_insert_same _ _ n t0); [|by rewrite lookup_insert_ne, lookup_insert_eq|done].
    apply (wf_heap_insert_same _ _ q pt); [|by rewrite lookup_insert_ne by congruence|done].
    apply wf_heap_insert_fresh; [done|]. intros q' Hq'. rewrite Hpar in Hq'. by simplify_eq.
  - subst h1. apply wf_heap_insert_fresh; [done|]. intros q' Hq'. congruence.
Qed.

Lemma constructed_heap_preserved n t0 parent h h1 :
  constructed_heap n t0 parent h h1 → preserved n h h1.
Proof.
  intros Hc. destruct parent as [q|]; simpl in Hc.
  - destruct Hc as (pt & Hne & Hq & ->).
    apply (preserved_trans _ _ (<[q := with_child_trackers (child_trackers_ pt ++ [n]) pt]>
                                  (<[n := t0]> h))); [|by apply preserved_insert_fresh].
    apply (preserved_trans _ _ (<[n := t0]> h)); [by apply preserved_insert_fresh|].
    apply (preserved_insert_same _ _ q pt); [|done].
    by rewrite lookup_insert_ne by congruence.
  - subst h1. by apply preserved_insert_fresh.
Qed.

Lemma MemTracker_new_spec byte_limit label parent luiz s l :
  wf_process s → parent_chain (heap s) parent l →
  ∃ s' t,
    MemTracker_new byte_limit label parent luiz s = Some (next_ptr s, s') ∧
    heap s' !! next_ptr s = Some t ∧
    all_trackers_ t = next_ptr s :: l ∧
    limit_trackers_ t = filter (λ q, has_limit_at (heap s') q) (next_ptr s :: l) ∧
    ancestor_chain (heap s') (next_ptr s) (next_ptr s :: l) ∧
    limit_ t = byte_limit ∧ parent_ t = parent.
Proof.
  intros Hwf Hchain.
  destruct (MemTracker_new_total byte_limit label parent luiz s l Hwf Hchain)
    as [[this s'] Hnew].
  destruct (MemTracker_new_inv _ _ _ _ _ _ _ Hwf Hnew) as (-> & h1 & t1 & all & lim & Hc & Ht1 & Hloop & ->).
  pose proof (wf_heap_fresh _ _ Hwf) as Hfresh.
  pose proof (constructed_heap_extends _ _ _ _ _ Hfresh Hc) as Hext.
  destruct (constructed_heap_lookup _ _ _ _ _ Hc) as (t1' & Ht1' & Hpar & Hlim & _).
  rewrite Ht1 in Ht1'. injection Ht1' as <-.
  assert (ancestor_chain h1 (next_ptr s) (next_ptr s :: l)) as Hc1.
  { destruct parent as [q|]; simpl in Hchain.
    - apply (chain_parent _ _ t1 q); [done|by rewrite Hpar|].
      by apply (ancestor_chain_extends (heap s)).
    - subst l. apply (chain_root _ _ t1); [done|by rewrite Hpar]. }
  rewrite (Init_loop_chain _ _ _ Hc1) in Hloop.
  2:{ eapply (ancestor_chain_length (S (next_ptr s)) h1); [|exact Hc1].
      by apply (constructed_heap_wf _ (initial_tracker byte_limit label parent None luiz)
                  parent (heap s)). }
  injection Hloop as <- <-.
  set (t := with_cached ([] ++ next_ptr s :: l)
              ([] ++ filter (λ q, has_limit_at h1 q) (next_ptr s :: l)) t1).
  assert (extends h1 (<[next_ptr s := t]> h1)) as Hext'.
  { by apply (extends_insert_same _ _ t1). }
  exists (new_process (next_ptr s) (<[next_ptr s := t]> h1) s), t.
  split; [done|]. simpl. rewrite lookup_insert_eq.
  split; [done|]. split; [done|]. split.
  { symmetry. apply filter_has_limit_extends; [done|].
    by apply (ancestor_chain_live _ _ _ Hc1). }
  split; [by apply (ancestor_chain_extends h1)|].
  split; [by rewrite Hlim|by rewrite Hpar].
Qed.

(** ** Steps *)

Lemma step_ok_refl s : wf_process s → step_ok s s.
Proof. intros Hwf. split; [done|]. split; [done|]. apply preserved_refl. Qed.

Lemma step_ok_trans s1 s2 s3 : step_ok s1 s2 → step_ok s2 s3 → step_ok s1 s3.
Proof.
  intros (Hwf2 & Hn12 & Hp12) (Hwf3 & Hn23 & Hp23).
  split; [done|]. split; [lia|].
  eapply preserved_trans; [done|]. by eapply preserved_mono.
Qed.

Lemma step_ok_same_heap s s' :
  heap s' = heap s → next_ptr s' = next_ptr s → wf_process s → step_ok s s'.
Proof.
  intros Hh Hn Hwf. unfold step_ok, wf_process. rewrite Hh, Hn.
  split; [done|]. split; [done|]. apply preserved_refl.
Qed.

Lemma step_ok_insert_same s s' p t t' :
  heap s !! p = Some t → same_shape t t' →
  heap s' = <[p := t']> (heap s) → next_ptr s' = next_ptr s →
  wf_process s → step_ok s s'.
Proof.
  intros Hp Hs Hh Hn Hwf. unfold step_ok, wf_process. rewrite Hh, Hn.
  split; [|split; [done|]].
  - apply (wf_heap_insert_same _ _ _ t); [done|done|]. by destruct Hs.
  - by apply (preserved_insert_same _ _ _ t).
Qed.

Lemma step_ok_delete s s' p :
  heap s' = delete p (heap s) → next_ptr s' = next_ptr s →
  wf_process s → step_ok s s'.
Proof.
  intros Hh Hn Hwf. unfold step_ok, wf_process. rewrite Hh, Hn.
  split; [by apply wf_heap_delete|]. split; [done|]. apply preserved_delete.
Qed.

Lemma MemTracker_new_step byte_limit label parent luiz s this s' :
  MemTracker_new byte_limit label parent luiz s = Some (this, s') →
  wf_process s → step_ok s s'.
Proof.
  intros Hnew Hwf.
  destruct (MemTracker_new_inv _ _ _ _ _ _ _ Hwf Hnew)
    as (-> & h1 & t1 & all & lim & Hc & Ht1 & Hloop & ->).
  destruct (constructed_heap_lookup _ _ _ _ _ Hc) as (t1' & Ht1' & Hpar & _).
  rewrite Ht1 in Ht1'. injection Ht1' as <-.
  split; [|split].
  - unfold wf_process. simpl.
    apply (wf_heap_insert_same _ _ _ t1); [|done|done].
    by apply (constructed_heap_wf _ (initial_tracker byte_limit label parent None luiz)
                parent (heap s)).
  - simpl. lia.
  - simpl. apply (preserved_trans _ _ h1); [|by apply preserved_insert_fresh].
    by eapply constructed_heap_preserved.
Qed.

Lemma MemTracker_new_metric_step consumption_metric byte_limit label s this s' :
  MemTracker_new_metric consumption_metric byte_limit label s = Some (this, s') →
  wf_process s → step_ok s s'.
Proof.
  unfold MemTracker_new_metric, allocate, Init. simpl. intros Hnew Hwf.
  rewrite lookup_insert_eq in Hnew. simpl in Hnew.
  match type of Hnew with context [Init_loop ?f ?h ?p ?a ?l] =>
    destruct (Init_loop f h p a l) as [[all lim]|] eqn:Hloop end; [|done].
  simpl in Hnew. injection Hnew as <- <-.
  rewrite insert_insert_eq. split; [|split]; simpl.
  - unfold wf_process. simpl. apply wf_heap_insert_fresh; [done|]. done.
  - lia.
  - by apply preserved_insert_fresh.
Qed.

Lemma AddGcFunction_step this f s s' :
  AddGcFunction this f s = Some s' → wf_process s → step_ok s s'.
Proof.
  unfold AddGcFunction. intros H Hwf.
  destruct (heap s !! this) as [t|] eqn:Ht; [|done]. simpl in H. injection H as <-.
  eapply (step_ok_insert_same _ _ this t); [done| |reflexivity|done|done]. done.
Qed.

Lemma UnregisterFromParent_step this s s' :
  UnregisterFromParent this s = Some s' → wf_process s → step_ok s s'.
Proof.
  unfold UnregisterFromParent. intros H Hwf.
  destruct (heap s !! this) as [t|] eqn:Ht; [|done]. simpl in H.
  destruct (parent_ t) as [p|] eqn:Hpar; [|done]. simpl in H.
  destruct (heap s !! p) as [pt|] eqn:Hp; [|done]. simpl in H.
  destruct (list_erase _ _) as [cs|]; [|done]. simpl in H.
  destruct (_ !! this) as [t1|] eqn:Ht1 in H; [|done]. simpl in H. injection H as <-.
  apply (step_ok_trans _ (with_heap (<[p := with_child_trackers cs pt]> (heap s)) s)).
  - eapply (step_ok_insert_same _ _ p pt); [done| |reflexivity|done|done]. done.
  - eapply (step_ok_insert_same _ _ this t1); [done| |reflexivity|done|]; [done|].
    unfold wf_process. simpl. by apply (wf_heap_insert_same _ _ _ pt).
Qed.

Lemma MemTracker_delete_step this s s' :
  MemTracker_delete this s = Some s' → wf_process s → step_ok s s'.
Proof.
  unfold MemTracker_delete. intros H Hwf.
  destruct (heap s !! this) as [t|] eqn:Ht; [|done]. simpl in H.
  destruct (if auto_unregister_ t then _ else _) as [s1|] eqn:Hs1; [|done].
  simpl in H. injection H as <-.
  assert (step_ok s s1) as H1.
  { destruct (auto_unregister_ t).
    - by eapply UnregisterFromParent_step.
    - injection Hs1 as <-. by apply step_ok_refl. }
  eapply step_ok_trans; [done|].
  eapply step_ok_delete; [done|done|]. by destruct H1.
Qed.

Lemma shared_ptr_release_step p s s' :
  shared_ptr_release p s = Some s' → wf_process s → step_ok s s'.
Proof.
  unfold shared_ptr_release. intros H Hwf.
  destruct (use_count s !! p) as [[|[|n]]|]; simpl in H; try done.
  - destruct (MemTracker_delete p s) as [s1|] eqn:Hd; [|done]. simpl in H.
    injection H as <-. pose proof (MemTracker_delete_step _ _ _ Hd Hwf) as H1.
    eapply step_ok_trans; [done|]. apply step_ok_same_heap; [done|done|by destruct H1].
  - injection H as <-. by apply step_ok_same_heap.
Qed.

Lemma GetRequestPoolMemTracker_step pool_name parent s r s' :
  GetRequestPoolMemTracker pool_name parent s = Some (r, s') →
  wf_process s → step_ok s s'.
Proof.
  unfold GetRequestPoolMemTracker. intros H Hwf.
  destruct (pool_to_mem_trackers_ s !! pool_name) as [tr|].
  { injection H as <- <-. by apply step_ok_refl. }
  destruct parent as [q|]; [|injection H as <- <-; by apply step_ok_refl].
  destruct (MemTracker_new _ _ _ _ s) as [[tr s1]|] eqn:Hnew; [|done]. simpl in H.
  destruct (heap s1 !! tr) as [t|] eqn:Ht; [|done]. simpl in H. injection H as <- <-.
  pose proof (MemTracker_new_step _ _ _ _ _ _ _ Hnew Hwf) as H1.
  eapply step_ok_trans; [done|].
  eapply (step_ok_insert_same _ _ tr t); [done| |done|done|by destruct H1]. done.
Qed.

Lemma log_query_limit_heap physical_mem pp byte_limit s :
  heap (log_query_limit physical_mem pp byte_limit s) = heap s ∧
  next_ptr (log_query_limit physical_mem pp byte_limit s) = next_ptr s ∧
  use_count (log_query_limit physical_mem pp byte_limit s) = use_count s ∧
  request_to_mem_trackers_ (log_query_limit physical_mem pp byte_limit s)
    = request_to_mem_trackers_ s ∧
  pool_to_mem_trackers_ (log_query_limit physical_mem pp byte_limit s)
    = pool_to_mem_trackers_ s ∧
  mem (log_query_limit physical_mem pp byte_limit s) = mem s.
Proof. unfold log_query_limit. repeat case_bool_decide; done. Qed.

Lemma GetQueryMemTracker_step physical_mem pp print_id id byte_limit parent s r s' :
  GetQueryMemTracker physical_mem pp print_id id byte_limit parent s = Some (r, s') →
  wf_process s → step_ok s s'.
Proof.
  unfold GetQueryMemTracker. intros H Hwf.
  destruct (log_query_limit_heap physical_mem pp byte_limit s) as (Hh & Hn & _).
  set (s0 := log_query_limit physical_mem pp byte_limit s) in *.
  assert (step_ok s s0) as H0 by (by apply step_ok_same_heap).
  eapply step_ok_trans; [exact H0|]. destruct H0 as [Hwf0 _]. clearbody s0.
  destruct (request_to_mem_trackers_ s0 !! id) as [w|].
  { injection H as H. unfold weak_ptr_lock in H.
    destruct (use_count s0 !! w); injection H as <- <-;
      by apply step_ok_same_heap. }
  destruct (MemTracker_new _ _ _ _ s0) as [[tr s1]|] eqn:Hnew; [|done]. simpl in H.
  destruct (heap s1 !! tr) as [t|] eqn:Ht; [|done]. simpl in H. injection H as <- <-.
  pose proof (MemTracker_new_step _ _ _ _ _ _ _ Hnew Hwf0) as H1.
  eapply step_ok_trans; [done|].
  eapply (step_ok_insert_same _ _ tr t); [done| |done|done|by destruct H1]. done.
Qed.

Lemma RegisterMetrics_step this prefix s s' :
  RegisterMetrics this prefix s = Some s' → wf_process s → step_ok s s'.
Proof.
  unfold RegisterMetrics. intros H Hwf.
  destruct (heap s !! this) as [t|] eqn:Ht; [|done]. simpl in H. injection H as <-.
  eapply (step_ok_insert_same _ _ this t); [done| |reflexivity|done|done]. done.
Qed.

Lemma RefreshConsumptionFromMetric_step this s s' :
  RefreshConsumptionFromMetric this s = Some s' → wf_process s → step_ok s s'.
Proof.
  unfold RefreshConsumptionFromMetric. intros H Hwf.
  destruct (heap s !! this) as [t|]; [|done]. simpl in H.
  destruct (consumption_metric_ t); [|done]. simpl in H. injection H as <-.
  by apply step_ok_same_heap.
Qed.

Lemma GcMemory_step gc_call this max_consumption s b s' :
  GcMemory gc_call this max_consumption s = Some (b, s') →
  wf_process s → step_ok s s'.
Proof.
  unfold GcMemory. intros H Hwf.
  case_bool_decide; [injection H as <- <-; by apply step_ok_refl|].
  destruct (heap s !! this) as [t|]; [|done]. simpl in H.
  case_bool_decide; injection H as <- <-; by apply step_ok_same_heap.
Qed.

Lemma exec_step physical_mem pp print_id gc_call op s s' :
  exec physical_mem pp print_id gc_call op s = Some s' →
  wf_process s → step_ok s s'.
Proof.
  destruct op; simpl; intros H Hwf.
  - destruct (MemTracker_new _ _ _ _ s) as [[? ?]|] eqn:E; [|done].
    injection H as <-. by eapply MemTracker_new_step.
  - destruct (MemTracker_new_metric _ _ _ s) as [[? ?]|] eqn:E; [|done].
    injection H as <-. by eapply MemTracker_new_metric_step.
  - by eapply AddGcFunction_step.
  - by eapply UnregisterFromParent_step.
  - by eapply MemTracker_delete_step.
  - by eapply shared_ptr_release_step.
  - destruct (GetRequestPoolMemTracker _ _ s) as [[? ?]|] eqn:E; [|done].
    injection H as <-. by eapply GetRequestPoolMemTracker_step.
  - destruct (GetQueryMemTracker _ _ _ _ _ _ s) as [[? ?]|] eqn:E; [|done].
    injection H as <-. by eapply GetQueryMemTracker_step.
  - by eapply RegisterMetrics_step.
  - by eapply RefreshConsumptionFromMetric_step.
  - destruct (GcMemory _ _ _ s) as [[? ?]|] eqn:E; [|done].
    injection H as <-. by eapply GcMemory_step.
  - injection H as <-. by apply step_ok_same_heap.
Qed.

Lemma exec_all_step physical_mem pp print_id gc_call ops s s' :
  exec_all physical_mem pp print_id gc_call ops s = Some s' →
  wf_process s → step_ok s s'.
Proof.
  revert s. induction ops as [|op ops IH]; simpl; intros s H Hwf.
  - injection H as <-. by apply step_ok_refl.
  - destruct (exec _ _ _ _ op s) as [s1|] eqn:E; [|done]. simpl in H.
    pose proof (exec_step _ _ _ _ _ _ _ E Hwf) as H1.
    eapply step_ok_trans; [done|]. apply IH; [done|by destruct H1].
Qed.

Lemma MemTracker_new_metric_spec consumption_metric byte_limit label s :
  wf_process s →
  ∃ s' t,
    MemTracker_new_metric consumption_metric byte_limit label s
      = Some (next_ptr s, s') ∧
    heap s' !! next_ptr s = Some t ∧
    all_trackers_ t = [next_ptr s] ∧
    limit_trackers_ t = filter (λ q, has_limit_at (heap s') q) [next_ptr s] ∧
    ancestor_chain (heap s') (next_ptr s) [next_ptr s] ∧
    limit_ t = byte_limit ∧ parent_ t = None.
Proof.
  intros Hwf. unfold MemTracker_new_metric, allocate, Init. simpl.
  rewrite lookup_insert_eq. simpl.
  set (t0 := initial_tracker byte_limit label None (Some consumption_metric) true).
  set (h := <[next_ptr s := t0]> (heap s)).
  assert (ancestor_chain h (next_ptr s) [next_ptr s]) as Hc.
  { apply (chain_root _ _ t0); [apply lookup_insert_eq|done]. }
  rewrite (Init_loop_chain _ _ _ Hc) by (simpl; lia). simpl.
  set (t := with_cached _ _ t0).
  assert (extends h (<[next_ptr s := t]> h)) as Hext.
  { apply (extends_insert_same _ _ t0); [apply lookup_insert_eq|done|done]. }
  eexists _, t. split; [done|]. simpl. rewrite lookup_insert_eq.
  split; [done|]. split; [done|]. split.
  { symmetry. apply filter_has_limit_extends; [done|].
    by apply (ancestor_chain_live _ _ _ Hc). }
  split; [by apply (ancestor_chain_extends h)|done].
Qed.

Section Lifetime.
Variable physical_mem : Z.
Variable PrettyPrinter_Print : Z → string.
Variable PrintId : TUniqueId → string.
Variable gc_call : GcFunction → Counters → Counters.

Lemma cached_lists_fixed s ops s' this t t' :
  wf_process s → this < next_ptr s →
  exec_all physical_mem PrettyPrinter_Print PrintId gc_call ops s = Some s' →
  heap s !! this = Some t → heap s' !! this = Some t' →
  all_trackers_ t' = all_trackers_ t ∧ limit_trackers_ t' = limit_trackers_ t.
Proof.
  intros Hwf Hlt Hexec Ht Ht'.
  destruct (exec_all_step _ _ _ _ _ _ _ Hexec Hwf) as (_ & _ & Hp).
  destruct (Hp this t' Hlt Ht') as (t0 & Ht0 & _ & _ & Hall & Hlim).
  rewrite Ht in Ht0. by injection Ht0 as <-.
Qed.

(** C6: a constructor leaves in [all_trackers_] the chain of the new
    tracker, itself first, then its parent, its grandparent and so on; in
    [limit_trackers_] the members of that chain that have a limit, in the
    same order; and no later operation changes either list while the
    tracker lives. *)
Theorem Init_caches_ancestor_chain (c : Constructor) s l :
  wf_process s →
  parent_chain (heap s) (constructor_parent c) l →
  ∃ this s' t,
    construct c s = Some (this, s') ∧
    heap s' !! this = Some t ∧
    ancestor_chain (heap s') this (this :: l) ∧
    all_trackers_ t = this :: l ∧
    limit_trackers_ t = filter (λ q, has_limit_at (heap s') q) (this :: l) ∧
    ∀ ops s'' t'',
      exec_all physical_mem PrettyPrinter_Print PrintId gc_call ops s' = Some s'' →
      heap s'' !! this = Some t'' →
      all_trackers_ t'' = all_trackers_ t ∧ limit_trackers_ t'' = limit_trackers_ t.
Proof.
  intros Hwf Hchain.
  assert (∃ s' t, construct c s = Some (next_ptr s, s') ∧
            heap s' !! next_ptr s = Some t ∧
            ancestor_chain (heap s') (next_ptr s) (next_ptr s :: l) ∧
            all_trackers_ t = next_ptr s :: l ∧
            limit_trackers_ t
              = filter (λ q, has_limit_at (heap s') q) (next_ptr s :: l) ∧
            step_ok s s' ∧ next_ptr s < next_ptr s') as (s' & t & Hc & Ht & Ha & Hall & Hlim & Hstep & Hn).
  { destruct c as [bl lab par luiz|bl lab par|m bl lab]; simpl in *.
    - destruct (MemTracker_new_spec bl lab par luiz s l Hwf Hchain)
        as (s' & t & Hnew & Ht & Hall & Hlim & Ha & _).
      pose proof (MemTracker_new_step _ _ _ _ _ _ _ Hnew Hwf) as Hstep.
      destruct (MemTracker_new_inv _ _ _ _ _ _ _ Hwf Hnew) as (_ & ? & ? & ? & ? & _ & _ & _ & Hs').
      exists s', t. repeat (split; [done|]). subst s'. simpl. lia.
    - unfold MemTracker_new_profile.
      destruct (MemTracker_new_spec bl lab par true s l Hwf Hchain)
        as (s' & t & Hnew & Ht & Hall & Hlim & Ha & _).
      pose proof (MemTracker_new_step _ _ _ _ _ _ _ Hnew Hwf) as Hstep.
      destruct (MemTracker_new_inv _ _ _ _ _ _ _ Hwf Hnew) as (_ & ? & ? & ? & ? & _ & _ & _ & Hs').
      exists s', t. repeat (split; [done|]). subst s'. simpl. lia.
    - subst l.
      destruct (MemTracker_new_metric_spec m bl lab s Hwf)
        as (s' & t & Hnew & Ht & Hall & Hlim & Ha & _).
      pose proof (MemTracker_new_metric_step _ _ _ _ _ _ Hnew Hwf) as Hstep.
      exists s', t. repeat (split; [done|]).
      destruct Hstep as (Hwf' & _ & _). destruct (Hwf' _ _ Ht). done. }
  exists (next_ptr s), s', t. repeat (split; [done|]).
  intros ops s'' t'' Hexec Ht''.
  eapply cached_lists_fixed; [by destruct Hstep|exact Hn|done|done|done].
Qed.
End Lifetime.

(** ** Examples of processes *)

Lemma wf_empty_process : wf_process empty_process.
Proof. intros p t H. done. Qed.

Lemma one_tracker_new :
  MemTracker_new (-1) "Process" None true empty_process = Some (0, one_tracker).
Proof. reflexivity. Qed.

Lemma wf_one_tracker : wf_process one_tracker.
Proof.
  by destruct (MemTracker_new_step _ _ _ _ _ _ _ one_tracker_new wf_empty_process).
Qed.

Lemma one_tracker_chain : ancestor_chain (heap one_tracker) 0 [0].
Proof. by eapply chain_root. Qed.

Lemma Init_caches_ancestor_chain_witness :
  ∃ this s' t,
    construct (New 100 "Query" (Some 0) true) one_tracker = Some (this, s') ∧
    heap s' !! this = Some t ∧
    ancestor_chain (heap s') this [this; 0] ∧
    all_trackers_ t = [this; 0] ∧
    limit_trackers_ t = filter (λ q, has_limit_at (heap s') q) [this; 0] ∧
    ∀ ops s'' t'',
      exec_all 1000 (λ _, "") (λ _, "") (λ _ m, m) ops s' = Some s'' →
      heap s'' !! this = Some t'' →
      all_trackers_ t'' = all_trackers_ t ∧ limit_trackers_ t'' = limit_trackers_ t.
Proof.
  apply (Init_caches_ancestor_chain 1000 (λ _, "") (λ _, "") (λ _ m, m)
           (New 100 "Query" (Some 0) true) one_tracker [0]).
  - exact wf_one_tracker.
  - exact one_tracker_chain.
Defined.

(** The fragment tracker of the three-level hierarchy caches itself, the
    query and the process, nearest first, and the query as the only tracker
    with a limit. *)
Lemma Init_three_levels :
  ∃ s t, three_levels = Some s ∧ heap s !! 2 = Some t ∧
         all_trackers_ t = [2; 1; 0] ∧ limit_trackers_ t = [1] ∧
         (child_trackers_ <$> heap s !! 0) = Some [1] ∧
         (child_trackers_ <$> heap s !! 1) = Some [2].
Proof. eexists _, _. repeat split; reflexivity. Qed.

(** ** Interning *)

Section Interning.
Variable physical_mem : Z.
Variable PrettyPrinter_Print : Z → string.
Variable PrintId : TUniqueId → string.

(** What the creating branch of [GetQueryMemTracker] does, for a parent
    whose chain is live. *)
Lemma GetQueryMemTracker_creates id byte_limit parent s l :
  wf_process s → parent_chain (heap s) parent l →
  request_to_mem_trackers_ s !! id = None →
  ∃ s' t,
    GetQueryMemTracker physical_mem PrettyPrinter_Print PrintId id byte_limit parent s = Some (Some (next_ptr s), s') ∧
    heap s' !! next_ptr s = Some t ∧
    limit_ t = byte_limit ∧ parent_ t = parent ∧
    query_id_ t = id ∧ auto_unregister_ t = true ∧
    request_to_mem_trackers_ s' = <[id := next_ptr s]> (request_to_mem_trackers_ s) ∧
    use_count s' = <[next_ptr s := 1]> (use_count s) ∧
    log s' = log (log_query_limit physical_mem PrettyPrinter_Print byte_limit s).
Proof.
  intros Hwf Hchain Hreg. unfold GetQueryMemTracker.
  destruct (log_query_limit_heap physical_mem PrettyPrinter_Print byte_limit s)
    as (Hh & Hn & Hu & Hr & Hp & Hm).
  set (s0 := log_query_limit physical_mem PrettyPrinter_Print byte_limit s) in *.
  rewrite Hr, Hreg.
  assert (wf_process s0) as Hwf0 by (unfold wf_process; by rewrite Hh, Hn).
  assert (parent_chain (heap s0) parent l) as Hchain0 by (by rewrite Hh).
  destruct (MemTracker_new_spec byte_limit ("Query(" +:+ PrintId id +:+ ")") parent
              log_usage_if_zero_default s0 l Hwf0 Hchain0)
    as (s1 & t & Hnew & Ht & _ & _ & _ & Hlim & Hpar).
  destruct (MemTracker_new_inv _ _ _ _ _ _ _ Hwf0 Hnew)
    as (_ & ? & ? & ? & ? & _ & _ & _ & Hs1).
  rewrite Hnew. simpl. rewrite Hn in Ht. rewrite Hn. rewrite Ht. simpl.
  eexists _, _. split; [done|]. simpl. rewrite lookup_insert_eq.
  split; [done|]. subst s1. simpl. by rewrite Hr, Hu.
Qed.

(** C3, amended: a query tracker created for a byte limit above physical
    memory gets that byte limit, unchanged; the only effect of the excess
    is the warning in the log. *)
Theorem GetQueryMemTracker_warns_without_clamping id byte_limit parent s l :
  wf_process s → parent_chain (heap s) parent l →
  request_to_mem_trackers_ s !! id = None →
  (0 ≤ physical_mem)%Z → (byte_limit > physical_mem)%Z →
  ∃ tracker s' t,
    GetQueryMemTracker physical_mem PrettyPrinter_Print PrintId id byte_limit parent s = Some (Some tracker, s') ∧
    heap s' !! tracker = Some t ∧
    limit_ t = byte_limit ∧
    log s' = log s ++
      [WARNING ("Memory limit " +:+ PrettyPrinter_Print byte_limit
                +:+ " exceeds physical memory of "
                +:+ PrettyPrinter_Print physical_mem);
       VLOG_QUERY ("Using query memory limit: " +:+ PrettyPrinter_Print byte_limit)].
Proof.
  intros Hwf Hchain Hreg Hphys Hgt.
  destruct (GetQueryMemTracker_creates id byte_limit parent s l Hwf Hchain Hreg)
    as (s' & t & Hget & Ht & Hlim & _ & _ & _ & _ & _ & Hlog).
  exists (next_ptr s), s', t. repeat (split; [done|]).
  rewrite Hlog. unfold log_query_limit.
  rewrite bool_decide_eq_true_2 by lia. rewrite bool_decide_eq_true_2 by done.
  simpl. by rewrite <- app_assoc.
Qed.
End Interning.

(** C3, as stated, fails: with 100 bytes of physical memory, a query
    tracker created for a limit of 200 bytes has the limit 200. *)
Lemma GetQueryMemTracker_keeps_byte_limit :
  ¬ (∀ physical_mem pp print_id id byte_limit parent s tracker s' t,
       (byte_limit > physical_mem)%Z →
       request_to_mem_trackers_ s !! id = None →
       GetQueryMemTracker physical_mem pp print_id id byte_limit parent s
         = Some (Some tracker, s') →
       heap s' !! tracker = Some t →
       limit_ t ≠ byte_limit).
Proof.
  intros H.
  destruct (GetQueryMemTracker 100 (λ _, "") (λ _, "") TUniqueId_default 200 None
              empty_process) as [[[tracker|] s']|] eqn:E; try discriminate E.
  destruct (heap s' !! tracker) as [t|] eqn:Ht.
  - apply (H 100%Z (λ _, "") (λ _, "") TUniqueId_default 200%Z None empty_process
             tracker s' t); [lia|done|done|done|].
    vm_compute in E. injection E as <- <-. vm_compute in Ht. by injection Ht as <-.
  - vm_compute in E. injection E as <- <-. discriminate Ht.
Qed.

Lemma GetQueryMemTracker_warns_without_clamping_witness :
  ∃ tracker s' t,
    GetQueryMemTracker 100 (λ _, "") (λ _, "") TUniqueId_default 200 (Some 0) one_tracker
      = Some (Some tracker, s') ∧
    heap s' !! tracker = Some t ∧
    limit_ t = 200%Z ∧
    log s' = log one_tracker ++
      [WARNING ("Memory limit " +:+ "" +:+ " exceeds physical memory of " +:+ "");
       VLOG_QUERY ("Using query memory limit: " +:+ "")].
Proof.
  apply (GetQueryMemTracker_warns_without_clamping 100 (λ _, "") (λ _, "")
           TUniqueId_default 200 (Some 0) one_tracker [0]).
  - exact wf_one_tracker.
  - exact one_tracker_chain.
  - reflexivity.
  - lia.
  - lia.
Defined.

(** What the creating branch of [GetRequestPoolMemTracker] does. *)
Lemma GetRequestPoolMemTracker_creates pool_name q s l :
  wf_process s → ancestor_chain (heap s) q l →
  pool_to_mem_trackers_ s !! pool_name = None →
  ∃ s' t,
    GetRequestPoolMemTracker pool_name (Some q) s = Some (Some (next_ptr s), s') ∧
    heap s !! next_ptr s = None ∧
    heap s' !! next_ptr s = Some t ∧
    limit_ t = (-1)%Z ∧ parent_ t = Some q ∧
    pool_name_ t = pool_name ∧ auto_unregister_ t = true ∧
    pool_to_mem_trackers_ s' = <[pool_name := next_ptr s]> (pool_to_mem_trackers_ s).
Proof.
  intros Hwf Hchain Hreg. unfold GetRequestPoolMemTracker. rewrite Hreg.
  destruct (MemTracker_new_spec (-1) (REQUEST_POOL_MEM_TRACKER_LABEL_FORMAT pool_name)
              (Some q) log_usage_if_zero_default s l Hwf Hchain)
    as (s1 & t & Hnew & Ht & _ & _ & _ & Hlim & Hpar).
  destruct (MemTracker_new_inv _ _ _ _ _ _ _ Hwf Hnew)
    as (_ & ? & ? & ? & ? & _ & _ & _ & Hs1).
  rewrite Hnew. simpl. rewrite Ht. simpl.
  eexists _, _. split; [done|]. simpl. rewrite lookup_insert_eq.
  split; [by apply wf_heap_fresh|]. split; [done|]. subst s1. done.
Qed.

(** C10: for a pool name that is not registered, a null parent makes
    [GetRequestPoolMemTracker] a pure lookup: it returns null and leaves the
    process as it was. A call that changes the heap or the pool registry was
    given a parent; and a parent with a live chain gets a new tracker
    created, at a fresh address, and registered under the pool name. *)
Theorem GetRequestPoolMemTracker_null_parent_lookup_only pool_name s :
  pool_to_mem_trackers_ s !! pool_name = None →
  GetRequestPoolMemTracker pool_name None s = Some (None, s) ∧
  (∀ parent r s',
     GetRequestPoolMemTracker pool_name parent s = Some (r, s') →
     heap s' ≠ heap s ∨ pool_to_mem_trackers_ s' ≠ pool_to_mem_trackers_ s →
     parent ≠ None) ∧
  (∀ q l, wf_process s → ancestor_chain (heap s) q l →
     ∃ tracker s' t,
       GetRequestPoolMemTracker pool_name (Some q) s = Some (Some tracker, s') ∧
       heap s !! tracker = None ∧
       heap s' !! tracker = Some t ∧
       pool_name_ t = pool_name ∧ parent_ t = Some q ∧
       pool_to_mem_trackers_ s' !! pool_name = Some tracker).
Proof.
  intros Hreg. split; [|split].
  - unfold GetRequestPoolMemTracker. by rewrite Hreg.
  - intros parent r s' Hget Hchg ->.
    unfold GetRequestPoolMemTracker in Hget. rewrite Hreg in Hget.
    injection Hget as <- <-. by destruct Hchg.
  - intros q l Hwf Hchain.
    destruct (GetRequestPoolMemTracker_creates pool_name q s l Hwf Hchain Hreg)
      as (s' & t & Hget & Hfresh & Ht & _ & Hpar & Hpool & _ & Hmap).
    exists (next_ptr s), s', t. repeat (split; [done|]).
    rewrite Hmap. apply lookup_insert_eq.
Qed.

Lemma GetRequestPoolMemTracker_null_parent_lookup_only_witness :
  GetRequestPoolMemTracker "default-pool" None one_tracker = Some (None, one_tracker) ∧
  (∀ parent r s',
     GetRequestPoolMemTracker "default-pool" parent one_tracker = Some (r, s') →
     heap s' ≠ heap one_tracker
     ∨ pool_to_mem_trackers_ s' ≠ pool_to_mem_trackers_ one_tracker →
     parent ≠ None) ∧
  (∀ q l, wf_process one_tracker → ancestor_chain (heap one_tracker) q l →
     ∃ tracker s' t,
       GetRequestPoolMemTracker "default-pool" (Some q) one_tracker
         = Some (Some tracker, s') ∧
       heap one_tracker !! tracker = None ∧
       heap s' !! tracker = Some t ∧
       pool_name_ t = "default-pool" ∧ parent_ t = Some q ∧
       pool_to_mem_trackers_ s' !! "default-pool" = Some tracker).
Proof.
  apply (GetRequestPoolMemTracker_null_parent_lookup_only "default-pool" one_tracker).
  reflexivity.
Defined.

(** ** The registry of query trackers *)

(** A lookup that finds a tracker which is still owned returns that
    tracker, with one more owner, and nothing else changes. *)
Lemma GetQueryMemTracker_interned physical_mem pp print_id id byte_limit parent s w n :
  request_to_mem_trackers_ s !! id = Some w → use_count s !! w = Some n →
  ∃ s',
    GetQueryMemTracker physical_mem pp print_id id byte_limit parent s
      = Some (Some w, s') ∧
    heap s' = heap s ∧
    request_to_mem_trackers_ s' = request_to_mem_trackers_ s ∧
    use_count s' = <[w := S n]> (use_count s).
Proof.
  intros Hreg Hcount. unfold GetQueryMemTracker. cbv zeta.
  destruct (log_query_limit_heap physical_mem pp byte_limit s)
    as (Hh & Hn & Hu & Hr & Hp & Hm).
  set (s0 := log_query_limit physical_mem pp byte_limit s) in *.
  rewrite Hr, Hreg. unfold weak_ptr_lock. rewrite Hu, Hcount.
  eexists. split; [done|]. simpl. by rewrite ?Hh, ?Hr, ?Hu.
Qed.

(** When the last owner of a query tracker goes away, its destructor
    erases the entry of its query id and the tracker is gone. *)
Lemma shared_ptr_release_last p s t :
  use_count s !! p = Some 1 → heap s !! p = Some t →
  ∀ s', shared_ptr_release p s = Some s' →
    request_to_mem_trackers_ s' !! query_id_ t = None ∧ heap s' !! p = None.
Proof.
  intros Hcount Ht s' Hrel. unfold shared_ptr_release in Hrel.
  rewrite Hcount in Hrel. simpl in Hrel.
  unfold MemTracker_delete in Hrel. rewrite Ht in Hrel. simpl in Hrel.
  destruct (if auto_unregister_ t then _ else _) as [s1|]; [|done].
  simpl in Hrel. injection Hrel as <-. simpl.
  split; [apply lookup_delete_eq|apply lookup_delete_eq].
Qed.

Lemma no_new_carrier_refl id h : no_new_carrier id h h.
Proof. intros p t H1 H2. eauto. Qed.

Lemma no_new_carrier_trans id h1 h2 h3 :
  no_new_carrier id h1 h2 → no_new_carrier id h2 h3 → no_new_carrier id h1 h3.
Proof.
  intros H12 H23 p t3 Hp Hid.
  destruct (H23 p t3 Hp Hid) as (t2 & Hp2 & Hid2). eauto.
Qed.

Lemma no_new_carrier_insert_same id h p t t' :
  h !! p = Some t → query_id_ t' = query_id_ t →
  no_new_carrier id h (<[p := t']> h).
Proof.
  intros Hp Hq x u Hx Hid. destruct (decide (p = x)) as [->|Hne].
  - rewrite lookup_insert_eq in Hx. injection Hx as <-.
    exists t. split; [done|congruence].
  - rewrite lookup_insert_ne in Hx by done. eauto.
Qed.

Lemma no_new_carrier_insert_other id h p t' :
  query_id_ t' ≠ id → no_new_carrier id h (<[p := t']> h).
Proof.
  intros Hq x u Hx Hid. destruct (decide (p = x)) as [->|Hne].
  - rewrite lookup_insert_eq in Hx. injection Hx as <-. done.
  - rewrite lookup_insert_ne in Hx by done. eauto.
Qed.

Lemma no_new_carrier_delete id h p : no_new_carrier id h (delete p h).
Proof.
  intros x u Hx Hid. apply lookup_delete_Some in Hx as [_ Hx]. eauto.
Qed.

Lemma frame_step_refl id s : frame_step id s s.
Proof. split; [done|]. split; [done|]. apply no_new_carrier_refl. Qed.

Lemma frame_step_same_heap id s s' :
  request_to_mem_trackers_ s' = request_to_mem_trackers_ s →
  use_count s' = use_count s → heap s' = heap s → frame_step id s s'.
Proof.
  intros Hr Hu Hh. split; [done|]. split; [done|]. rewrite Hh.
  apply no_new_carrier_refl.
Qed.

Lemma frame_step_trans id s1 s2 s3 :
  frame_step id s1 s2 → frame_step id s2 s3 → frame_step id s1 s3.
Proof.
  intros (Hr12 & Hu12 & Hn12) (Hr23 & Hu23 & Hn23).
  split; [congruence|]. split; [congruence|]. by eapply no_new_carrier_trans.
Qed.

Lemma frame_step_interned id tq s s' :
  frame_step id s s' → interned id tq s → interned id tq s'.
Proof.
  intros (Hr & Hu & Hn) (Hreg & Hown & Huniq).
  split; [by rewrite Hr|]. split; [by rewrite Hu|].
  intros p t' Hp Hid. destruct (Hn p t' Hp Hid) as (t & Ht & Hidt). eauto.
Qed.

Lemma constructed_heap_no_new_carrier id this t0 parent h h1 :
  query_id_ t0 ≠ id → constructed_heap this t0 parent h h1 →
  no_new_carrier id h h1.
Proof.
  intros Hid Hc. destruct parent as [q|]; simpl in Hc.
  - destruct Hc as (pt & Hne & Hq & ->).
    apply (no_new_carrier_trans _ _ (<[this := t0]> h));
      [by apply no_new_carrier_insert_other|].
    apply (no_new_carrier_trans _ _
             (<[q := with_child_trackers (child_trackers_ pt ++ [this]) pt]>
                (<[this := t0]> h)));
      [|by apply no_new_carrier_insert_other].
    apply (no_new_carrier_insert_same _ _ q pt); [|done].
    by rewrite lookup_insert_ne by congruence.
  - subst h1. by apply no_new_carrier_insert_other.
Qed.

Lemma MemTracker_new_frame id byte_limit label parent luiz s this s' :
  id ≠ TUniqueId_default → wf_process s →
  MemTracker_new byte_limit label parent luiz s = Some (this, s') →
  frame_step id s s' ∧ pool_to_mem_trackers_ s' = pool_to_mem_trackers_ s ∧
  ∃ t, heap s' !! this = Some t ∧ query_id_ t = TUniqueId_default.
Proof.
  intros Hid Hwf Hnew.
  destruct (MemTracker_new_inv _ _ _ _ _ _ _ Hwf Hnew)
    as (-> & h1 & t1 & all & lim & Hc & Ht1 & Hloop & ->).
  destruct (constructed_heap_lookup _ _ _ _ _ Hc)
    as (t1' & Ht1' & _ & _ & _ & _ & _ & Hq & _).
  rewrite Ht1 in Ht1'. injection Ht1' as <-. simpl in Hq.
  split; [|split; [done|]].
  - split; [done|]. split; [done|]. simpl.
    apply (no_new_carrier_trans _ _ h1).
    + eapply constructed_heap_no_new_carrier; [|done]. simpl. congruence.
    + apply no_new_carrier_insert_other. simpl. congruence.
  - eexists. simpl. rewrite lookup_insert_eq. done.
Qed.

Lemma MemTracker_new_metric_frame id consumption_metric byte_limit label s this s' :
  id ≠ TUniqueId_default →
  MemTracker_new_metric consumption_metric byte_limit label s = Some (this, s') →
  frame_step id s s'.
Proof.
  unfold MemTracker_new_metric, allocate, Init. simpl. intros Hid Hnew.
  rewrite lookup_insert_eq in Hnew. simpl in Hnew.
  match type of Hnew with context [Init_loop ?f ?h ?p ?a ?l] =>
    destruct (Init_loop f h p a l) as [[all lim]|] eqn:Hloop end; [|done].
  simpl in Hnew. injection Hnew as <- <-.
  rewrite insert_insert_eq. split; [done|]. split; [done|]. simpl.
  apply no_new_carrier_insert_other. simpl. congruence.
Qed.

Lemma AddGcFunction_frame id this f s s' :
  AddGcFunction this f s = Some s' → frame_step id s s'.
Proof.
  unfold AddGcFunction. intros H.
  destruct (heap s !! this) as [t|] eqn:Ht; [|done]. simpl in H. injection H as <-.
  split; [done|]. split; [done|]. simpl.
  by apply (no_new_carrier_insert_same _ _ this t).
Qed.

Lemma UnregisterFromParent_frame id this s s' :
  UnregisterFromParent this s = Some s' → frame_step id s s'.
Proof.
  unfold UnregisterFromParent. intros H.
  destruct (heap s !! this) as [t|] eqn:Ht; [|done]. simpl in H.
  destruct (parent_ t) as [p|] eqn:Hpar; [|done]. simpl in H.
  destruct (heap s !! p) as [pt|] eqn:Hp; [|done]. simpl in H.
  destruct (list_erase _ _) as [cs|]; [|done]. simpl in H.
  destruct (_ !! this) as [t1|] eqn:Ht1 in H; [|done]. simpl in H. injection H as <-.
  split; [done|]. split; [done|]. simpl.
  apply (no_new_carrier_trans _ _ (<[p := with_child_trackers cs pt]> (heap s))).
  - by apply (no_new_carrier_insert_same _ _ p pt).
  - by apply (no_new_carrier_insert_same _ _ this t1).
Qed.

Lemma RegisterMetrics_frame id this prefix s s' :
  RegisterMetrics this prefix s = Some s' → frame_step id s s'.
Proof.
  unfold RegisterMetrics. intros H.
  destruct (heap s !! this) as [t|] eqn:Ht; [|done]. simpl in H. injection H as <-.
  split; [done|]. split; [done|]. simpl.
  by apply (no_new_carrier_insert_same _ _ this t).
Qed.

Lemma RefreshConsumptionFromMetric_frame id this s s' :
  RefreshConsumptionFromMetric this s = Some s' → frame_step id s s'.
Proof.
  unfold RefreshConsumptionFromMetric. intros H.
  destruct (heap s !! this) as [t|]; [|done]. simpl in H.
  destruct (consumption_metric_ t); [|done]. simpl in H. injection H as <-.
  by apply frame_step_same_heap.
Qed.

Lemma GcMemory_frame id gc_call this max_consumption s b s' :
  GcMemory gc_call this max_consumption s = Some (b, s') → frame_step id s s'.
Proof.
  unfold GcMemory. intros H.
  case_bool_decide; [injection H as <- <-; apply frame_step_refl|].
  destruct (heap s !! this) as [t|]; [|done]. simpl in H.
  case_bool_decide; injection H as <- <-; by apply frame_step_same_heap.
Qed.

Lemma GetRequestPoolMemTracker_frame id pool_name parent s r s' :
  id ≠ TUniqueId_default → wf_process s →
  GetRequestPoolMemTracker pool_name parent s = Some (r, s') → frame_step id s s'.
Proof.
  unfold GetRequestPoolMemTracker. intros Hid Hwf H.
  destruct (pool_to_mem_trackers_ s !! pool_name) as [tr|].
  { injection H as <- <-. apply frame_step_refl. }
  destruct parent as [q|]; [|injection H as <- <-; apply frame_step_refl].
  destruct (MemTracker_new _ _ _ _ s) as [[tr s1]|] eqn:Hnew; [|done]. simpl in H.
  destruct (heap s1 !! tr) as [t|] eqn:Ht; [|done]. simpl in H. injection H as <- <-.
  destruct (MemTracker_new_frame id _ _ _ _ _ _ _ Hid Hwf Hnew) as (Hf & _ & _).
  eapply frame_step_trans; [done|].
  split; [done|]. split; [done|]. simpl.
  by apply (no_new_carrier_insert_same _ _ tr t).
Qed.

Lemma MemTracker_delete_interned id tq this s s' :
  interned id tq s → MemTracker_delete this s = Some s' →
  is_Some (heap s' !! tq) →
  interned id tq s' ∧ use_count s' = use_count s.
Proof.
  unfold MemTracker_delete. intros Hint H Hlive.
  destruct (heap s !! this) as [t|] eqn:Ht; [|done]. simpl in H.
  destruct (if auto_unregister_ t then _ else _) as [s1|] eqn:Hs1; [|done].
  simpl in H. injection H as <-. simpl in Hlive.
  assert (frame_step id s s1) as Hf.
  { destruct (auto_unregister_ t).
    - by eapply UnregisterFromParent_frame.
    - injection Hs1 as <-. apply frame_step_refl. }
  assert (this ≠ tq) as Hne.
  { intros ->. rewrite lookup_delete_eq in Hlive. by destruct Hlive. }
  assert (query_id_ t ≠ id) as Hid.
  { intros Hid. destruct Hint as (_ & _ & Huniq). by apply Hne, (Huniq this t). }
  pose proof (frame_step_interned _ _ _ _ Hf Hint) as (Hreg & Hown & Huniq).
  destruct Hf as (_ & Hu & _).
  split; [|done]. split; [|split; [done|]]; simpl.
  - by rewrite lookup_delete_ne.
  - intros p u Hp. apply lookup_delete_Some in Hp as [_ Hp]. eauto.
Qed.

Lemma shared_ptr_release_interned id tq p s s' :
  interned id tq s → shared_ptr_release p s = Some s' →
  is_Some (heap s' !! tq) → interned id tq s'.
Proof.
  unfold shared_ptr_release. intros Hint H Hlive.
  destruct (use_count s !! p) as [[|[|n]]|] eqn:Hc; simpl in H; try done.
  - destruct (MemTracker_delete p s) as [s1|] eqn:Hd; [|done]. simpl in H.
    injection H as <-. simpl in Hlive.
    destruct (MemTracker_delete_interned _ _ _ _ _ Hint Hd Hlive)
      as ((Hreg & Hown & Huniq) & Hu).
    assert (p ≠ tq) as Hne.
    { intros ->. unfold MemTracker_delete in Hd.
      destruct (heap s !! tq) as [t|]; [|done]. simpl in Hd.
      destruct (if auto_unregister_ t then _ else _) as [s2|]; [|done].
      simpl in Hd. injection Hd as <-. simpl in Hlive.
      rewrite lookup_delete_eq in Hlive. by destruct Hlive. }
    split; [done|]. split; [|done]. simpl. by rewrite lookup_delete_ne.
  - injection H as <-. destruct Hint as (Hreg & Hown & Huniq).
    split; [done|]. split; [|done]. simpl.
    destruct (decide (p = tq)) as [->|Hne].
    + rewrite lookup_insert_eq. by eexists.
    + by rewrite lookup_insert_ne.
Qed.

Lemma GetQueryMemTracker_keeps_interned physical_mem pp print_id id tq
    id' byte_limit parent s r s' :
  id ≠ TUniqueId_default → wf_process s → interned id tq s →
  GetQueryMemTracker physical_mem pp print_id id' byte_limit parent s = Some (r, s') →
  interned id tq s'.
Proof.
  unfold GetQueryMemTracker. cbv zeta. intros Hid Hwf Hint H.
  destruct (log_query_limit_heap physical_mem pp byte_limit s)
    as (Hh & Hn & Hu & Hr & Hp & Hm).
  set (s0 := log_query_limit physical_mem pp byte_limit s) in *.
  assert (wf_process s0) as Hwf0 by (unfold wf_process; by rewrite Hh, Hn).
  assert (interned id tq s0) as Hint0.
  { apply (frame_step_interned id tq s); [|done]. by apply frame_step_same_heap. }
  clearbody s0. clear Hint Hwf Hh Hn Hu Hr Hp Hm.
  destruct Hint0 as (Hreg & Hown & Huniq).
  destruct (request_to_mem_trackers_ s0 !! id') as [w|] eqn:Hreg'.
  { injection H as H. unfold weak_ptr_lock in H.
    destruct (use_count s0 !! w) eqn:Hw; injection H as <- <-; [|done].
    split; [done|]. split; [|done]. simpl.
    destruct (decide (w = tq)) as [->|Hne].
    - rewrite lookup_insert_eq. by eexists.
    - by rewrite lookup_insert_ne. }
  assert (id' ≠ id) as Hne by congruence.
  destruct (MemTracker_new _ _ _ _ s0) as [[tr s1]|] eqn:Hnew; [|done]. simpl in H.
  destruct (heap s1 !! tr) as [t|] eqn:Ht; [|done]. simpl in H. injection H as <- <-.
  destruct (MemTracker_new_frame id _ _ _ _ _ _ _ Hid Hwf0 Hnew) as (Hf & _ & _).
  destruct (frame_step_interned id tq _ _ Hf (conj Hreg (conj Hown Huniq)))
    as (Hreg1 & Hown1 & Huniq1).
  split; [|split]; simpl.
  - by rewrite lookup_insert_ne.
  - destruct (decide (tr = tq)) as [->|Hne'].
    + rewrite lookup_insert_eq. by eexists.
    + by rewrite lookup_insert_ne.
  - intros p u Hp Hidu. destruct (decide (tr = p)) as [->|Hne'].
    + rewrite lookup_insert_eq in Hp. injection Hp as <-. simpl in Hidu. done.
    + rewrite lookup_insert_ne in Hp by done. eauto.
Qed.

Lemma exec_interned physical_mem pp print_id gc_call id tq op s s' :
  id ≠ TUniqueId_default → wf_process s → interned id tq s →
  exec physical_mem pp print_id gc_call op s = Some s' →
  is_Some (heap s' !! tq) → interned id tq s'.
Proof.
  intros Hid Hwf Hint H Hlive. destruct op; simpl in H.
  - destruct (MemTracker_new _ _ _ _ s) as [[? ?]|] eqn:E; [|done].
    injection H as <-.
    destruct (MemTracker_new_frame id _ _ _ _ _ _ _ Hid Hwf E) as (Hf & _).
    by eapply frame_step_interned.
  - destruct (MemTracker_new_metric _ _ _ s) as [[? ?]|] eqn:E; [|done].
    injection H as <-. eapply frame_step_interned; [|done].
    by eapply MemTracker_new_metric_frame.
  - eapply frame_step_interned; [|done]. by eapply AddGcFunction_frame.
  - eapply frame_step_interned; [|done]. by eapply UnregisterFromParent_frame.
  - by destruct (MemTracker_delete_interned _ _ _ _ _ Hint H Hlive).
  - by eapply shared_ptr_release_interned.
  - destruct (GetRequestPoolMemTracker _ _ s) as [[? ?]|] eqn:E; [|done].
    injection H as <-. eapply frame_step_interned; [|done].
    by eapply GetRequestPoolMemTracker_frame.
  - destruct (GetQueryMemTracker _ _ _ _ _ _ s) as [[? ?]|] eqn:E; [|done].
    injection H as <-. by eapply GetQueryMemTracker_keeps_interned.
  - eapply frame_step_interned; [|done]. by eapply RegisterMetrics_frame.
  - eapply frame_step_interned; [|done]. by eapply RefreshConsumptionFromMetric_frame.
  - destruct (GcMemory _ _ _ s) as [[? ?]|] eqn:E; [|done].
    injection H as <-. eapply frame_step_interned; [|done]. by eapply GcMemory_frame.
  - injection H as <-. eapply frame_step_interned; [|done].
    by apply frame_step_same_heap.
Qed.

(** For a query id other than [0:0]: as long as its tracker lives, whatever
    the operations in between, the tracker stays the one the registry knows
    for the query, and [GetQueryMemTracker] returns it. *)
Lemma GetQueryMemTracker_same_instance_while_alive physical_mem pp print_id gc_call
    id tq ops s s' :
  id ≠ TUniqueId_default → wf_process s → is_Some (heap s !! tq) →
  interned id tq s →
  exec_all physical_mem pp print_id gc_call ops s = Some s' →
  is_Some (heap s' !! tq) →
  interned id tq s' ∧
  ∀ byte_limit parent, ∃ s'',
    GetQueryMemTracker physical_mem pp print_id id byte_limit parent s'
    = Some (Some tq, s'').
Proof.
  intros Hid Hwf Hlive0 Hint Hexec Hlive.
  assert (interned id tq s') as Hint'.
  { revert s Hwf Hlive0 Hint Hexec.
    induction ops as [|op ops IH]; simpl; intros s Hwf Hlive0 Hint Hexec.
    { by injection Hexec as <-. }
    destruct (exec _ _ _ _ op s) as [s1|] eqn:E; [|done]. simpl in Hexec.
    destruct (exec_step _ _ _ _ _ _ _ E Hwf) as (Hwf1 & Hn1 & _).
    destruct (exec_all_step _ _ _ _ _ _ _ Hexec Hwf1) as (_ & _ & Hp).
    assert (tq < next_ptr s1) as Hlt.
    { destruct Hlive0 as [t Ht]. destruct (Hwf tq t Ht). lia. }
    destruct Hlive as [t' Ht'].
    destruct (Hp tq t' Hlt Ht') as (t1 & Ht1 & _).
    apply (IH s1); [done|by eexists| |done].
    apply (exec_interned physical_mem pp print_id gc_call id tq op s s1);
      [done|done|done|done|by eexists]. }
  split; [done|]. intros byte_limit parent.
  destruct Hint' as (Hreg & [n Hown] & _).
  destruct (GetQueryMemTracker_interned physical_mem pp print_id id byte_limit parent
              s' tq n Hreg Hown) as (s'' & Hget & _).
  by exists s''.
Qed.

(** For a query id other than [0:0] that no live tracker carries, the
    creating branch of [GetQueryMemTracker] interns the new tracker. *)
Lemma GetQueryMemTracker_creates_interned physical_mem pp print_id id byte_limit
    parent s l :
  id ≠ TUniqueId_default → wf_process s → parent_chain (heap s) parent l →
  request_to_mem_trackers_ s !! id = None →
  (∀ p t, heap s !! p = Some t → query_id_ t ≠ id) →
  ∃ s', GetQueryMemTracker physical_mem pp print_id id byte_limit parent s
        = Some (Some (next_ptr s), s') ∧
        is_Some (heap s' !! next_ptr s) ∧ wf_process s' ∧
        interned id (next_ptr s) s'.
Proof.
  intros Hid Hwf Hchain Hreg Hnone.
  destruct (GetQueryMemTracker_creates physical_mem pp print_id id byte_limit parent
              s l Hwf Hchain Hreg)
    as (s' & t & Hget & Ht & _ & _ & Hq & _ & Hmap & Hcount & _).
  exists s'. split; [done|]. split; [by eexists|].
  split; [by destruct (GetQueryMemTracker_step _ _ _ _ _ _ _ _ _ Hget Hwf)|].
  split; [rewrite Hmap; apply lookup_insert_eq|].
  split; [rewrite Hcount, lookup_insert_eq; by eexists|].
  intros p u Hp Hu. destruct (decide (p = next_ptr s)) as [->|Hne]; [done|].
  exfalso.
  (* a tracker of [s'] other than the new one is a tracker of [s] *)
  unfold GetQueryMemTracker in Hget. cbv zeta in Hget.
  destruct (log_query_limit_heap physical_mem pp byte_limit s)
    as (Hh & Hn & _ & Hr & _).
  set (s0 := log_query_limit physical_mem pp byte_limit s) in *.
  assert (wf_process s0) as Hwf0 by (unfold wf_process; by rewrite Hh, Hn).
  rewrite Hr, Hreg in Hget.
  destruct (MemTracker_new _ _ _ _ s0) as [[tr s1]|] eqn:Hnew; [|done]. simpl in Hget.
  destruct (heap s1 !! tr) as [t1|] eqn:Ht1; [|done]. simpl in Hget.
  injection Hget as -> <-. simpl in Hp.
  rewrite lookup_insert_ne in Hp by done.
  destruct (MemTracker_new_frame id _ _ _ _ _ _ _ Hid Hwf0 Hnew) as ((_ & _ & Hnn) & _).
  destruct (Hnn p u Hp Hu) as (u0 & Hu0 & Hid0). rewrite Hh in Hu0.
  by apply (Hnone p u0).
Qed.

(** C9 at the query id [0:0]: the destructor of a tracker that was never
    interned erases the entry of the default-constructed [query_id_], so
    the second lookup constructs a second tracker for the query, at
    address 3, while the first one, at address 1, is alive and owned. *)
Lemma GetQueryMemTracker_default_id_twice :
  ∃ s, default_id_scenario = Some (Some 1, Some 3, s) ∧
       is_Some (heap s !! 1) ∧ use_count s !! 1 = Some 1 ∧
       (query_id_ <$> heap s !! 1) = Some TUniqueId_default ∧
       (query_id_ <$> heap s !! 3) = Some TUniqueId_default.
Proof.
  eexists. split; [vm_compute; reflexivity|].
  split; [by eexists|]. split; [reflexivity|]. split; reflexivity.
Qed.

(** ** Query state *)




Section Prepare.
Variable LimitExceeded LimitExceeded' : ptr → Process → bool * Process.
Variable process_mem_tracker process_mem_tracker' : ptr.
Variable PrintId PrintId' : TUniqueId → string.

Lemma Prepare_prepared qs s :
  prepared_ qs = true →
  Prepare LimitExceeded' process_mem_tracker' PrintId' qs s = (Status_OK, qs, s).
Proof. intros H. unfold Prepare. by rewrite H. Qed.

Lemma Prepare_failed qs s :
  prepared_ qs = false → ok (prepare_status_ qs) = false →
  Prepare LimitExceeded' process_mem_tracker' PrintId' qs s
  = (prepare_status_ qs, qs, s).
Proof. intros H1 H2. unfold Prepare. by rewrite H1, H2. Qed.

Lemma Prepare_again_fixed st qs :
  (∀ s, Prepare LimitExceeded' process_mem_tracker' PrintId' qs s = (st, qs, s)) →
  ∀ n s, Prepare_again LimitExceeded' process_mem_tracker' PrintId' n qs s
         = (replicate n st, qs, s).
Proof.
  intros H. induction n as [|n IH]; intros s; [done|].
  cbn [Prepare_again replicate]. by rewrite H, IH.
Qed.

(** A query state just constructed is not prepared, holds no error and
    has not released its resources. *)
Lemma QueryState_new_fresh CreateQueryMemTracker pp query_ctx pool s qs s' :
  QueryState_new CreateQueryMemTracker pp query_ctx pool s = Some (qs, s') →
  prepared_ qs = false ∧ ok (prepare_status_ qs) = true ∧
  released_resources_ qs = false ∧ refcnt_ qs = 0%Z.
Proof.
  unfold QueryState_new. intros H.
  destruct (CreateQueryMemTracker _ _ _ _) as [[tracker s1]|]; [|done].
  simpl in H. by injection H as <- <-.
Qed.

(** C5: on a query state that was not prepared yet, the first [Prepare]
    fails exactly when the process tracker is over its limit, and caches
    that status; whatever the first call returned, every later call
    returns the same status and touches neither the query state nor the
    process, whatever the limit check would answer then. *)
Theorem Prepare_replays_first_result qs s st1 qs1 s1 :
  prepared_ qs = false → ok (prepare_status_ qs) = true →
  Prepare LimitExceeded process_mem_tracker PrintId qs s = (st1, qs1, s1) →
  (if (LimitExceeded process_mem_tracker s).1
   then ok st1 = false ∧ prepare_status_ qs1 = st1 ∧ prepared_ qs1 = false
   else st1 = Status_OK ∧ prepared_ qs1 = true) ∧
  s1 = (LimitExceeded process_mem_tracker s).2 ∧
  ∀ n s2, Prepare_again LimitExceeded' process_mem_tracker' PrintId' n qs1 s2
          = (replicate n st1, qs1, s2).
Proof.
  intros Hprep Hok. unfold Prepare. rewrite Hprep, Hok. simpl.
  destruct (LimitExceeded process_mem_tracker s) as [exceeded s1'] eqn:HL. simpl.
  destruct exceeded; intros H; injection H as <- <- <-.
  - split; [done|]. split; [done|].
    apply Prepare_again_fixed. intros s2. by apply Prepare_failed.
  - split; [done|]. split; [done|].
    apply Prepare_again_fixed. intros s2. by apply Prepare_prepared.
Qed.
End Prepare.

Lemma Prepare_replays_first_result_witness :
  ∃ st1 qs1 s1,
    Prepare (λ _ s, (true, s)) 0 (λ _, "q") query_state_example query_process
      = (st1, qs1, s1) ∧
    ok st1 = false ∧
    ∀ n s2,
      Prepare_again (λ _ s, (false, s)) 0 (λ _, "q") n qs1 s2 = (replicate n st1, qs1, s2).
Proof.
  eexists _, _, _. split; [reflexivity|].
  match goal with |- ok ?st = false ∧ (∀ n s2, Prepare_again _ _ _ n ?q s2 = _) =>
    destruct (Prepare_replays_first_result (λ _ s, (true, s)) (λ _ s, (false, s))
                0 0 (λ _, "q") (λ _, "q") query_state_example query_process
                st q query_process)
      as (Hfirst & _ & Hlater) end.
  - reflexivity.
  - reflexivity.
  - reflexivity.
  - simpl in Hfirst. destruct Hfirst as (Hko & _). split; [exact Hko|exact Hlater].
Defined.

(** ** Scratch files *)

Section ScratchFiles.
Import TmpFileMgr.

Lemma AllocateSpace_ok i num_bytes st f :
  files (group st) !! i = Some f → writable (disk st) (device_id f) = true →
  ∃ st1 f1,
    AllocateSpace i num_bytes st = (Ok (current_offset f), st1) ∧
    files (group st1) !! i = Some f1 ∧
    current_offset f1 = (current_offset f + num_bytes)%Z ∧
    device_id f1 = device_id f ∧ path f1 = path f ∧
    writable (disk st1) = writable (disk st) ∧
    on_disk_size i st1 = Some (current_offset f + num_bytes)%Z.
Proof.
  intros Hf Hw. unfold AllocateSpace, File_AllocateSpace. rewrite Hf, Hw.
  eexists _, _. split; [done|]. unfold on_disk_size. simpl.
  rewrite list_lookup_insert_eq by (by eapply lookup_lt_Some).
  repeat (split; [done|]). simpl. apply lookup_insert_eq.
Qed.

Lemma AllocateSpace_inv i num_bytes st offset st1 :
  AllocateSpace i num_bytes st = (Ok offset, st1) →
  ∃ f, files (group st) !! i = Some f ∧ writable (disk st) (device_id f) = true ∧
       offset = current_offset f.
Proof.
  unfold AllocateSpace, File_AllocateSpace. intros H.
  destruct (files (group st) !! i) as [f|] eqn:Hf; [|done].
  destruct (writable (disk st) (device_id f)) eqn:Hw; [|done].
  injection H as <- <-. eauto.
Qed.

Lemma AllocateSpace_all_ranges i sizes :
  ∀ st f, files (group st) !! i = Some f →
    (writable (disk st) (device_id f) = true → is_Some (AllocateSpace_all i sizes st)) ∧
    ∀ res st', AllocateSpace_all i sizes st = Some (res, st') →
      res.*1 = range_starts (current_offset f) sizes ∧
      res.*2 = Some <$> range_ends (current_offset f) sizes.
Proof.
  induction sizes as [|r sizes IH]; intros st f Hf.
  { split; [by eexists|]. intros res st' H. by injection H as <- <-. }
  split.
  - intros Hw.
    destruct (AllocateSpace_ok i r st f Hf Hw)
      as (st1 & f1 & Ha & Hf1 & Ho & Hd & Hp & Hw1 & Hs).
    simpl. rewrite Ha.
    destruct (IH st1 f1 Hf1) as [Htot _].
    destruct Htot as [[res st2] ->]; [by rewrite Hw1, Hd|]. by eexists.
  - intros res st' H. simpl in H.
    destruct (AllocateSpace i r st) as [[offset|e] st1] eqn:Ha; [|done].
    destruct (AllocateSpace_inv _ _ _ _ _ Ha) as (f' & Hf' & Hw & ->).
    rewrite Hf in Hf'. injection Hf' as <-.
    destruct (AllocateSpace_ok i r st f Hf Hw)
      as (st1' & f1 & Ha' & Hf1 & Ho & Hd & Hp & Hw1 & Hs).
    rewrite Ha in Ha'. injection Ha' as <-.
    destruct (AllocateSpace_all i sizes st1) as [[res1 st2]|] eqn:Hall; [|done].
    simpl in H. injection H as <- <-.
    destruct (IH st1 f1 Hf1) as [_ Hres]. destruct (Hres _ _ Hall) as [H1 H2].
    cbn [range_starts range_ends]. rewrite !fmap_cons, H1, H2, Hs, Ho. done.
Qed.

(** C7: on a file that has nothing allocated yet, a run of successful
    [AllocateSpace] calls with sizes [r1, r2, ...] returns the offsets
    [0, r1, r1 + r2, ...], and after each call the file on disk is as long as
    the sizes allocated so far add up to; on a device that accepts writes
    every call of the run succeeds. *)
Theorem AllocateSpace_back_to_back i sizes st f :
  files (group st) !! i = Some f → current_offset f = 0%Z →
  (writable (disk st) (device_id f) = true → is_Some (AllocateSpace_all i sizes st)) ∧
  ∀ res st', AllocateSpace_all i sizes st = Some (res, st') →
    res.*1 = range_starts 0 sizes ∧
    res.*2 = Some <$> range_ends 0 sizes.
Proof.
  intros Hf H0. rewrite <- H0. by apply AllocateSpace_all_ranges.
Qed.

Lemma AllocateSpace_all_example :
  ∃ st', AllocateSpace_all 0 [1; 10; 1024; 4]%Z one_file_state
         = Some ([(0, Some 1); (1, Some 11); (11, Some 1035); (1035, Some 1039)]%Z, st').
Proof. eexists. vm_compute. reflexivity. Qed.

Lemma AllocateSpace_back_to_back_witness :
  (writable (disk one_file_state) 0 = true →
   is_Some (AllocateSpace_all 0 [1; 10; 1024; 4]%Z one_file_state)) ∧
  ∀ res st', AllocateSpace_all 0 [1; 10; 1024; 4]%Z one_file_state = Some (res, st') →
    res.*1 = range_starts 0 [1; 10; 1024; 4]%Z ∧
    res.*2 = Some <$> range_ends 0 [1; 10; 1024; 4]%Z.
Proof.
  apply (AllocateSpace_back_to_back 0 [1; 10; 1024; 4]%Z one_file_state
           {| device_id := 0; path := "/tmp/tmp-file-mgr-test.1/impala-scratch/0";
              current_offset := 0; io_error := None; blacklisted := false |}).
  - vm_compute. reflexivity.
  - reflexivity.
Defined.

Lemma AllocateSpace_group_unchanged i num_bytes st r st1 :
  AllocateSpace i num_bytes st = (r, st1) →
  bytes_limit (group st1) = bytes_limit (group st) ∧
  current_bytes_allocated (group st1) = current_bytes_allocated (group st) ∧
  devices st1 = devices st.
Proof.
  unfold AllocateSpace. intros H.
  destruct (files (group st) !! i) as [f|]; [|by injection H as <- <-].
  destruct (File_AllocateSpace num_bytes f (disk st)) as [[r' f'] d'].
  by injection H as <- <-.
Qed.

Lemma FileGroup_AllocateSpace_over_limit L num_bytes st :
  bytes_limit (group st) = Some L →
  (current_bytes_allocated (group st) + num_bytes > L)%Z →
  ∃ st1,
    FileGroup_AllocateSpace num_bytes st = (Err SCRATCH_LIMIT_EXCEEDED, st1) ∧
    files (group st1) = files (group st) ∧ disk st1 = disk st ∧
    devices st1 = devices st ∧
    bytes_limit (group st1) = Some L ∧
    current_bytes_allocated (group st1) = current_bytes_allocated (group st).
Proof.
  intros HL Hover. unfold FileGroup_AllocateSpace. rewrite HL.
  rewrite bool_decide_eq_true_2 by done. eexists. split; [done|]. done.
Qed.

Lemma FileGroup_AllocateSpace_counter L num_bytes st r st1 :
  bytes_limit (group st) = Some L →
  (current_bytes_allocated (group st) ≤ L)%Z →
  FileGroup_AllocateSpace num_bytes st = (r, st1) →
  bytes_limit (group st1) = Some L ∧
  (current_bytes_allocated (group st1) ≤ L)%Z ∧
  current_bytes_allocated (group st1)
  = (current_bytes_allocated (group st) + allocated_bytes [(num_bytes, r)])%Z.
Proof.
  intros HL Hle. unfold FileGroup_AllocateSpace. rewrite HL.
  case_bool_decide as Hover.
  { intros H. injection H as <- <-. simpl. split; [done|]. split; [done|lia]. }
  destruct (AllocateSpace _ _ _) as [[offset|e] st'] eqn:Ha; intros H;
    injection H as <- <-;
    destruct (AllocateSpace_group_unchanged _ _ _ _ _ Ha) as (Hl & Hc & _);
    simpl in *.
  - split; [by rewrite Hl|]. split; lia.
  - rewrite Hl, Hc. split; [done|]. split; [done|lia].
Qed.

Lemma FileGroup_AllocateSpace_all_counter L requests :
  ∀ st, bytes_limit (group st) = Some L →
    (current_bytes_allocated (group st) ≤ L)%Z →
    (current_bytes_allocated (group (FileGroup_AllocateSpace_all requests st).2) ≤ L)%Z ∧
    current_bytes_allocated (group (FileGroup_AllocateSpace_all requests st).2)
    = (current_bytes_allocated (group st)
       + allocated_bytes (FileGroup_AllocateSpace_all requests st).1)%Z.
Proof.
  induction requests as [|n requests IH]; intros st HL Hle; simpl; [split; [done|lia]|].
  destruct (FileGroup_AllocateSpace n st) as [r st1] eqn:Hstep.
  destruct (FileGroup_AllocateSpace_counter L n st r st1 HL Hle Hstep) as (HL1 & Hle1 & Hc1).
  destruct (IH st1 HL1 Hle1) as [Hle2 Hc2].
  destruct (FileGroup_AllocateSpace_all requests st1) as [rs st2]. simpl in *.
  split; [done|]. rewrite Hc2, Hc1. destruct r; lia.
Qed.

(** C2: in a group constructed with the aggregate limit [L], the bytes
    handed out by any run of [AllocateSpace] requests never add up to more
    than [L], and they are what the group's counter holds; a request that
    would push the counter past [L] fails with [SCRATCH_LIMIT_EXCEEDED] and
    changes no file, nothing on disk and not the counter. With two files and
    a limit of 100, a request of 25 succeeds at offset 0, one of 76 fails,
    one of 75 succeeds and one of 1 fails. *)
Theorem FileGroup_AllocateSpace_respects_limit L requests st :
  bytes_limit (group st) = Some L → current_bytes_allocated (group st) = 0%Z →
  (0 ≤ L)%Z →
  (allocated_bytes (FileGroup_AllocateSpace_all requests st).1 ≤ L)%Z ∧
  current_bytes_allocated (group (FileGroup_AllocateSpace_all requests st).2)
    = allocated_bytes (FileGroup_AllocateSpace_all requests st).1 ∧
  (∀ st0 num_bytes,
     bytes_limit (group st0) = Some L →
     (current_bytes_allocated (group st0) + num_bytes > L)%Z →
     ∃ st1,
       FileGroup_AllocateSpace num_bytes st0 = (Err SCRATCH_LIMIT_EXCEEDED, st1) ∧
       files (group st1) = files (group st0) ∧ disk st1 = disk st0 ∧
       current_bytes_allocated (group st1) = current_bytes_allocated (group st0)) ∧
  (FileGroup_AllocateSpace_all [25; 76; 75; 1]%Z two_files_state).1
    = [(25, Ok (0%nat, 0)); (76, Err SCRATCH_LIMIT_EXCEEDED);
       (75, Ok (0%nat, 25)); (1, Err SCRATCH_LIMIT_EXCEEDED)]%Z.
Proof.
  intros HL H0 HL0.
  destruct (FileGroup_AllocateSpace_all_counter L requests st HL) as [Hle Hc]; [lia|].
  rewrite H0 in Hc. split; [lia|]. split; [lia|]. split; [|reflexivity].
  intros st0 n HL' Hover.
  destruct (FileGroup_AllocateSpace_over_limit L n st0 HL' Hover)
    as (st1 & Ha & Hf & Hd & _ & _ & Hcur).
  eauto.
Qed.

Lemma FileGroup_AllocateSpace_respects_limit_witness :
  (allocated_bytes (FileGroup_AllocateSpace_all
                      [101; 101; 25; 76; 76; 75; 1]%Z two_files_state).1 ≤ 100)%Z ∧
  current_bytes_allocated
    (group (FileGroup_AllocateSpace_all
              [101; 101; 25; 76; 76; 75; 1]%Z two_files_state).2)
    = allocated_bytes (FileGroup_AllocateSpace_all
                         [101; 101; 25; 76; 76; 75; 1]%Z two_files_state).1 ∧
  (∀ st0 num_bytes,
     bytes_limit (group st0) = Some 100%Z →
     (current_bytes_allocated (group st0) + num_bytes > 100)%Z →
     ∃ st1,
       FileGroup_AllocateSpace num_bytes st0 = (Err SCRATCH_LIMIT_EXCEEDED, st1) ∧
       files (group st1) = files (group st0) ∧ disk st1 = disk st0 ∧
       current_bytes_allocated (group st1) = current_bytes_allocated (group st0)) ∧
  (FileGroup_AllocateSpace_all [25; 76; 75; 1]%Z two_files_state).1
    = [(25, Ok (0%nat, 0)); (76, Err SCRATCH_LIMIT_EXCEEDED);
       (75, Ok (0%nat, 25)); (1, Err SCRATCH_LIMIT_EXCEEDED)]%Z.
Proof.
  apply (FileGroup_AllocateSpace_respects_limit 100
           [101; 101; 25; 76; 76; 75; 1]%Z two_files_state).
  - reflexivity.
  - reflexivity.
  - lia.
Defined.

(** The requests of [TestScratchLimit], in its order: the two files are
    taken in turn, each from offset 0. *)
Lemma TestScratchLimit_outcomes :
  (FileGroup_AllocateSpace_all [101; 101; 25; 76; 76; 75; 1]%Z two_files_state).1
  = [(101, Err SCRATCH_LIMIT_EXCEEDED); (101, Err SCRATCH_LIMIT_EXCEEDED);
     (25, Ok (0%nat, 0)); (76, Err SCRATCH_LIMIT_EXCEEDED);
     (76, Err SCRATCH_LIMIT_EXCEEDED); (75, Ok (1%nat, 0));
     (1, Err SCRATCH_LIMIT_EXCEEDED)]%Z.
Proof. reflexivity. Qed.

Lemma ReportIOError_lookup i msg st f :
  files (group st) !! i = Some f →
  files (group (ReportIOError i msg st)) !! i = Some (File_ReportIOError msg f).
Proof.
  intros Hf. unfold ReportIOError. simpl.
  rewrite list_lookup_alter_eq. by rewrite Hf.
Qed.

(** C8: [ReportIOError] records the error on the file and nothing else:
    the file is no more blacklisted than before, the devices and the active
    ones among them are the same, an [AllocateSpace] on the file succeeds at
    its high-water mark as long as its device accepts writes, and a new
    file can be created on its device as long as the device is active. *)
Theorem ReportIOError_leaves_file_and_device_usable file_name i msg st f :
  files (group st) !! i = Some f →
  (∃ f', files (group (ReportIOError i msg st)) !! i = Some f' ∧
         is_Some (io_error f') ∧ blacklisted f' = blacklisted f ∧
         device_id f' = device_id f ∧ current_offset f' = current_offset f) ∧
  devices (ReportIOError i msg st) = devices st ∧
  num_active_tmp_devices (ReportIOError i msg st) = num_active_tmp_devices st ∧
  active_tmp_devices (ReportIOError i msg st) = active_tmp_devices st ∧
  (∀ num_bytes, writable (disk st) (device_id f) = true →
     ∃ st1, AllocateSpace i num_bytes (ReportIOError i msg st)
            = (Ok (current_offset f), st1)) ∧
  (∀ d query_id, devices st !! device_id f = Some d → active d = true →
     ∃ st1, NewFile file_name (device_id f) query_id (ReportIOError i msg st)
            = (Ok (length (files (group st))), st1)).
Proof.
  intros Hf. pose proof (ReportIOError_lookup i msg st f Hf) as Hf'.
  split; [|split; [done|split; [done|split; [done|split]]]].
  - eexists. split; [done|]. simpl. split; [|done].
    destruct (io_error f); by eexists.
  - intros n Hw.
    destruct (AllocateSpace_ok i n (ReportIOError i msg st) _ Hf' Hw) as (st1 & _ & Ha & _).
    by exists st1.
  - intros d q Hd Ha. unfold NewFile. simpl. rewrite Hd, Ha.
    rewrite length_alter. by eexists.
Qed.

Lemma ReportIOError_leaves_file_and_device_usable_witness :
  (∃ f', files (group (ReportIOError 1 "A fake error" two_files_state)) !! 1 = Some f' ∧
         is_Some (io_error f') ∧ blacklisted f' = false ∧
         device_id f' = 1 ∧ current_offset f' = 0%Z) ∧
  devices (ReportIOError 1 "A fake error" two_files_state) = devices two_files_state ∧
  num_active_tmp_devices (ReportIOError 1 "A fake error" two_files_state)
    = num_active_tmp_devices two_files_state ∧
  active_tmp_devices (ReportIOError 1 "A fake error" two_files_state)
    = active_tmp_devices two_files_state ∧
  (∀ num_bytes, writable (disk two_files_state) 1 = true →
     ∃ st1, AllocateSpace 1 num_bytes (ReportIOError 1 "A fake error" two_files_state)
            = (Ok 0%Z, st1)) ∧
  (∀ d query_id, devices two_files_state !! 1 = Some d → active d = true →
     ∃ st1, NewFile test_file_name 1 query_id
              (ReportIOError 1 "A fake error" two_files_state)
            = (Ok 2, st1)).
Proof.
  apply (ReportIOError_leaves_file_and_device_usable test_file_name 1 "A fake error"
           two_files_state
           {| device_id := 1; path := "/tmp/tmp-file-mgr-test.2/impala-scratch/1";
              current_offset := 0; io_error := None; blacklisted := false |}).
  vm_compute. reflexivity.
Defined.

(** The steps of [TestReportError]: two active devices before and after
    the report, and the allocations and the new file that follow succeed. *)
Lemma TestReportError_outcomes :
  num_active_tmp_devices (ReportIOError 1 "A fake error" two_files_state) = 2 ∧
  (AllocateSpace 1 128 (ReportIOError 1 "A fake error" two_files_state)).1 = Ok 0%Z ∧
  (AllocateSpace 0 128 (ReportIOError 1 "A fake error" two_files_state)).1 = Ok 0%Z ∧
  (NewFile test_file_name 1 TUniqueId_default
     (ReportIOError 1 "A fake error" two_files_state)).1 = Ok 2.
Proof. repeat split. Qed.
(** [Close] releases the counter, removes the files of the group from the
    disk, and a second call changes nothing. *)
Lemma Close_once st :
  current_bytes_allocated (group (Close st)) = 0%Z ∨ closed (group st) = true.
Proof. unfold Close. destruct (closed (group st)); [by right|by left]. Qed.

Lemma Close_twice st : Close (Close st) = Close st.
Proof.
  unfold Close at 1. destruct (closed (group (Close st))) eqn:E; [done|].
  unfold Close in E. by destruct (closed (group st)) eqn:E'; simpl in E; congruence.
Qed.
End ScratchFiles.

(** * Further properties *)

(** ** Reserved memory of a pool *)

Lemma int64_add_Some a b :
  Int64.in_range (a + b) → int64_add a b = Some (a + b)%Z.
Proof. intros H. unfold int64_add. by rewrite bool_decide_eq_true_2. Qed.

Lemma GetPoolMemReserved_loop_bounded physical_mem s children :
  (0 ≤ physical_mem)%Z →
  (∀ c, c ∈ children → ∃ tc, heap s !! c = Some tc ∧
     ((limit_ tc ≤ 0)%Z → (0 ≤ consumption s c ≤ physical_mem)%Z)) →
  ∀ acc, (0 ≤ acc)%Z →
    (acc + Z.of_nat (length children) * physical_mem < Int64.half_modulus)%Z →
    ∃ r, GetPoolMemReserved_loop physical_mem s children acc = Some r ∧
         (acc ≤ r ≤ acc + Z.of_nat (length children) * physical_mem)%Z.
Proof.
  intros Hphys. unfold Int64.half_modulus.
  induction children as [|c children IH]; intros Hch acc Hacc Hfit; simpl.
  { exists acc. split; [done|]. simpl in Hfit. lia. }
  destruct (Hch c) as (tc & Htc & Hcons); [by left|]. rewrite Htc. simpl.
  assert (0 ≤ child_mem_reserved physical_mem s c tc ≤ physical_mem)%Z as Hc.
  { unfold child_mem_reserved. case_bool_decide; [lia|]. apply Hcons. lia. }
  simpl length in *.
  rewrite int64_add_Some
    by (unfold Int64.in_range, Int64.half_modulus; nia).
  simpl.
  destruct (IH (λ x Hx, Hch x (list_elem_of_further _ _ _ Hx))
              (acc + child_mem_reserved physical_mem s c tc)%Z) as (r & Hr & Hb);
    [lia|nia|].
  exists r. split; [done|]. nia.
Qed.

(** X1: the reserved memory of a pool never overflows because of query
    limits set to huge values: a child with a limit counts for at most the
    physical memory, so with [n] live children, whose consumption without a
    limit is within physical memory, the result is defined and lies between
    0 and [n * physical_mem]. *)
Theorem GetPoolMemReserved_bounded physical_mem this s t :
  heap s !! this = Some t →
  (0 ≤ physical_mem)%Z →
  (∀ c, c ∈ child_trackers_ t → ∃ tc, heap s !! c = Some tc ∧
     ((limit_ tc ≤ 0)%Z → (0 ≤ consumption s c ≤ physical_mem)%Z)) →
  (Z.of_nat (length (child_trackers_ t)) * physical_mem < Int64.half_modulus)%Z →
  ∃ r, GetPoolMemReserved physical_mem this s = Some r ∧
       (0 ≤ r ≤ Z.of_nat (length (child_trackers_ t)) * physical_mem)%Z.
Proof.
  intros Ht Hphys Hch Hfit. unfold GetPoolMemReserved. rewrite Ht. simpl.
  destruct (GetPoolMemReserved_loop_bounded physical_mem s (child_trackers_ t)
              Hphys Hch 0%Z) as (r & Hr & Hb); [done|lia|].
  exists r. split; [done|lia].
Qed.

(** ** Children *)

(** What the constructor with a parent leaves in the heap: the parent has
    the new tracker appended to its children, the new tracker designates its
    own node, and every other tracker is as it was. *)
Lemma MemTracker_new_child_lookup byte_limit label q luiz s this s' :
  wf_process s →
  MemTracker_new byte_limit label (Some q) luiz s = Some (this, s') →
  this = next_ptr s ∧ q ≠ this ∧
  ∃ pt t,
    heap s !! q = Some pt ∧
    heap s' !! q = Some (with_child_trackers (child_trackers_ pt ++ [this]) pt) ∧
    heap s' !! this = Some t ∧
    child_tracker_it_ t = Some this ∧ child_trackers_ t = [] ∧
    limit_ t = byte_limit ∧ parent_ t = Some q ∧ auto_unregister_ t = false ∧
    query_id_ t = TUniqueId_default ∧ pool_name_ t = "" ∧
    (∀ p, p ≠ this → p ≠ q → heap s' !! p = heap s !! p) ∧
    mem s' = set_counter this hwm_zero (mem s) ∧
    use_count s' = use_count s ∧
    request_to_mem_trackers_ s' = request_to_mem_trackers_ s ∧
    pool_to_mem_trackers_ s' = pool_to_mem_trackers_ s ∧
    log s' = log s ∧ next_ptr s' = S (next_ptr s).
Proof.
  intros Hwf Hnew.
  destruct (MemTracker_new_inv _ _ _ _ _ _ _ Hwf Hnew)
    as (-> & h1 & t1 & all & lim & Hc & Ht1 & Hloop & ->).
  simpl in Hc. destruct Hc as (pt & Hne & Hq & ->).
  rewrite lookup_insert_eq in Ht1. injection Ht1 as <-.
  split; [done|]. split; [done|]. exists pt. eexists.
  split; [done|]. simpl.
  split. { rewrite !lookup_insert_ne by congruence. apply lookup_insert_eq. }
  split. { apply lookup_insert_eq. }
  repeat (split; [done|]).
  split; [|done].
  intros p Hp1 Hp2. by rewrite !lookup_insert_ne by congruence.
Qed.

Lemma GetPoolMemReserved_loop_ext physical_mem s s' children :
  (∀ c, c ∈ children → ∀ t, heap s !! c = Some t →
     ∃ t', heap s' !! c = Some t' ∧ limit_ t' = limit_ t ∧
           consumption s' c = consumption s c) →
  ∀ acc r, GetPoolMemReserved_loop physical_mem s children acc = Some r →
    GetPoolMemReserved_loop physical_mem s' children acc = Some r.
Proof.
  induction children as [|c children IH]; intros Hch acc r H; simpl in *; [done|].
  destruct (heap s !! c) as [t|] eqn:Ht; [|done]. simpl in H.
  destruct (Hch c (list_elem_of_here _ _) t Ht) as (t' & Ht' & Hlim & Hcons).
  rewrite Ht'. simpl.
  assert (child_mem_reserved physical_mem s' c t' = child_mem_reserved physical_mem s c t)
    as -> by (unfold child_mem_reserved; by rewrite Hlim, Hcons).
  destruct (int64_add acc _) as [r1|]; [|done]. simpl in *.
  apply IH; [|done]. intros x Hx. apply Hch. by right.
Qed.

Lemma GetPoolMemReserved_loop_app physical_mem s l1 l2 acc :
  GetPoolMemReserved_loop physical_mem s (l1 ++ l2) acc
  = GetPoolMemReserved_loop physical_mem s l1 acc
      ≫= GetPoolMemReserved_loop physical_mem s l2.
Proof.
  revert acc. induction l1 as [|c l1 IH]; intros acc; simpl; [done|].
  destruct (heap s !! c) as [t|]; [|done]. simpl.
  destruct (int64_add acc _) as [r1|]; [|done]. simpl. apply IH.
Qed.

Lemma GetPoolMemReserved_loop_live physical_mem s children :
  ∀ acc r, GetPoolMemReserved_loop physical_mem s children acc = Some r →
    ∀ c, c ∈ children → is_Some (heap s !! c).
Proof.
  induction children as [|c children IH]; intros acc r H x Hx; simpl in *.
  { by apply elem_of_nil in Hx. }
  destruct (heap s !! c) as [t|] eqn:Ht; [|done]. simpl in H.
  destruct (int64_add acc _) as [r1|]; [|done]. simpl in H.
  apply elem_of_cons in Hx as [->|Hx]; [by eexists|by eapply IH].
Qed.

(** X2: a new query in a pool raises the pool's reserved memory by
    the query's limit, capped at the physical memory, or by nothing for a
    query without limit, whose consumption starts at zero. *)
Theorem GetPoolMemReserved_after_new_query physical_mem pp print_id id byte_limit
    pool s l r :
  wf_process s → ancestor_chain (heap s) pool l →
  request_to_mem_trackers_ s !! id = None →
  GetPoolMemReserved physical_mem pool s = Some r →
  ∃ tracker s',
    GetQueryMemTracker physical_mem pp print_id id byte_limit (Some pool) s
      = Some (Some tracker, s') ∧
    GetPoolMemReserved physical_mem pool s'
      = int64_add r (if bool_decide (byte_limit > 0)%Z
                     then Z.min byte_limit physical_mem else 0%Z).
Proof.
  intros Hwf Hchain Hreg Hres.
  destruct (GetQueryMemTracker_creates physical_mem pp print_id id byte_limit
              (Some pool) s l Hwf Hchain Hreg) as (s' & t' & Hget & _).
  exists (next_ptr s), s'. split; [done|].
  unfold GetQueryMemTracker in Hget. cbv zeta in Hget.
  destruct (log_query_limit_heap physical_mem pp byte_limit s)
    as (Hh & Hn & Hu & Hr & Hp & Hm).
  set (s0 := log_query_limit physical_mem pp byte_limit s) in *.
  assert (wf_process s0) as Hwf0 by (unfold wf_process; by rewrite Hh, Hn).
  rewrite Hr, Hreg in Hget.
  destruct (MemTracker_new _ _ _ _ s0) as [[tr s1]|] eqn:Hnew; [|done]. simpl in Hget.
  destruct (MemTracker_new_child_lookup _ _ _ _ _ _ _ Hwf0 Hnew)
    as (-> & Hne & pt & t & Hq & Hq1 & Ht & _ & _ & Hlim & _ & _ & _ & _ & Hother
        & Hmem & _).
  rewrite Ht in Hget. simpl in Hget. injection Hget as _ <-.
  rewrite Hn in *. rewrite Hh in Hq, Hother. rewrite Hm in Hmem.
  unfold GetPoolMemReserved in *. rewrite Hq in Hres. simpl in Hres. simpl.
  rewrite lookup_insert_ne by congruence. rewrite Hq1. simpl.
  rewrite GetPoolMemReserved_loop_app.
  erewrite (GetPoolMemReserved_loop_ext physical_mem s); [|
    |exact Hres].
  - simpl. rewrite lookup_insert_eq. simpl.
    unfold child_mem_reserved at 1. simpl. rewrite Hlim.
    unfold consumption. simpl. rewrite Hmem. simpl. rewrite fn_lookup_insert. simpl.
    by destruct (int64_add r _).
  - intros c Hc tc Htc.
    assert (c < next_ptr s) as Hlt by (by destruct (Hwf c tc Htc)).
    simpl. rewrite lookup_insert_ne by lia.
    unfold consumption. simpl. rewrite Hmem. simpl.
    rewrite fn_lookup_insert_ne by lia.
    destruct (decide (c = pool)) as [->|Hcp].
    + rewrite Hq1. rewrite Hq in Htc. injection Htc as <-. eauto.
    + rewrite Hother by lia. eauto.
Qed.

(** ** The lists of children *)

Lemma wf_children_insert_same n h p t t' :
  h !! p = Some t → same_links t t' → wf_children n h →
  wf_children n (<[p := t']> h).
Proof.
  intros Hp (Hpar & Hcs & Hcit) Hwf r tr Hr.
  assert (∃ tr0, h !! r = Some tr0 ∧ same_links tr0 tr) as (tr0 & Hr0 & Hpar0 & Hcs0 & Hit0).
  { destruct (decide (r = p)) as [->|Hne].
    - rewrite lookup_insert_eq in Hr. injection Hr as <-. by exists t.
    - rewrite lookup_insert_ne in Hr by done. by exists tr. }
  destruct (Hwf r tr0 Hr0) as (Hnd & Hch & Hit).
  rewrite Hcs0, Hit0, Hpar0. split; [done|]. split.
  - intros c Hc. destruct (Hch c Hc) as [Hlt Hlive]. split; [done|].
    intros tc Htc. destruct (decide (c = p)) as [->|Hne].
    + rewrite lookup_insert_eq in Htc. injection Htc as <-.
      rewrite Hpar, Hcit. by apply Hlive.
    + rewrite lookup_insert_ne in Htc by done. by apply Hlive.
  - intros x Hx. destruct (Hit x Hx) as (-> & q & Hq & Hin). split; [done|].
    exists q. split; [done|]. intros pt Hpt.
    destruct (decide (q = p)) as [->|Hne].
    + rewrite lookup_insert_eq in Hpt. injection Hpt as <-. rewrite Hcs. by apply Hin.
    + rewrite lookup_insert_ne in Hpt by done. by apply Hin.
Qed.

Lemma wf_children_delete n h p : wf_children n h → wf_children n (delete p h).
Proof.
  intros Hwf r tr Hr. apply lookup_delete_Some in Hr as [Hne Hr].
  destruct (Hwf r tr Hr) as (Hnd & Hch & Hit).
  split; [done|]. split.
  - intros c Hc. destruct (Hch c Hc) as [Hlt Hlive]. split; [done|].
    intros tc Htc. apply lookup_delete_Some in Htc as [_ Htc]. by apply Hlive.
  - intros x Hx. destruct (Hit x Hx) as (-> & q & Hq & Hin). split; [done|].
    exists q. split; [done|]. intros pt Hpt.
    apply lookup_delete_Some in Hpt as [_ Hpt]. by apply Hin.
Qed.

(** The heap after a constructor, tracker by tracker. *)
Lemma MemTracker_new_lookup byte_limit label parent luiz s this s' :
  wf_process s →
  MemTracker_new byte_limit label parent luiz s = Some (this, s') →
  this = next_ptr s ∧ next_ptr s' = S (next_ptr s) ∧
  (∃ t, heap s' !! this = Some t ∧ parent_ t = parent ∧ child_trackers_ t = [] ∧
        child_tracker_it_ t = (match parent with Some _ => Some this | None => None end) ∧
        limit_ t = byte_limit ∧ auto_unregister_ t = false ∧
        query_id_ t = TUniqueId_default ∧ pool_name_ t = "" ∧
        gc_functions_ t = [] ∧ consumption_metric_ t = None) ∧
  (∀ p, p ≠ this → parent ≠ Some p → heap s' !! p = heap s !! p) ∧
  (∀ q, parent = Some q → q ≠ this ∧ ∃ pt, heap s !! q = Some pt ∧
     heap s' !! q = Some (with_child_trackers (child_trackers_ pt ++ [this]) pt)) ∧
  mem s' = set_counter this hwm_zero (mem s) ∧
  use_count s' = use_count s ∧
  request_to_mem_trackers_ s' = request_to_mem_trackers_ s ∧
  pool_to_mem_trackers_ s' = pool_to_mem_trackers_ s ∧
  log s' = log s.
Proof.
  intros Hwf Hnew.
  destruct (MemTracker_new_inv _ _ _ _ _ _ _ Hwf Hnew)
    as (-> & h1 & t1 & all & lim & Hc & Ht1 & Hloop & ->).
  split; [done|]. split; [done|].
  destruct parent as [q|]; simpl in Hc.
  - destruct Hc as (pt & Hne & Hq & ->).
    rewrite lookup_insert_eq in Ht1. injection Ht1 as <-. simpl.
    split. { eexists. split; [apply lookup_insert_eq|done]. }
    split. { intros p Hp1 Hp2. rewrite !lookup_insert_ne by congruence. done. }
    split; [|done]. intros ? [= <-]. split; [done|]. exists pt. split; [done|].
    rewrite !lookup_insert_ne by congruence. apply lookup_insert_eq.
  - subst h1. rewrite lookup_insert_eq in Ht1. injection Ht1 as <-. simpl.
    split. { eexists. split; [apply lookup_insert_eq|done]. }
    split. { intros p Hp1 Hp2. rewrite !lookup_insert_ne by congruence. done. }
    split; [|done]. intros ? [=].
Qed.

Lemma MemTracker_new_children byte_limit label parent luiz s this s' :
  wf_process s → wf_children (next_ptr s) (heap s) →
  MemTracker_new byte_limit label parent luiz s = Some (this, s') →
  wf_children (next_ptr s') (heap s').
Proof.
  intros Hwf Hwfc Hnew.
  destruct (MemTracker_new_lookup _ _ _ _ _ _ _ Hwf Hnew)
    as (-> & Hn & (t & Ht & Hpar & Hcs & Hcit & _) & Hother & Hparent & _).
  rewrite Hn.
  (* every tracker of the new heap but the new one comes from the old heap *)
  assert (∀ r tr, r ≠ next_ptr s → heap s' !! r = Some tr →
            ∃ tr0, heap s !! r = Some tr0 ∧ parent_ tr = parent_ tr0 ∧
                   child_tracker_it_ tr = child_tracker_it_ tr0 ∧
                   child_trackers_ tr =
                     (if decide (parent = Some r)
                      then child_trackers_ tr0 ++ [next_ptr s]
                      else child_trackers_ tr0)) as Hold.
  { intros r tr Hne Hr. destruct (decide (parent = Some r)) as [Hpr|Hpr].
    - destruct (Hparent r Hpr) as (_ & pt & Hpt & Hpt'). rewrite Hpt' in Hr.
      injection Hr as <-. by exists pt.
    - rewrite Hother in Hr by done. by exists tr. }
  assert (∀ r tr0, heap s !! r = Some tr0 → r ≠ next_ptr s) as Hlow.
  { intros r tr0 Hr. destruct (Hwf r tr0 Hr). lia. }
  intros r tr Hr. destruct (decide (r = next_ptr s)) as [->|Hne].
  - rewrite Ht in Hr. injection Hr as <-. rewrite Hcs, Hcit.
    split; [constructor|]. split; [by intros c Hc%elem_of_nil|].
    intros x Hx. destruct parent as [q|]; [|done]. injection Hx as <-.
    split; [done|]. exists q. split; [done|]. intros pt' Hpt'.
    destruct (Hparent q eq_refl) as (_ & pt & Hpt & Hpt1).
    rewrite Hpt1 in Hpt'. injection Hpt' as <-. simpl.
    apply elem_of_app. right. apply list_elem_of_singleton. done.
  - destruct (Hold r tr Hne Hr) as (tr0 & Hr0 & Hpar0 & Hit0 & Hcs0).
    destruct (Hwfc r tr0 Hr0) as (Hnd & Hch & Hit).
    rewrite Hpar0, Hit0, Hcs0. split; [|split].
    + destruct (decide (parent = Some r)); [|done].
      apply NoDup_app. split; [done|]. split; [|apply NoDup_singleton].
      intros c Hc Hc'. apply list_elem_of_singleton in Hc' as ->.
      destruct (Hch _ Hc). lia.
    + assert (∀ c, c ∈ child_trackers_ tr0 → c < S (next_ptr s) ∧
                ∀ tc, heap s' !! c = Some tc →
                  parent_ tc = Some r ∧ child_tracker_it_ tc = Some c) as Hch'.
      { intros c Hc. destruct (Hch c Hc) as [Hlt Hlive]. split; [lia|].
        intros tc Htc. destruct (Hold c tc) as (tc0 & Htc0 & -> & -> & _); [lia|done|].
        by apply Hlive. }
      destruct (decide (parent = Some r)) as [Hpr|Hpr]; [|done].
      intros c Hc. apply elem_of_app in Hc as [Hc|Hc]; [by apply Hch'|].
      apply list_elem_of_singleton in Hc as ->. split; [lia|].
      intros tc Htc.
      assert (Some tc = Some t) as [= ->] by (rewrite <- Htc; exact Ht).
      rewrite Hpar, Hcit, Hpr. done.
    + intros x Hx. destruct (Hit x Hx) as (-> & q & Hq & Hin). split; [done|].
      exists q. split; [done|]. intros pt Hpt.
      assert (q ≠ next_ptr s) as Hqn.
      { destruct (Hwf r tr0 Hr0) as [Hlt Hp]. specialize (Hp q Hq). lia. }
      destruct (Hold q pt Hqn Hpt) as (pt0 & Hpt0 & _ & _ & ->).
      specialize (Hin pt0 Hpt0).
      destruct (decide (parent = Some q)); [|done].
      apply elem_of_app. by left.
Qed.

(** [UnregisterFromParent] returns only for a live tracker with a live
    parent and an iterator that designates a node of the parent's list, and
    then removes that node and resets the iterator. *)
Lemma UnregisterFromParent_inv this s s' :
  wf_process s →
  UnregisterFromParent this s = Some s' →
  ∃ t p pt x,
    heap s !! this = Some t ∧ parent_ t = Some p ∧ heap s !! p = Some pt ∧
    p ≠ this ∧ child_tracker_it_ t = Some x ∧ x ∈ child_trackers_ pt ∧
    s' = with_heap
           (<[this := with_child_tracker_it None t]>
              (<[p := with_child_trackers
                        (filter (λ y, y ≠ x) (child_trackers_ pt)) pt]> (heap s))) s.
Proof.
  unfold UnregisterFromParent, list_erase. intros Hwf H.
  destruct (heap s !! this) as [t|] eqn:Ht; [|done]. simpl in H.
  destruct (parent_ t) as [p|] eqn:Hpar; [|done]. simpl in H.
  destruct (heap s !! p) as [pt|] eqn:Hp; [|done]. simpl in H.
  destruct (child_tracker_it_ t) as [x|] eqn:Hit; [|done].
  case_bool_decide as Hx; [|done]. simpl in H.
  assert (p ≠ this) as Hne.
  { destruct (Hwf this t Ht) as [_ Hlt]. specialize (Hlt p Hpar). lia. }
  rewrite lookup_insert_ne in H by done. rewrite Ht in H. simpl in H.
  injection H as <-. by exists t, p, pt, x.
Qed.

Lemma UnregisterFromParent_children this s s' :
  wf_process s → wf_children (next_ptr s) (heap s) →
  UnregisterFromParent this s = Some s' →
  wf_children (next_ptr s') (heap s').
Proof.
  intros Hwf Hwfc H.
  destruct (UnregisterFromParent_inv _ _ _ Hwf H)
    as (t & p & pt & x & Ht & Hpar & Hp & Hne & Hit & Hx & ->). simpl.
  destruct (Hwfc this t Ht) as (_ & _ & Hself).
  destruct (Hself x Hit) as (-> & _). clear Hself.
  set (h' := <[this := _]> _).
  assert (∀ r tr, h' !! r = Some tr →
            ∃ tr0, heap s !! r = Some tr0 ∧ parent_ tr = parent_ tr0 ∧
              child_tracker_it_ tr =
                (if decide (r = this) then None else child_tracker_it_ tr0) ∧
              child_trackers_ tr =
                (if decide (r = p) then filter (λ y, y ≠ this) (child_trackers_ tr0)
                 else child_trackers_ tr0)) as Hold.
  { intros r tr Hr. unfold h' in Hr.
    destruct (decide (r = this)) as [->|Hrt].
    - rewrite lookup_insert_eq in Hr. injection Hr as <-. exists t.
      rewrite decide_False by congruence. done.
    - rewrite lookup_insert_ne in Hr by done.
      destruct (decide (r = p)) as [->|Hrp].
      + rewrite lookup_insert_eq in Hr. injection Hr as <-. by exists pt.
      + rewrite lookup_insert_ne in Hr by done. by exists tr. }
  intros r tr Hr.
  destruct (Hold r tr Hr) as (tr0 & Hr0 & Hpar0 & Hit0 & Hcs0).
  destruct (Hwfc r tr0 Hr0) as (Hnd & Hch & Hit').
  rewrite Hpar0, Hit0, Hcs0. split; [|split].
  - destruct (decide (r = p)); [by apply NoDup_filter|done].
  - assert (∀ c, c ∈ child_trackers_ tr0 → c ≠ this → c < next_ptr s ∧
              ∀ tc, h' !! c = Some tc →
                parent_ tc = Some r ∧ child_tracker_it_ tc = Some c) as Hch'.
    { intros c Hc Hct. destruct (Hch c Hc) as [Hlt Hlive]. split; [done|].
      intros tc Htc. destruct (Hold c tc Htc) as (tc0 & Htc0 & -> & -> & _).
      rewrite decide_False by done. by apply Hlive. }
    destruct (decide (r = p)) as [->|Hrp].
    + intros c Hc. apply list_elem_of_filter in Hc as [Hc1 Hc2]. by apply Hch'.
    + intros c Hc. apply Hch'; [done|]. intros ->.
      destruct (Hch this Hc) as [_ Hlive].
      destruct (Hlive t Ht) as [Hpr _]. congruence.
  - intros y Hy. destruct (decide (r = this)) as [->|Hrt]; [done|].
    destruct (Hit' y Hy) as (-> & q & Hq & Hin). split; [done|].
    exists q. split; [done|]. intros qt Hqt.
    destruct (Hold q qt Hqt) as (qt0 & Hqt0 & _ & _ & ->).
    specialize (Hin qt0 Hqt0).
    destruct (decide (q = p)); [|done].
    apply list_elem_of_filter. done.
Qed.

Lemma MemTracker_delete_children this s s' :
  wf_process s → wf_children (next_ptr s) (heap s) →
  MemTracker_delete this s = Some s' →
  wf_children (next_ptr s') (heap s').
Proof.
  unfold MemTracker_delete. intros Hwf Hwfc H.
  destruct (heap s !! this) as [t|] eqn:Ht; [|done]. simpl in H.
  destruct (if auto_unregister_ t then _ else _) as [s1|] eqn:Hs1; [|done].
  simpl in H. injection H as <-. simpl.
  apply wf_children_delete.
  destruct (auto_unregister_ t).
  - by eapply UnregisterFromParent_children.
  - by injection Hs1 as <-.
Qed.

Lemma wf_children_insert_fresh n h t :
  wf_heap n h → wf_children n h →
  child_trackers_ t = [] → child_tracker_it_ t = None →
  wf_children (S n) (<[n := t]> h).
Proof.
  intros Hwf Hwfc Hcs Hit r tr Hr.
  destruct (decide (r = n)) as [->|Hne].
  - rewrite lookup_insert_eq in Hr. injection Hr as <-. rewrite Hcs, Hit.
    split; [constructor|]. split; [by intros c Hc%elem_of_nil|done].
  - rewrite lookup_insert_ne in Hr by done.
    destruct (Hwfc r tr Hr) as (Hnd & Hch & Hit').
    split; [done|]. split.
    + intros c Hc. destruct (Hch c Hc) as [Hlt Hlive]. split; [lia|].
      intros tc Htc. rewrite lookup_insert_ne in Htc by lia. by apply Hlive.
    + intros x Hx. destruct (Hit' x Hx) as (-> & q & Hq & Hin). split; [done|].
      exists q. split; [done|]. intros pt Hpt.
      destruct (Hwf r tr Hr) as [_ Hlt]. specialize (Hlt q Hq).
      destruct (Hwf r tr Hr) as [Hrn _].
      rewrite lookup_insert_ne in Hpt by lia. by apply Hin.
Qed.

Lemma MemTracker_new_metric_children consumption_metric byte_limit label s this s' :
  wf_process s → wf_children (next_ptr s) (heap s) →
  MemTracker_new_metric consumption_metric byte_limit label s = Some (this, s') →
  wf_children (next_ptr s') (heap s').
Proof.
  unfold MemTracker_new_metric, allocate, Init. simpl. intros Hwf Hwfc Hnew.
  rewrite lookup_insert_eq in Hnew. simpl in Hnew.
  match type of Hnew with context [Init_loop ?f ?h ?p ?a ?l] =>
    destruct (Init_loop f h p a l) as [[all lim]|] eqn:Hloop end; [|done].
  simpl in Hnew. injection Hnew as <- <-.
  rewrite insert_insert_eq. simpl. by apply wf_children_insert_fresh.
Qed.

Lemma shared_ptr_release_children p s s' :
  wf_process s → wf_children (next_ptr s) (heap s) →
  shared_ptr_release p s = Some s' →
  wf_children (next_ptr s') (heap s').
Proof.
  unfold shared_ptr_release. intros Hwf Hwfc H.
  destruct (use_count s !! p) as [[|[|n]]|]; simpl in H; try done.
  - destruct (MemTracker_delete p s) as [s1|] eqn:Hd; [|done]. simpl in H.
    injection H as <-. simpl. by eapply MemTracker_delete_children.
  - by injection H as <-.
Qed.

Lemma GetRequestPoolMemTracker_children pool_name parent s r s' :
  wf_process s → wf_children (next_ptr s) (heap s) →
  GetRequestPoolMemTracker pool_name parent s = Some (r, s') →
  wf_children (next_ptr s') (heap s').
Proof.
  unfold GetRequestPoolMemTracker. intros Hwf Hwfc H.
  destruct (pool_to_mem_trackers_ s !! pool_name) as [tr|].
  { by injection H as <- <-. }
  destruct parent as [q|]; [|by injection H as <- <-].
  destruct (MemTracker_new _ _ _ _ s) as [[tr s1]|] eqn:Hnew; [|done]. simpl in H.
  destruct (heap s1 !! tr) as [t|] eqn:Ht; [|done]. simpl in H. injection H as <- <-.
  simpl. apply (wf_children_insert_same _ _ _ t); [done|done|].
  by eapply MemTracker_new_children.
Qed.

Lemma GetQueryMemTracker_children physical_mem pp print_id id byte_limit parent s r s' :
  wf_process s → wf_children (next_ptr s) (heap s) →
  GetQueryMemTracker physical_mem pp print_id id byte_limit parent s = Some (r, s') →
  wf_children (next_ptr s') (heap s').
Proof.
  unfold GetQueryMemTracker. intros Hwf Hwfc H.
  destruct (log_query_limit_heap physical_mem pp byte_limit s) as (Hh & Hn & _).
  set (s0 := log_query_limit physical_mem pp byte_limit s) in *.
  assert (wf_process s0) as Hwf0 by (unfold wf_process; by rewrite Hh, Hn).
  rewrite <- Hh, <- Hn in Hwfc. clearbody s0.
  destruct (request_to_mem_trackers_ s0 !! id) as [w|].
  { injection H as H. unfold weak_ptr_lock in H.
    by destruct (use_count s0 !! w); injection H as <- <-. }
  destruct (MemTracker_new _ _ _ _ s0) as [[tr s1]|] eqn:Hnew; [|done]. simpl in H.
  destruct (heap s1 !! tr) as [t|] eqn:Ht; [|done]. simpl in H. injection H as <- <-.
  simpl. apply (wf_children_insert_same _ _ _ t); [done|done|].
  by eapply MemTracker_new_children.
Qed.

Lemma exec_children physical_mem pp print_id gc_call op s s' :
  wf_process s → wf_children (next_ptr s) (heap s) →
  exec physical_mem pp print_id gc_call op s = Some s' →
  wf_children (next_ptr s') (heap s').
Proof.
  destruct op; simpl; intros Hwf Hwfc H.
  - destruct (MemTracker_new _ _ _ _ s) as [[? ?]|] eqn:E; [|done].
    injection H as <-. by eapply MemTracker_new_children.
  - destruct (MemTracker_new_metric _ _ _ s) as [[? ?]|] eqn:E; [|done].
    injection H as <-. by eapply MemTracker_new_metric_children.
  - unfold AddGcFunction in H.
    destruct (heap s !! this) as [t|] eqn:Ht; [|done]. simpl in H. injection H as <-.
    simpl. by apply (wf_children_insert_same _ _ _ t).
  - by eapply UnregisterFromParent_children.
  - by eapply MemTracker_delete_children.
  - by eapply shared_ptr_release_children.
  - destruct (GetRequestPoolMemTracker _ _ s) as [[? ?]|] eqn:E; [|done].
    injection H as <-. by eapply GetRequestPoolMemTracker_children.
  - destruct (GetQueryMemTracker _ _ _ _ _ _ s) as [[? ?]|] eqn:E; [|done].
    injection H as <-. by eapply GetQueryMemTracker_children.
  - unfold RegisterMetrics in H.
    destruct (heap s !! this) as [t|] eqn:Ht; [|done]. simpl in H. injection H as <-.
    simpl. by apply (wf_children_insert_same _ _ _ t).
  - unfold RefreshConsumptionFromMetric in H.
    destruct (heap s !! this) as [t|]; [|done]. simpl in H.
    destruct (consumption_metric_ t); [|done]. simpl in H. by injection H as <-.
  - destruct (GcMemory _ _ _ s) as [[? ?]|] eqn:E; [|done]. injection H as <-.
    unfold GcMemory in E.
    case_bool_decide; [by injection E as <- <-|].
    destruct (heap s !! this) as [t|]; [|done]. simpl in E.
    by case_bool_decide; injection E as <- <-.
  - by injection H as <-.
Qed.

Lemma wf_children_empty_process :
  wf_children (next_ptr empty_process) (heap empty_process).
Proof. intros p t H. done. Qed.

Lemma filter_ne_fresh (x : ptr) (l : list ptr) :
  x ∉ l → filter (λ y, y ≠ x) l = l.
Proof.
  induction l as [|a l IH]; intros Hx; [done|].
  apply not_elem_of_cons in Hx as [Hne Hx].
  rewrite filter_cons_True by congruence. by rewrite IH.
Qed.

Lemma filter_ne_split (x : ptr) (l : list ptr) :
  NoDup l → x ∈ l →
  ∃ l1 l2, l = l1 ++ x :: l2 ∧ filter (λ y, y ≠ x) l = l1 ++ l2 ∧ x ∉ (l1 ++ l2).
Proof.
  intros Hnd Hx. apply list_elem_of_split in Hx as (l1 & l2 & ->).
  apply NoDup_app in Hnd as (Hnd1 & Hdisj & Hnd2).
  apply NoDup_cons in Hnd2 as [Hx2 _].
  assert (x ∉ l1) as Hx1.
  { intros Hin. apply (Hdisj x Hin). by left. }
  exists l1, l2. split; [done|]. split.
  - rewrite filter_app, filter_cons_False by (intros H; apply H; reflexivity).
    by rewrite !filter_ne_fresh.
  - intros Hin. apply elem_of_app in Hin as [?|?]; done.
Qed.

Lemma with_child_trackers_twice cs cs' t :
  with_child_trackers cs (with_child_trackers cs' t) = with_child_trackers cs t.
Proof. done. Qed.

Lemma with_child_trackers_same t : with_child_trackers (child_trackers_ t) t = t.
Proof. by destruct t. Qed.

(** X4: a tracker that is registered with a live parent can be unregistered:
    the call removes exactly the tracker's own node from the parent's list,
    keeps the order of the other children, and leaves the iterator at
    [end()]; every other tracker is as it was. *)
Theorem UnregisterFromParent_removes_own_node this s t p pt x :
  wf_process s → wf_children (next_ptr s) (heap s) →
  heap s !! this = Some t → parent_ t = Some p → heap s !! p = Some pt →
  child_tracker_it_ t = Some x →
  ∃ s' l1 l2,
    UnregisterFromParent this s = Some s' ∧
    child_trackers_ pt = l1 ++ this :: l2 ∧ (this ∉ l1 ++ l2) ∧
    heap s' !! p = Some (with_child_trackers (l1 ++ l2) pt) ∧
    heap s' !! this = Some (with_child_tracker_it None t) ∧
    (∀ r, r ≠ this → r ≠ p → heap s' !! r = heap s !! r) ∧
    s' = with_heap (heap s') s.
Proof.
  intros Hwf Hwfc Ht Hpar Hp Hit.
  destruct (Hwfc this t Ht) as (_ & _ & Hself).
  destruct (Hself x Hit) as (-> & q & Hq & Hin).
  rewrite Hpar in Hq. injection Hq as <-. specialize (Hin pt Hp).
  destruct (Hwfc p pt Hp) as (Hnd & _ & _).
  destruct (filter_ne_split this (child_trackers_ pt) Hnd Hin) as (l1 & l2 & Hl & Hf & Hnin).
  assert (p ≠ this) as Hne.
  { destruct (Hwf this t Ht) as [_ Hlt]. specialize (Hlt p Hpar). lia. }
  eexists _, l1, l2. split.
  { unfold UnregisterFromParent, list_erase. rewrite Ht. simpl. rewrite Hpar. simpl.
    rewrite Hp. simpl. rewrite Hit. rewrite bool_decide_eq_true_2 by done. simpl.
    rewrite lookup_insert_ne by done. rewrite Ht. simpl. rewrite Hf. reflexivity. }
  split; [done|]. split; [done|]. simpl.
  split. { rewrite lookup_insert_ne by congruence. apply lookup_insert_eq. }
  split. { apply lookup_insert_eq. }
  split; [|done]. intros r Hr1 Hr2. by rewrite !lookup_insert_ne by congruence.
Qed.

(** X5: constructing a child and unregistering it gives the parent back
    exactly as it was, with its children in their order, and leaves every
    other tracker untouched. *)
Theorem new_child_then_unregister byte_limit label q luiz s l pt :
  wf_process s → wf_children (next_ptr s) (heap s) →
  ancestor_chain (heap s) q l → heap s !! q = Some pt →
  ∃ this s1 s2,
    MemTracker_new byte_limit label (Some q) luiz s = Some (this, s1) ∧
    child_trackers_ <$> heap s1 !! q = Some (child_trackers_ pt ++ [this]) ∧
    UnregisterFromParent this s1 = Some s2 ∧
    heap s2 !! q = Some pt ∧
    (∀ p, p ≠ this → heap s2 !! p = heap s !! p).
Proof.
  intros Hwf Hwfc Hchain Hq.
  destruct (MemTracker_new_total byte_limit label (Some q) luiz s l Hwf Hchain)
    as [[this s1] Hnew].
  destruct (MemTracker_new_lookup _ _ _ _ _ _ _ Hwf Hnew)
    as (-> & Hn & (t & Ht & Hpar & Hcs & Hcit & _) & Hother & Hparent & _).
  destruct (Hparent q eq_refl) as (Hne & pt0 & Hpt0 & Hq1).
  rewrite Hq in Hpt0. injection Hpt0 as <-.
  assert (next_ptr s ∉ child_trackers_ pt) as Hfresh.
  { intros Hin. destruct (Hwfc q pt Hq) as (_ & Hch & _).
    destruct (Hch _ Hin). lia. }
  assert (filter (λ y, y ≠ next_ptr s) (child_trackers_ pt ++ [next_ptr s])
          = child_trackers_ pt) as Hf.
  { rewrite filter_app, filter_ne_fresh by done.
    rewrite filter_cons_False by (intros H; apply H; reflexivity).
    by rewrite filter_nil, app_nil_r. }
  exists (next_ptr s), s1. eexists. split; [done|].
  split; [by rewrite Hq1|]. split.
  { unfold UnregisterFromParent, list_erase. rewrite Ht. simpl. rewrite Hpar. simpl.
    rewrite Hq1. simpl. rewrite Hcit.
    rewrite bool_decide_eq_true_2
      by (apply elem_of_app; right; by apply list_elem_of_singleton).
    simpl. rewrite lookup_insert_ne by done. rewrite Ht. simpl. reflexivity. }
  cbn [heap with_heap child_trackers_ with_child_trackers].
  rewrite Hf, with_child_trackers_twice, with_child_trackers_same. split.
  - rewrite lookup_insert_ne by congruence. apply lookup_insert_eq.
  - intros p Hp. rewrite lookup_insert_ne by congruence.
    destruct (decide (p = q)) as [->|Hpq].
    + by rewrite lookup_insert_eq.
    + rewrite lookup_insert_ne by congruence. apply Hother; congruence.
Qed.

(** ** The destructor *)

(** The destructor of a tracker that unregisters itself. *)
Lemma MemTracker_delete_registered this s t p pt :
  wf_process s →
  heap s !! this = Some t → auto_unregister_ t = true →
  parent_ t = Some p → heap s !! p = Some pt →
  child_tracker_it_ t = Some this → this ∈ child_trackers_ pt →
  MemTracker_delete this s
  = Some (with_heap
            (delete this
               (<[p := with_child_trackers
                         (filter (λ y, y ≠ this) (child_trackers_ pt)) pt]> (heap s)))
            (with_registries (delete (query_id_ t) (request_to_mem_trackers_ s))
               (delete (pool_name_ t) (pool_to_mem_trackers_ s)) s)).
Proof.
  intros Hwf Ht Hau Hpar Hp Hit Hin.
  assert (p ≠ this) as Hne.
  { destruct (Hwf this t Ht) as [_ Hlt]. specialize (Hlt p Hpar). lia. }
  unfold MemTracker_delete. rewrite Ht. simpl. rewrite Hau.
  unfold UnregisterFromParent, list_erase. rewrite Ht. simpl. rewrite Hpar. simpl.
  rewrite Hp. simpl. rewrite Hit. rewrite bool_decide_eq_true_2 by done. simpl.
  rewrite lookup_insert_ne by done. rewrite Ht. simpl.
  unfold with_heap, with_registries. simpl. by rewrite delete_insert_eq.
Qed.

(** The destructor of a tracker that does not unregister itself. *)
Lemma MemTracker_delete_plain this s t :
  heap s !! this = Some t → auto_unregister_ t = false →
  MemTracker_delete this s
  = Some (with_heap (delete this (heap s))
            (with_registries (delete (query_id_ t) (request_to_mem_trackers_ s))
               (delete (pool_name_ t) (pool_to_mem_trackers_ s)) s)).
Proof.
  intros Ht Hau. unfold MemTracker_delete. rewrite Ht. simpl. by rewrite Hau.
Qed.

Lemma GetPoolMemReserved_loop_dead physical_mem s children c acc :
  c ∈ children → heap s !! c = None →
  GetPoolMemReserved_loop physical_mem s children acc = None.
Proof.
  intros Hc Hdead.
  destruct (GetPoolMemReserved_loop physical_mem s children acc) as [r|] eqn:H; [|done].
  destruct (GetPoolMemReserved_loop_live _ _ _ _ _ H c Hc) as [t Ht]. congruence.
Qed.

(** X6: destroying a tracker leaves no dead address in any list of children,
    provided the tracker unregisters itself in its destructor or was
    unregistered before. *)
Theorem MemTracker_delete_no_dangling this s s' t :
  wf_process s → wf_children (next_ptr s) (heap s) →
  no_dangling_child (heap s) →
  heap s !! this = Some t →
  auto_unregister_ t = true ∨ child_tracker_it_ t = None →
  MemTracker_delete this s = Some s' →
  heap s' !! this = None ∧ no_dangling_child (heap s').
Proof.
  intros Hwf Hwfc Hnd Ht Hcase Hdel.
  destruct (auto_unregister_ t) eqn:Hau.
  - unfold MemTracker_delete in Hdel. rewrite Ht in Hdel. simpl in Hdel.
    rewrite Hau in Hdel.
    destruct (UnregisterFromParent this s) as [s1|] eqn:Hun; [|done].
    simpl in Hdel. injection Hdel as <-.
    destruct (UnregisterFromParent_inv _ _ _ Hwf Hun)
      as (t0 & p & pt & x & Ht0 & Hpar & Hp & Hne & Hit & Hx & ->). simpl.
    rewrite Ht in Ht0. injection Ht0 as <-.
    destruct (Hwfc this t Ht) as (_ & _ & Hself).
    destruct (Hself x Hit) as (-> & _). clear Hself.
    split; [apply lookup_delete_eq|].
    intros r tr c Hr Hc.
    apply lookup_delete_Some in Hr as [Hrt Hr].
    rewrite lookup_insert_ne in Hr by done.
    assert (∃ tr0, heap s !! r = Some tr0 ∧ c ∈ child_trackers_ tr0 ∧ c ≠ this)
      as (tr0 & Hr0 & Hc0 & Hct).
    { destruct (decide (r = p)) as [->|Hrp].
      - rewrite lookup_insert_eq in Hr. injection Hr as <-. simpl in Hc.
        apply list_elem_of_filter in Hc as [Hc1 Hc2]. by exists pt.
      - rewrite lookup_insert_ne in Hr by done. exists tr.
        split; [done|]. split; [done|]. intros ->.
        destruct (Hwfc r tr Hr) as (_ & Hch & _).
        destruct (Hch this Hc) as [_ Hlive].
        destruct (Hlive t Ht) as [Hpr _]. congruence. }
    destruct (Hnd r tr0 c Hr0 Hc0) as [tc Htc].
    rewrite lookup_delete_ne by done. rewrite lookup_insert_ne by done.
    destruct (decide (c = p)) as [->|Hcp].
    + rewrite lookup_insert_eq. by eexists.
    + rewrite lookup_insert_ne by done. by eexists.
  - destruct Hcase as [?|Hit]; [done|].
    rewrite (MemTracker_delete_plain _ _ _ Ht Hau) in Hdel. injection Hdel as <-.
    simpl. split; [apply lookup_delete_eq|].
    intros r tr c Hr Hc.
    apply lookup_delete_Some in Hr as [Hrt Hr].
    destruct (Hnd r tr c Hr Hc) as [tc Htc].
    rewrite lookup_delete_ne; [by eexists|]. intros <-.
    destruct (Hwfc r tr Hr) as (_ & Hch & _).
    destruct (Hch this Hc) as [_ Hlive].
    destruct (Hlive tc Htc) as [_ Hit']. congruence.
Qed.

(** X7: a tracker made by a constructor does not unregister itself: when it
    is destroyed while still registered, its parent keeps the address of the
    destroyed object among its children, and walking the parent's children,
    as [GetPoolMemReserved] does, has no defined result. *)
Theorem MemTracker_delete_registered_dangles physical_mem this s t p pt x :
  wf_process s → wf_children (next_ptr s) (heap s) →
  heap s !! this = Some t → auto_unregister_ t = false →
  parent_ t = Some p → heap s !! p = Some pt →
  child_tracker_it_ t = Some x →
  ∃ s', MemTracker_delete this s = Some s' ∧
        heap s' !! this = None ∧
        heap s' !! p = Some pt ∧ this ∈ child_trackers_ pt ∧
        GetPoolMemReserved physical_mem p s' = None.
Proof.
  intros Hwf Hwfc Ht Hau Hpar Hp Hit.
  destruct (Hwfc this t Ht) as (_ & _ & Hself).
  destruct (Hself x Hit) as (-> & q & Hq & Hin).
  rewrite Hpar in Hq. injection Hq as <-. specialize (Hin pt Hp).
  assert (p ≠ this) as Hne.
  { destruct (Hwf this t Ht) as [_ Hlt]. specialize (Hlt p Hpar). lia. }
  eexists. split; [by apply MemTracker_delete_plain|]. simpl.
  split; [apply lookup_delete_eq|].
  split; [by rewrite lookup_delete_ne|]. split; [done|].
  unfold GetPoolMemReserved. simpl. rewrite lookup_delete_ne by done.
  rewrite Hp. simpl.
  apply (GetPoolMemReserved_loop_dead _ _ _ this); [done|]. simpl.
  apply lookup_delete_eq.
Qed.

(** ** Life of a query tracker *)

(** The process after [GetQueryMemTracker] has made a tracker, piece by
    piece. *)
Lemma GetQueryMemTracker_creates_lookup physical_mem pp print_id id byte_limit q s l :
  wf_process s → ancestor_chain (heap s) q l →
  request_to_mem_trackers_ s !! id = None →
  ∃ s1 t1 pt,
    GetQueryMemTracker physical_mem pp print_id id byte_limit (Some q) s
      = Some (Some (next_ptr s), s1) ∧
    q ≠ next_ptr s ∧
    heap s !! q = Some pt ∧
    heap s1 !! q = Some (with_child_trackers (child_trackers_ pt ++ [next_ptr s]) pt) ∧
    heap s1 !! next_ptr s = Some t1 ∧
    parent_ t1 = Some q ∧ child_trackers_ t1 = [] ∧
    child_tracker_it_ t1 = Some (next_ptr s) ∧ limit_ t1 = byte_limit ∧
    auto_unregister_ t1 = true ∧ query_id_ t1 = id ∧ pool_name_ t1 = "" ∧
    gc_functions_ t1 = [] ∧ consumption_metric_ t1 = None ∧
    (∀ p, p ≠ next_ptr s → p ≠ q → heap s1 !! p = heap s !! p) ∧
    mem s1 = set_counter (next_ptr s) hwm_zero (mem s) ∧
    use_count s1 = <[next_ptr s := 1]> (use_count s) ∧
    request_to_mem_trackers_ s1 = <[id := next_ptr s]> (request_to_mem_trackers_ s) ∧
    pool_to_mem_trackers_ s1 = pool_to_mem_trackers_ s ∧
    next_ptr s1 = S (next_ptr s).
Proof.
  intros Hwf Hchain Hreg.
  destruct (GetQueryMemTracker_creates physical_mem pp print_id id byte_limit
              (Some q) s l Hwf Hchain Hreg) as (s1 & t' & Hget & _).
  exists s1. pose proof Hget as Hget'.
  unfold GetQueryMemTracker in Hget. cbv zeta in Hget.
  destruct (log_query_limit_heap physical_mem pp byte_limit s)
    as (Hh & Hn & Hu & Hr & Hp & Hm).
  set (s0 := log_query_limit physical_mem pp byte_limit s) in *.
  assert (wf_process s0) as Hwf0 by (unfold wf_process; by rewrite Hh, Hn).
  rewrite Hr, Hreg in Hget.
  destruct (MemTracker_new _ _ _ _ s0) as [[tr sN]|] eqn:Hnew; [|done]. simpl in Hget.
  destruct (MemTracker_new_lookup _ _ _ _ _ _ _ Hwf0 Hnew)
    as (-> & HnN & (t & Ht & Hpar & Hcs & Hcit & Hlim & _ & _ & Hpool & Hgc & Hcm)
        & Hother & Hparent & HmemN & HuN & HrN & HpN & _).
  destruct (Hparent q eq_refl) as (Hne & pt & Hpt & Hq1).
  rewrite Ht in Hget. simpl in Hget. injection Hget as _ <-.
  rewrite Hn in *. rewrite Hh in Hpt, Hother. rewrite Hm in HmemN.
  exists (with_registration true id (pool_name_ t) t), pt.
  split; [done|]. split; [done|]. split; [done|]. simpl.
  split. { by rewrite lookup_insert_ne by congruence. }
  split. { apply lookup_insert_eq. }
  do 9 (split; [done|]).
  split. { intros p Hp1 Hp2. rewrite lookup_insert_ne by congruence.
           apply Hother; congruence. }
  split; [done|]. split; [by rewrite HuN, Hu|].
  split; [by rewrite HrN, Hr|]. split; [by rewrite HpN, Hp|]. done.
Qed.

(** X8: a query tracker made by [GetQueryMemTracker] and given up by its
    only owner is gone without a trace: the trackers, the children of its
    parent and the two registries are as they were before the query
    started. *)
Theorem query_tracker_create_release physical_mem pp print_id id byte_limit q s l :
  wf_process s → wf_children (next_ptr s) (heap s) →
  ancestor_chain (heap s) q l →
  request_to_mem_trackers_ s !! id = None →
  pool_to_mem_trackers_ s !! "" = None →
  ∃ tracker s1 s2,
    GetQueryMemTracker physical_mem pp print_id id byte_limit (Some q) s
      = Some (Some tracker, s1) ∧
    shared_ptr_release tracker s1 = Some s2 ∧
    heap s2 = heap s ∧
    request_to_mem_trackers_ s2 = request_to_mem_trackers_ s ∧
    pool_to_mem_trackers_ s2 = pool_to_mem_trackers_ s ∧
    use_count s2 = delete tracker (use_count s).
Proof.
  intros Hwf Hwfc Hchain Hreg Hpool.
  destruct (GetQueryMemTracker_creates_lookup physical_mem pp print_id id byte_limit
              q s l Hwf Hchain Hreg)
    as (s1 & t1 & pt & Hget & Hne & Hpt & Hq1 & Ht1 & Hpar & _ & Hit & _ & Hau & Hid
        & Hpn & _ & _ & Hother & _ & Hu & Hr & Hp & Hn).
  assert (wf_process s1) as Hwf1.
  { by destruct (GetQueryMemTracker_step _ _ _ _ _ _ _ _ _ Hget Hwf). }
  exists (next_ptr s), s1. eexists. split; [done|]. split.
  { unfold shared_ptr_release. rewrite Hu, lookup_insert_eq. simpl.
    rewrite (MemTracker_delete_registered _ _ t1 q _ Hwf1 Ht1 Hau Hpar Hq1 Hit)
      by (simpl; apply elem_of_app; right; by apply list_elem_of_singleton).
    simpl. reflexivity. }
  simpl. rewrite Hid, Hpn, Hr, Hp, Hu.
  split; [|split; [|split]].
  - apply map_eq. intros p.
    destruct (decide (p = next_ptr s)) as [->|Hp1].
    { rewrite lookup_delete_eq. symmetry. by apply wf_heap_fresh. }
    rewrite lookup_delete_ne by done.
    destruct (decide (p = q)) as [->|Hp2].
    + rewrite lookup_insert_eq, Hpt. f_equal.
      rewrite with_child_trackers_twice.
      assert (next_ptr s ∉ child_trackers_ pt) as Hfresh.
      { intros Hin. destruct (Hwfc q pt Hpt) as (_ & Hch & _).
        destruct (Hch _ Hin). lia. }
      cbn [child_trackers_ with_child_trackers].
      rewrite filter_app, filter_ne_fresh by done.
      rewrite filter_cons_False by (intros H; apply H; reflexivity).
      by rewrite filter_nil, app_nil_r, with_child_trackers_same.
    + rewrite lookup_insert_ne by done. by apply Hother.
  - by apply delete_insert_id.
  - by apply delete_id.
  - apply delete_insert_eq.
Qed.

(** ** The registries *)

Lemma keeps_names_refl h : keeps_names h h.
Proof. intros p t H. by exists t. Qed.

Lemma keeps_names_trans h1 h2 h3 :
  keeps_names h1 h2 → keeps_names h2 h3 → keeps_names h1 h3.
Proof.
  intros H12 H23 p t Hp.
  destruct (H12 p t Hp) as (t2 & Hp2 & Hq2 & Hn2).
  destruct (H23 p t2 Hp2) as (t3 & Hp3 & Hq3 & Hn3).
  exists t3. split; [done|]. split; congruence.
Qed.

Lemma keeps_names_insert_same h p t t' :
  h !! p = Some t → query_id_ t' = query_id_ t → pool_name_ t' = pool_name_ t →
  keeps_names h (<[p := t']> h).
Proof.
  intros Hp Hq Hn r tr Hr. destruct (decide (r = p)) as [->|Hne].
  - rewrite lookup_insert_eq. rewrite Hp in Hr. injection Hr as <-. by exists t'.
  - rewrite lookup_insert_ne by done. by exists tr.
Qed.

Lemma keeps_names_insert_fresh h p t' :
  h !! p = None → keeps_names h (<[p := t']> h).
Proof.
  intros Hp r tr Hr. rewrite lookup_insert_ne by congruence. by exists tr.
Qed.

Lemma wf_registries_frame s s' :
  request_to_mem_trackers_ s' = request_to_mem_trackers_ s →
  pool_to_mem_trackers_ s' = pool_to_mem_trackers_ s →
  use_count s' = use_count s →
  keeps_names (heap s) (heap s') →
  wf_registries s → wf_registries s'.
Proof.
  intros Hr Hp Hu Hk [Hreq Hpool]. split.
  - intros id w Hw. rewrite Hr in Hw.
    destruct (Hreq id w Hw) as (t & n & Ht & Hid & Hn).
    destruct (Hk w t Ht) as (t' & Ht' & Hid' & _).
    exists t', n. rewrite Hu. split; [done|]. split; congruence.
  - intros name w Hw. rewrite Hp in Hw.
    destruct (Hpool name w Hw) as (t & Ht & Hname).
    destruct (Hk w t Ht) as (t' & Ht' & _ & Hname').
    exists t'. split; congruence.
Qed.

Lemma MemTracker_new_keeps_names byte_limit label parent luiz s this s' :
  wf_process s →
  MemTracker_new byte_limit label parent luiz s = Some (this, s') →
  keeps_names (heap s) (heap s').
Proof.
  intros Hwf Hnew.
  destruct (MemTracker_new_lookup _ _ _ _ _ _ _ Hwf Hnew)
    as (-> & _ & _ & Hother & Hparent & _).
  intros p t Hp.
  assert (p ≠ next_ptr s) as Hne by (destruct (Hwf p t Hp); lia).
  destruct (decide (parent = Some p)) as [Hpp|Hpp].
  - destruct (Hparent p Hpp) as (_ & pt & Hpt & Hpt'). rewrite Hp in Hpt.
    injection Hpt as <-. eexists. split; [done|]. done.
  - exists t. by rewrite Hother.
Qed.

Lemma UnregisterFromParent_keeps_names this s s' :
  wf_process s →
  UnregisterFromParent this s = Some s' →
  keeps_names (heap s) (heap s') ∧
  request_to_mem_trackers_ s' = request_to_mem_trackers_ s ∧
  pool_to_mem_trackers_ s' = pool_to_mem_trackers_ s ∧
  use_count s' = use_count s.
Proof.
  intros Hwf H.
  destruct (UnregisterFromParent_inv _ _ _ Hwf H)
    as (t & p & pt & x & Ht & Hpar & Hp & Hne & Hit & Hx & ->). simpl.
  split; [|done].
  eapply keeps_names_trans;
    [|apply (keeps_names_insert_same _ this t); [by rewrite lookup_insert_ne|done|done]].
  by apply (keeps_names_insert_same _ p pt).
Qed.

Lemma MemTracker_delete_registries this s s' :
  wf_process s → wf_registries s →
  MemTracker_delete this s = Some s' →
  wf_registries s' ∧ use_count s' = use_count s ∧ heap s' !! this = None.
Proof.
  unfold MemTracker_delete. intros Hwf Hwr H.
  destruct (heap s !! this) as [t|] eqn:Ht; [|done]. simpl in H.
  destruct (if auto_unregister_ t then _ else _) as [s1|] eqn:Hs1; [|done].
  simpl in H. injection H as <-. simpl.
  assert (keeps_names (heap s) (heap s1) ∧
          request_to_mem_trackers_ s1 = request_to_mem_trackers_ s ∧
          pool_to_mem_trackers_ s1 = pool_to_mem_trackers_ s ∧
          use_count s1 = use_count s) as (Hk & Hr & Hp & Hu).
  { destruct (auto_unregister_ t).
    - by eapply UnregisterFromParent_keeps_names.
    - injection Hs1 as <-. split; [apply keeps_names_refl|done]. }
  destruct (wf_registries_frame s s1 Hr Hp Hu Hk Hwr) as [Hreq Hpool].
  destruct (Hk this t Ht) as (t1 & Ht1 & Hid1 & Hname1).
  split; [|split; [done|apply lookup_delete_eq]]. split; simpl.
  - intros id w Hw. apply lookup_delete_Some in Hw as [Hne Hw].
    destruct (Hreq id w Hw) as (tw & n & Htw & Hid & Hn).
    exists tw, n. split; [|done].
    rewrite lookup_delete_ne; [done|]. intros <-. congruence.
  - intros name w Hw. apply lookup_delete_Some in Hw as [Hne Hw].
    destruct (Hpool name w Hw) as (tw & Htw & Hname).
    exists tw. split; [|done].
    rewrite lookup_delete_ne; [done|]. intros <-. congruence.
Qed.

Lemma shared_ptr_release_registries p s s' :
  wf_process s → wf_registries s →
  shared_ptr_release p s = Some s' → wf_registries s'.
Proof.
  unfold shared_ptr_release. intros Hwf Hwr H.
  destruct (use_count s !! p) as [[|[|n]]|] eqn:Hcount; simpl in H; try done.
  - destruct (MemTracker_delete p s) as [s1|] eqn:Hd; [|done]. simpl in H.
    injection H as <-.
    destruct (MemTracker_delete_registries _ _ _ Hwf Hwr Hd) as ([Hreq Hpool] & Hu & Hdead).
    split; simpl; [|done].
    intros id w Hw. destruct (Hreq id w Hw) as (tw & k & Htw & Hid & Hk).
    exists tw, k. split; [done|]. split; [done|].
    rewrite lookup_delete_ne; [done|]. intros <-. congruence.
  - injection H as <-. destruct Hwr as [Hreq Hpool]. split; simpl; [|done].
    intros id w Hw. destruct (Hreq id w Hw) as (tw & k & Htw & Hid & Hk).
    destruct (decide (w = p)) as [->|Hne].
    + exists tw, n. by rewrite lookup_insert_eq.
    + exists tw, k. by rewrite lookup_insert_ne.
Qed.

Lemma GetRequestPoolMemTracker_registries pool_name parent s r s' :
  wf_process s → wf_registries s →
  GetRequestPoolMemTracker pool_name parent s = Some (r, s') → wf_registries s'.
Proof.
  unfold GetRequestPoolMemTracker. intros Hwf Hwr H.
  destruct (pool_to_mem_trackers_ s !! pool_name) as [tr|].
  { by injection H as <- <-. }
  destruct parent as [q|]; [|by injection H as <- <-].
  destruct (MemTracker_new _ _ _ _ s) as [[tr s1]|] eqn:Hnew; [|done]. simpl in H.
  destruct (heap s1 !! tr) as [t|] eqn:Ht; [|done]. simpl in H. injection H as <- <-.
  pose proof (MemTracker_new_keeps_names _ _ _ _ _ _ _ Hwf Hnew) as Hk.
  destruct (MemTracker_new_lookup _ _ _ _ _ _ _ Hwf Hnew)
    as (-> & _ & _ & _ & _ & _ & Hu & Hr & Hp & _).
  destruct (wf_registries_frame s s1 Hr Hp Hu Hk Hwr) as [Hreq Hpool].
  split; simpl.
  - intros id w Hw. destruct (Hreq id w Hw) as (tw & k & Htw & Hid & Hcount).
    destruct (decide (w = next_ptr s)) as [->|Hne].
    + rewrite Ht in Htw. injection Htw as <-.
      eexists _, k. rewrite lookup_insert_eq. done.
    + exists tw, k. by rewrite lookup_insert_ne.
  - intros name w Hw. destruct (decide (name = pool_name)) as [->|Hne].
    + rewrite lookup_insert_eq in Hw. injection Hw as <-.
      eexists. rewrite lookup_insert_eq. done.
    + rewrite lookup_insert_ne in Hw by done.
      destruct (Hpool name w Hw) as (tw & Htw & Hname).
      destruct (decide (w = next_ptr s)) as [->|Hnw].
      * rewrite Ht in Htw. injection Htw as <-.
        destruct (MemTracker_new_lookup _ _ _ _ _ _ _ Hwf Hnew)
          as (_ & _ & (t' & Ht' & _ & _ & _ & _ & _ & _ & Hpn & _) & _).
        rewrite Ht in Ht'. injection Ht' as <-.
        destruct Hwr as [_ Hpool0]. rewrite Hp in Hw.
        destruct (Hpool0 name _ Hw) as (t0 & Ht0 & _).
        destruct (Hwf _ _ Ht0). lia.
      * exists tw. by rewrite lookup_insert_ne.
Qed.

Lemma GetQueryMemTracker_registries physical_mem pp print_id id byte_limit parent s r s' :
  wf_process s → wf_registries s →
  GetQueryMemTracker physical_mem pp print_id id byte_limit parent s = Some (r, s') →
  wf_registries s'.
Proof.
  unfold GetQueryMemTracker. intros Hwf Hwr H.
  destruct (log_query_limit_heap physical_mem pp byte_limit s)
    as (Hh & Hn & Hu0 & Hr0 & Hp0 & _).
  set (s0 := log_query_limit physical_mem pp byte_limit s) in *.
  assert (wf_process s0) as Hwf0 by (unfold wf_process; by rewrite Hh, Hn).
  assert (wf_registries s0) as Hwr0.
  { apply (wf_registries_frame s); [done|done|done| |done].
    rewrite Hh. apply keeps_names_refl. }
  clearbody s0. clear Hh Hn Hu0 Hr0 Hp0 Hwr Hwf.
  destruct (request_to_mem_trackers_ s0 !! id) as [w|] eqn:Hid.
  { injection H as H. unfold weak_ptr_lock in H.
    destruct (use_count s0 !! w) as [k|] eqn:Hk; injection H as <- <-; [|done].
    destruct Hwr0 as [Hreq Hpool]. split; simpl; [|done].
    intros id' w' Hw'. destruct (Hreq id' w' Hw') as (tw & k' & Htw & Hid' & Hk').
    destruct (decide (w' = w)) as [->|Hne].
    - exists tw, k. by rewrite lookup_insert_eq.
    - exists tw, k'. by rewrite lookup_insert_ne. }
  destruct (MemTracker_new _ _ _ _ s0) as [[tr s1]|] eqn:Hnew; [|done]. simpl in H.
  destruct (heap s1 !! tr) as [t|] eqn:Ht; [|done]. simpl in H. injection H as <- <-.
  pose proof (MemTracker_new_keeps_names _ _ _ _ _ _ _ Hwf0 Hnew) as Hk.
  destruct (MemTracker_new_lookup _ _ _ _ _ _ _ Hwf0 Hnew)
    as (-> & _ & _ & _ & _ & _ & Hu & Hr & Hp & _).
  destruct (wf_registries_frame s0 s1 Hr Hp Hu Hk Hwr0) as [Hreq Hpool].
  split; simpl.
  - intros id' w Hw. destruct (decide (id' = id)) as [->|Hne].
    + rewrite lookup_insert_eq in Hw. injection Hw as <-.
      eexists _, 0. rewrite !lookup_insert_eq. done.
    + rewrite lookup_insert_ne in Hw by done.
      destruct (Hreq id' w Hw) as (tw & k & Htw & Hid' & Hcount).
      assert (w ≠ next_ptr s0) as Hnw.
      { destruct Hwr0 as [Hreq0 _]. rewrite Hr in Hw.
        destruct (Hreq0 id' w Hw) as (t0 & _ & Ht0 & _).
        destruct (Hwf0 _ _ Ht0). lia. }
      exists tw, k. by rewrite !lookup_insert_ne.
  - intros name w Hw. destruct (Hpool name w Hw) as (tw & Htw & Hname).
    destruct (decide (w = next_ptr s0)) as [->|Hnw].
    + destruct Hwr0 as [_ Hpool0]. rewrite Hp in Hw.
      destruct (Hpool0 name _ Hw) as (t0 & Ht0 & _).
      destruct (Hwf0 _ _ Ht0). lia.
    + exists tw. by rewrite lookup_insert_ne.
Qed.

Lemma exec_registries physical_mem pp print_id gc_call op s s' :
  wf_process s → wf_registries s →
  exec physical_mem pp print_id gc_call op s = Some s' → wf_registries s'.
Proof.
  destruct op; simpl; intros Hwf Hwr H.
  - destruct (MemTracker_new _ _ _ _ s) as [[this s1]|] eqn:E; [|done].
    injection H as <-.
    destruct (MemTracker_new_lookup _ _ _ _ _ _ _ Hwf E)
      as (_ & _ & _ & _ & _ & _ & Hu & Hr & Hp & _).
    apply (wf_registries_frame s); [done|done|done| |done].
    by eapply MemTracker_new_keeps_names.
  - destruct (MemTracker_new_metric _ _ _ s) as [[this s1]|] eqn:E; [|done].
    injection H as <-. revert E.
    unfold MemTracker_new_metric, allocate, Init. simpl. intros Hnew.
    rewrite lookup_insert_eq in Hnew. simpl in Hnew.
    match type of Hnew with context [Init_loop ?f ?h ?p ?a ?l] =>
      destruct (Init_loop f h p a l) as [[all lim]|] eqn:Hloop end; [|done].
    simpl in Hnew. injection Hnew as <- <-.
    apply (wf_registries_frame s); [done|done|done| |done]. simpl.
    rewrite insert_insert_eq. apply keeps_names_insert_fresh. by apply wf_heap_fresh.
  - unfold AddGcFunction in H.
    destruct (heap s !! this) as [t|] eqn:Ht; [|done]. simpl in H. injection H as <-.
    apply (wf_registries_frame s); [done|done|done| |done]. simpl.
    by apply (keeps_names_insert_same _ this t).
  - destruct (UnregisterFromParent_keeps_names _ _ _ Hwf H) as (Hk & Hr & Hp & Hu).
    by apply (wf_registries_frame s).
  - by destruct (MemTracker_delete_registries _ _ _ Hwf Hwr H).
  - by eapply shared_ptr_release_registries.
  - destruct (GetRequestPoolMemTracker _ _ s) as [[? ?]|] eqn:E; [|done].
    injection H as <-. by eapply GetRequestPoolMemTracker_registries.
  - destruct (GetQueryMemTracker _ _ _ _ _ _ s) as [[? ?]|] eqn:E; [|done].
    injection H as <-. by eapply GetQueryMemTracker_registries.
  - unfold RegisterMetrics in H.
    destruct (heap s !! this) as [t|] eqn:Ht; [|done]. simpl in H. injection H as <-.
    apply (wf_registries_frame s); [done|done|done| |done]. simpl.
    by apply (keeps_names_insert_same _ this t).
  - unfold RefreshConsumptionFromMetric in H.
    destruct (heap s !! this) as [t|]; [|done]. simpl in H.
    destruct (consumption_metric_ t); [|done]. simpl in H. by injection H as <-.
  - destruct (GcMemory _ _ _ s) as [[? ?]|] eqn:E; [|done]. injection H as <-.
    unfold GcMemory in E.
    case_bool_decide; [by injection E as <- <-|].
    destruct (heap s !! this) as [t|]; [|done]. simpl in E.
    by case_bool_decide; injection E as <- <-.
  - by injection H as <-.
Qed.

(** X9: the registries never name a destroyed tracker.  Through every
    sequence of operations the registry of queries maps an id to a live,
    owned tracker whose [query_id_] is that id, and the registry of pools
    maps a name to a live tracker whose [pool_name_] is that name: the
    destructor erases the entries of the tracker it destroys. *)
Theorem registries_name_live_trackers physical_mem pp print_id gc_call ops s s' :
  wf_process s → wf_registries s →
  exec_all physical_mem pp print_id gc_call ops s = Some s' →
  wf_registries s'.
Proof.
  revert s. induction ops as [|op ops IH]; simpl; intros s Hwf Hwr H.
  - by injection H as <-.
  - destruct (exec _ _ _ _ op s) as [s1|] eqn:E; [|done]. simpl in H.
    apply (IH s1); [|by eapply exec_registries|done].
    by destruct (exec_step _ _ _ _ _ _ _ E Hwf).
Qed.

Lemma wf_registries_empty_process : wf_registries empty_process.
Proof. split; intros ? ? H; done. Qed.

(** ** Reclamation and its metrics *)

Lemma uint64_sub_signed a b :
  Int64.in_range (a - b) →
  Int64.to_int64 (Int64.to_uint64 (Int64.to_uint64 a - Int64.to_uint64 b)) = (a - b)%Z.
Proof.
  intros Hr. transitivity (Int64.to_int64 (a - b)); [|by apply to_int64_id].
  unfold Int64.to_int64, Int64.to_uint64.
  rewrite <- Zminus_mod. rewrite Zplus_mod_idemp_l. done.
Qed.

Lemma uint64_lt_signed_iff c target :
  Int64.in_range c → Int64.in_range target → (0 ≤ target)%Z →
  (Int64.to_uint64 c < Int64.to_uint64 target)%Z ↔ (0 ≤ c < target)%Z.
Proof.
  unfold Int64.in_range, Int64.half_modulus. intros Hc Hm H0.
  rewrite (to_uint64_nonneg target) by (unfold Int64.modulus; lia).
  destruct (decide (0 ≤ c)%Z).
  - rewrite to_uint64_nonneg by (unfold Int64.modulus; lia). lia.
  - rewrite to_uint64_neg by (unfold Int64.half_modulus; lia).
    unfold Int64.modulus. lia.
Qed.

Lemma refresh_if_metric_metric this t m :
  metric (refresh_if_metric this t m) = metric m.
Proof. unfold refresh_if_metric. by destruct (consumption_metric_ t). Qed.

Section Reclamation.
Variable gc_call : GcFunction → Counters → Counters.

Lemma gc_loop_metric this t target name fs m :
  (∀ f m, metric (gc_call f m) name = metric m name) →
  metric (gc_loop gc_call this t target fs m) name = metric m name.
Proof.
  intros Hcall. revert m. induction fs as [|f fs IH]; intros m; simpl; [done|].
  case_bool_decide.
  - by rewrite refresh_if_metric_metric, Hcall.
  - by rewrite IH, refresh_if_metric_metric, Hcall.
Qed.

(** X10: [GcMemory] with a target that is not negative returns at once,
    having at most refreshed the consumption from the gauge, exactly when
    the consumption is below the target; a consumption equal to the target
    still starts a collection.  A collection adds one to the [num-gcs]
    counter and leaves in [bytes-freed-by-last-gc] the consumption before
    minus the consumption after, which is negative when the callbacks made
    the consumption grow. *)
Theorem GcMemory_metrics this target s t gcs freed :
  heap s !! this = Some t →
  num_gcs_metric_ t = Some gcs →
  bytes_freed_by_last_gc_metric_ t = Some freed → gcs ≠ freed →
  (∀ f m, metric (gc_call f m) gcs = metric m gcs) →
  (0 ≤ target)%Z → Int64.in_range target →
  Int64.in_range (consumption s this) →
  ∃ b s', GcMemory gc_call this target s = Some (b, s') ∧
    let pre := current_value (counter (refresh_if_metric this t (mem s)) this) in
    if bool_decide (0 ≤ pre < target)%Z then
      b = false ∧ s' = with_mem (refresh_if_metric this t (mem s)) s
    else
      metric (mem s') gcs = (metric (mem s) gcs + 1)%Z ∧
      (Int64.in_range (pre - consumption s' this) →
       metric (mem s') freed = (pre - consumption s' this)%Z).
Proof.
  intros Ht Hgcs Hfreed Hne Hcall Htarget Hmax Hc.
  pose proof (refresh_if_metric_in_range this t (mem s) Hc) as Hpre.
  unfold GcMemory. rewrite bool_decide_eq_false_2 by lia. rewrite Ht. simpl.
  rewrite Hgcs, Hfreed. simpl.
  set (m0 := refresh_if_metric this t (mem s)) in *.
  destruct (decide (0 ≤ current_value (counter m0 this) < target)%Z) as [Hlt|Hge].
  - rewrite bool_decide_eq_true_2 by (by apply uint64_lt_signed_iff).
    eexists _, _. split; [done|]. rewrite bool_decide_eq_true_2 by done. done.
  - rewrite bool_decide_eq_false_2 by (by rewrite uint64_lt_signed_iff).
    eexists _, _. split; [done|]. rewrite bool_decide_eq_false_2 by done.
    unfold consumption. simpl.
    split.
    + rewrite fn_lookup_insert_ne by done.
      rewrite gc_loop_metric by done. simpl. rewrite fn_lookup_insert.
      unfold m0. by rewrite refresh_if_metric_metric.
    + intros Hdiff. rewrite fn_lookup_insert. by apply uint64_sub_signed.
Qed.

(** X11: the loop of [GcMemory] invokes the callbacks in the order of their
    registration and stops right after the first one that brings the
    consumption to the target or below: what it does is what running the
    first [k] callbacks does, where [k] is at least one when a callback is
    registered, no shorter run reached the target, and the run of [k]
    reached it unless all callbacks ran. *)
Theorem gc_loop_runs_prefix this t target fs m :
  ∃ k, k ≤ length fs ∧ (fs ≠ [] → 0 < k) ∧
       gc_loop gc_call this t target fs m = gc_run gc_call this t (take k fs) m ∧
       (∀ j, 0 < j < k →
          (current_value (counter (gc_run gc_call this t (take j fs) m) this)
           > target)%Z) ∧
       (k < length fs →
          (current_value (counter (gc_run gc_call this t (take k fs) m) this)
           ≤ target)%Z).
Proof.
  revert m. induction fs as [|f fs IH]; intros m.
  { exists 0. simpl. split; [done|]. split; [done|]. split; [done|].
    split; [intros; lia|lia]. }
  simpl. case_bool_decide as Hle.
  - exists 1. simpl.
    split; [lia|]. split; [lia|]. split; [done|]. split; [intros; lia|done].
  - destruct (IH (refresh_if_metric this t (gc_call f m)))
      as (k & Hk & Hpos & Heq & Hbefore & Hafter).
    exists (S k). simpl. split; [lia|]. split; [lia|]. split; [done|]. split.
    + intros [|j] Hj; [lia|]. simpl.
      destruct j as [|j].
      * simpl. lia.
      * apply (Hbefore (S j)). lia.
    + intros Hlt. apply Hafter. lia.
Qed.
End Reclamation.

(** ** Interning of queries and pools *)

(** X13: from the call that creates the tracker of a query until that
    tracker is destroyed, every [GetQueryMemTracker] for the query's id
    returns that one tracker, whatever limit and parent the caller passes
    and whatever other operations ran in between.  The id [0:0], which every
    tracker outside the registry carries, is excluded. *)
Theorem GetQueryMemTracker_interns physical_mem pp print_id gc_call id byte_limit
    parent s l :
  id ≠ TUniqueId_default → wf_process s → parent_chain (heap s) parent l →
  request_to_mem_trackers_ s !! id = None →
  (∀ p t, heap s !! p = Some t → query_id_ t ≠ id) →
  ∃ tracker s1,
    GetQueryMemTracker physical_mem pp print_id id byte_limit parent s
      = Some (Some tracker, s1) ∧
    ∀ ops s2 byte_limit' parent',
      exec_all physical_mem pp print_id gc_call ops s1 = Some s2 →
      is_Some (heap s2 !! tracker) →
      ∃ s3, GetQueryMemTracker physical_mem pp print_id id byte_limit' parent' s2
            = Some (Some tracker, s3).
Proof.
  intros Hid Hwf Hchain Hreg Hnone.
  destruct (GetQueryMemTracker_creates_interned physical_mem pp print_id id byte_limit
              parent s l Hid Hwf Hchain Hreg Hnone)
    as (s1 & Hget & Hlive & Hwf1 & Hint).
  exists (next_ptr s), s1. split; [done|].
  intros ops s2 byte_limit' parent' Hexec Hlive2.
  assert (interned id (next_ptr s) s2) as (Hreg2 & [n Hown] & _).
  { clear Hget. revert s1 Hwf1 Hlive Hint Hexec.
    induction ops as [|op ops IH]; simpl; intros s1 Hwf1 Hlive Hint Hexec.
    { by injection Hexec as <-. }
    destruct (exec _ _ _ _ op s1) as [sm|] eqn:E; [|done]. simpl in Hexec.
    destruct (exec_step _ _ _ _ _ _ _ E Hwf1) as (Hwfm & Hnm & _).
    destruct (exec_all_step _ _ _ _ _ _ _ Hexec Hwfm) as (_ & _ & Hp).
    assert (next_ptr s < next_ptr sm) as Hlt.
    { destruct Hlive as [t Ht]. destruct (Hwf1 _ t Ht). lia. }
    destruct Hlive2 as [t' Ht'].
    destruct (Hp _ t' Hlt Ht') as (tm & Htm & _).
    apply (IH sm); [done|by eexists| |done].
    apply (exec_interned physical_mem pp print_id gc_call id (next_ptr s) op s1 sm);
      [done|done|done|done|by eexists]. }
  destruct (GetQueryMemTracker_interned physical_mem pp print_id id byte_limit' parent'
              s2 (next_ptr s) n Hreg2 Hown) as (s3 & Hget3 & _).
  by exists s3.
Qed.

(** X14: [GetQueryMemTracker] with a parent whose chain is live never
    returns a null pointer: whether the id was registered or not, the
    result is a live, owned tracker that carries the id and that the
    registry maps the id to. *)
Theorem GetQueryMemTracker_returns_live_tracker physical_mem pp print_id id byte_limit
    q s l :
  wf_process s → wf_registries s → ancestor_chain (heap s) q l →
  ∃ tracker s' t n,
    GetQueryMemTracker physical_mem pp print_id id byte_limit (Some q) s
      = Some (Some tracker, s') ∧
    heap s' !! tracker = Some t ∧ query_id_ t = id ∧
    use_count s' !! tracker = Some (S n) ∧
    request_to_mem_trackers_ s' !! id = Some tracker.
Proof.
  intros Hwf [Hreq _] Hchain.
  destruct (request_to_mem_trackers_ s !! id) as [w|] eqn:Hid.
  - destruct (Hreq id w Hid) as (t & n & Ht & Hqid & Hcount).
    destruct (GetQueryMemTracker_interned physical_mem pp print_id id byte_limit
                (Some q) s w (S n) Hid Hcount) as (s' & Hget & Hh & Hr & Hu).
    exists w, s', t, (S n). split; [done|]. rewrite Hh, Hr, Hu.
    split; [done|]. split; [done|]. split; [apply lookup_insert_eq|done].
  - destruct (GetQueryMemTracker_creates physical_mem pp print_id id byte_limit
                (Some q) s l Hwf Hchain Hid)
      as (s' & t & Hget & Ht & _ & _ & Hqid & _ & Hmap & Hcount & _).
    exists (next_ptr s), s', t, 0. split; [done|]. split; [done|]. split; [done|].
    rewrite Hmap, Hcount. split; apply lookup_insert_eq.
Qed.

(** X15: a pool tracker is made by the first [GetRequestPoolMemTracker]
    for its name and has no limit; it reserves nothing while it has no
    query; and every later call for the name returns it and changes
    nothing, whatever parent is passed, a null one included. *)
Theorem GetRequestPoolMemTracker_interns physical_mem pool_name q s l :
  wf_process s → ancestor_chain (heap s) q l →
  pool_to_mem_trackers_ s !! pool_name = None →
  ∃ tracker s1 t,
    GetRequestPoolMemTracker pool_name (Some q) s = Some (Some tracker, s1) ∧
    heap s1 !! tracker = Some t ∧ limit_ t = (-1)%Z ∧ pool_name_ t = pool_name ∧
    parent_ t = Some q ∧
    GetPoolMemReserved physical_mem tracker s1 = Some 0%Z ∧
    ∀ parent', GetRequestPoolMemTracker pool_name parent' s1 = Some (Some tracker, s1).
Proof.
  intros Hwf Hchain Hreg.
  destruct (GetRequestPoolMemTracker_creates pool_name q s l Hwf Hchain Hreg)
    as (s1 & t & Hget & _ & Ht & Hlim & Hpar & Hname & _ & Hmap).
  exists (next_ptr s), s1, t. split; [done|]. do 4 (split; [done|]).
  split.
  - pose proof Hget as Hget'. unfold GetRequestPoolMemTracker in Hget'.
    rewrite Hreg in Hget'.
    destruct (MemTracker_new _ _ _ _ s) as [[tr sN]|] eqn:Hnew; [|done].
    simpl in Hget'.
    destruct (MemTracker_new_lookup _ _ _ _ _ _ _ Hwf Hnew)
      as (-> & _ & (tN & HtN & _ & Hcs & _) & _).
    rewrite HtN in Hget'. simpl in Hget'. injection Hget' as <-.
    simpl in Ht. rewrite lookup_insert_eq in Ht. injection Ht as <-.
    unfold GetPoolMemReserved. simpl. rewrite lookup_insert_eq. simpl.
    by rewrite Hcs.
  - intros parent'. unfold GetRequestPoolMemTracker.
    by rewrite Hmap, lookup_insert_eq.
Qed.

(** X16: a tracker that unregisters itself in its destructor must not be
    unregistered by hand: after a successful [UnregisterFromParent] the
    iterator is [end()], and the destructor erases through it. *)
Theorem unregister_then_delete_undefined this s t s1 :
  wf_process s →
  heap s !! this = Some t → auto_unregister_ t = true →
  UnregisterFromParent this s = Some s1 →
  MemTracker_delete this s1 = None ∧
  ∀ use, shared_ptr_release this (with_use_count (<[this := 1]> use) s1) = None.
Proof.
  intros Hwf Ht Hau Hun.
  destruct (UnregisterFromParent_inv _ _ _ Hwf Hun)
    as (t0 & p & pt & x & Ht0 & Hpar & Hp & Hne & Hit & Hx & ->).
  rewrite Ht in Ht0. injection Ht0 as <-.
  assert (∀ u, MemTracker_delete this
            (with_use_count u
               (with_heap
                  (<[this:=with_child_tracker_it None t]>
                     (<[p:=with_child_trackers
                             (filter (λ y, y ≠ x) (child_trackers_ pt)) pt]> (heap s)))
                  s)) = None) as Hdel.
  { intros u. unfold MemTracker_delete. simpl. rewrite lookup_insert_eq. simpl.
    rewrite Hau. unfold UnregisterFromParent. simpl. rewrite lookup_insert_eq. simpl.
    rewrite Hpar. simpl. rewrite lookup_insert_ne by done. rewrite lookup_insert_eq.
    done. }
  split.
  - apply (Hdel (use_count s)).
  - intros use. unfold shared_ptr_release. simpl. rewrite lookup_insert_eq. simpl.
    by rewrite (Hdel (<[this:=1]> use)).
Qed.

(** ** Query state *)

Lemma log_query_options_limit_log pp o s :
  log_query_options_limit pp o s = with_log (log (log_query_options_limit pp o s)) s ∧
  log (log_query_options_limit pp o s)
  = log s ++
    match mem_limit o with
    | Some bytes_limit =>
        if bool_decide (bytes_limit > 0)%Z then
          [VLOG_QUERY ("Using query memory limit from query options: "
                       +:+ pp bytes_limit)]
        else []
    | None => []
    end.
Proof.
  unfold log_query_options_limit.
  destruct (mem_limit o) as [bytes_limit|]; [case_bool_decide|]; simpl;
    rewrite ?app_nil_r; by destruct s.
Qed.

(** X17: the constructor of [QueryState] leaves positive [max_errors] and
    [batch_size] in the query options: a value that is positive is kept, any
    other becomes 100, respectively [DEFAULT_BATCH_SIZE]; the memory limit
    and the query id are kept.  For a memory limit that is set and positive
    it writes one line about that limit, and for no other; the query tracker
    is created after that line, from the options so corrected. *)
Theorem QueryState_new_options CreateQueryMemTracker pp query_ctx pool s qs s' :
  QueryState_new CreateQueryMemTracker pp query_ctx pool s = Some (qs, s') →
  let o := query_options query_ctx in
  let o' := query_options (query_ctx_ qs) in
  max_errors o' = (if bool_decide (0 < max_errors o)%Z then max_errors o else 100%Z) ∧
  batch_size o' = (if bool_decide (0 < batch_size o)%Z then batch_size o
                   else DEFAULT_BATCH_SIZE) ∧
  (0 < max_errors o')%Z ∧ (0 < batch_size o')%Z ∧
  mem_limit o' = mem_limit o ∧ query_id qs = ctx_query_id query_ctx ∧
  ∃ s0,
    CreateQueryMemTracker (query_id qs) o' pool s0 = Some (query_mem_tracker_ qs, s') ∧
    s0 = with_log (log s0) s ∧
    log s0 = log s ++
      match mem_limit o with
      | Some bytes_limit =>
          if bool_decide (bytes_limit > 0)%Z then
            [VLOG_QUERY ("Using query memory limit from query options: "
                         +:+ pp bytes_limit)]
          else []
      | None => []
      end.
Proof.
  unfold QueryState_new. cbv zeta. intros H.
  destruct (CreateQueryMemTracker _ _ _ _) as [[tracker s1]|] eqn:Hc; [|done].
  cbn in H. injection H as <- <-. unfold query_id, DEFAULT_BATCH_SIZE in *.
  cbn [query_ctx_ query_options ctx_query_id max_errors batch_size mem_limit
       query_mem_tracker_] in *.
  split. { repeat case_bool_decide; try done; lia. }
  split. { repeat case_bool_decide; try done; lia. }
  split. { repeat case_bool_decide; lia. }
  split. { repeat case_bool_decide; lia. }
  split; [done|]. split; [done|].
  match type of Hc with context [log_query_options_limit pp ?o2 s] =>
    exists (log_query_options_limit pp o2 s); split; [exact Hc|];
    exact (log_query_options_limit_log pp o2 s) end.
Qed.

Section FInstancesProperties.
Variable instance_id : ptr → TUniqueId.
Variable PrintId : TUniqueId → string.

Lemma RegisterFInstance_lookup fis q id :
  fis_map_ (RegisterFInstance instance_id PrintId fis q) !! id
  = match fis_map_ q !! id with
    | Some f => Some f
    | None => if decide (instance_id fis = id) then Some fis else None
    end.
Proof.
  unfold RegisterFInstance. simpl.
  destruct (decide (instance_id fis = id)) as [<-|Hne].
  - destruct (fis_map_ q !! instance_id fis) eqn:E; [done|].
    by rewrite lookup_insert_eq.
  - destruct (fis_map_ q !! instance_id fis) eqn:E.
    + by destruct (fis_map_ q !! id).
    + rewrite lookup_insert_ne by done. by destruct (fis_map_ q !! id).
Qed.

(** X18: [GetFInstanceState] returns, for an instance id, the fragment
    instance that was registered first under that id: a later registration
    under the same id does not replace it; and for an id that was never
    registered it returns the null pointer. *)
Theorem GetFInstanceState_first_registered fs q id :
  (GetFInstanceState PrintId id (RegisterFInstances instance_id PrintId fs q)).1
  = match fis_map_ q !! id with
    | Some f => Some f
    | None => head (filter (λ f, instance_id f = id) fs)
    end.
Proof.
  unfold GetFInstanceState, RegisterFInstances. simpl.
  revert q. induction fs as [|f fs IH]; intros q; simpl.
  { by destruct (fis_map_ q !! id). }
  rewrite IH, RegisterFInstance_lookup.
  destruct (fis_map_ q !! id) as [g|]; [done|].
  destruct (decide (instance_id f = id)) as [Heq|Hne].
  - by rewrite filter_cons_True.
  - by rewrite filter_cons_False.
Qed.
End FInstancesProperties.

(** ** Metrics of a tracker *)

Lemma string_app_ne (p a b : string) : a ≠ b → p +:+ a ≠ p +:+ b.
Proof. intros Hne Heq. apply Hne. by apply (inj (String.app p)). Qed.

(** X19: [RegisterMetrics] gives the tracker four metrics of its own, none
    of which stands for another: a counter of collections that starts at 0,
    the bytes freed by the last collection and the bytes over the limit,
    both [-1] at first, and the limit of the tracker.  The consumption
    counters and every metric under another name are left as they are, and
    so is the place of the tracker in the tree. *)
Theorem RegisterMetrics_values this prefix s t :
  heap s !! this = Some t →
  ∃ s' t',
    RegisterMetrics this prefix s = Some s' ∧ heap s' !! this = Some t' ∧
    same_shape t t' ∧ same_links t t' ∧ gc_functions_ t' = gc_functions_ t ∧
    (∀ p, p ≠ this → heap s' !! p = heap s !! p) ∧
    counter (mem s') = counter (mem s) ∧
    (∃ gcs freed over lim,
       num_gcs_metric_ t' = Some gcs ∧ bytes_freed_by_last_gc_metric_ t' = Some freed ∧
       bytes_over_limit_metric_ t' = Some over ∧ limit_metric_ t' = Some lim ∧
       NoDup [gcs; freed; over; lim] ∧
       metric (mem s') gcs = 0%Z ∧ metric (mem s') freed = (-1)%Z ∧
       metric (mem s') over = (-1)%Z ∧ metric (mem s') lim = limit_ t ∧
       ∀ name, name ∉ [gcs; freed; over; lim] →
         metric (mem s') name = metric (mem s) name).
Proof.
  intros Ht. unfold RegisterMetrics. rewrite Ht. simpl.
  eexists _, _. split; [done|]. simpl. rewrite lookup_insert_eq.
  split; [done|]. split; [done|]. split; [done|]. split; [done|].
  split. { intros p Hp. by rewrite lookup_insert_ne. }
  split; [done|].
  eexists _, _, _, _. do 4 (split; [done|]).
  assert (prefix +:+ ".num-gcs" ≠ prefix +:+ ".bytes-freed-by-last-gc") as H12
    by (by apply string_app_ne).
  assert (prefix +:+ ".num-gcs" ≠ prefix +:+ ".bytes-over-limit") as H13
    by (by apply string_app_ne).
  assert (prefix +:+ ".num-gcs" ≠ prefix +:+ ".limit") as H14
    by (by apply string_app_ne).
  assert (prefix +:+ ".bytes-freed-by-last-gc" ≠ prefix +:+ ".bytes-over-limit") as H23
    by (by apply string_app_ne).
  assert (prefix +:+ ".bytes-freed-by-last-gc" ≠ prefix +:+ ".limit") as H24
    by (by apply string_app_ne).
  assert (prefix +:+ ".bytes-over-limit" ≠ prefix +:+ ".limit") as H34
    by (by apply string_app_ne).
  split.
  { repeat (apply NoDup_cons; split;
      [rewrite ?elem_of_cons, elem_of_nil; by intros [?|[?|[?|?]]] || by intros [?|[?|?]]
         || by intros [?|?] || by intros ?|]).
    apply NoDup_nil_2. }
  split. { rewrite !fn_lookup_insert_ne by done. apply fn_lookup_insert. }
  split. { rewrite !fn_lookup_insert_ne by done. apply fn_lookup_insert. }
  split. { rewrite !fn_lookup_insert_ne by done. apply fn_lookup_insert. }
  split. { apply fn_lookup_insert. }
  intros name Hname. rewrite !elem_of_cons, elem_of_nil in Hname.
  rewrite !fn_lookup_insert_ne; [done|..]; intros <-; apply Hname; auto.
Qed.

(** ** The test environment *)

(** X20: [CalculateMemLimit] never overflows: for arguments that are [int]
    values the product taken in 64 bits is exact.  It answers [-1], no
    limit, for [max_buffers = -1], and for a count of buffers and a block
    size that are not negative it answers [-1] in no other case. *)
Theorem CalculateMemLimit_exact max_buffers block_size :
  Int32.in_range max_buffers → Int32.in_range block_size →
  ∃ r, CalculateMemLimit max_buffers block_size = Some r ∧ Int64.in_range r ∧
       r = (if bool_decide (max_buffers = -1)%Z then -1 else max_buffers * block_size)%Z ∧
       ((-1 ≤ max_buffers)%Z → (0 ≤ block_size)%Z →
        (r = -1 ↔ max_buffers = -1)%Z).
Proof.
  unfold Int32.in_range, CalculateMemLimit, int64_mul. intros Ha Hb.
  assert (Int64.in_range (max_buffers * block_size)) as Hr.
  { unfold Int64.in_range, Int64.half_modulus. nia. }
  case_bool_decide as Hm.
  - exists (-1)%Z. split; [done|]. split; [|done].
    unfold Int64.in_range, Int64.half_modulus. lia.
  - rewrite bool_decide_eq_true_2 by done. eexists. split; [done|].
    split; [done|]. split; [done|]. intros H1 H2. split; [nia|done].
Qed.

Section TestEnvProperties.
Context {World : Type}.
Variable TQueryOptions_default : TQueryOptions.
Variable RuntimeState_new : TQueryCtx → World → ptr * World.
Variable InitMemTrackers : ptr → World → World.
Variable BufferedBlockMgr_Create : ptr → Z → Z → World → Status * option ptr * World.
Variable set_block_mgr : ptr → option ptr → World → World.

(** X21: [CreateQueryState] registers a query id at most once.  A call that
    succeeds registers the [RuntimeState] it made under the id, whose query
    id is [0:id], and from then on a call for that id fails with the
    duplicate status, makes nothing and changes nothing.  A call that fails
    because the block manager could not be made registers nothing, so the
    id can be tried again.  The other ids are never affected. *)
Theorem CreateQueryState_once query_id max_buffers block_size query_options e
    status runtime_state e' :
  CreateQueryState TQueryOptions_default RuntimeState_new InitMemTrackers
    BufferedBlockMgr_Create set_block_mgr query_id max_buffers block_size
    query_options e = Some (status, runtime_state, e') →
  runtime_states_ e !! query_id = None →
  (∀ other, other ≠ query_id →
     runtime_states_ e' !! other = runtime_states_ e !! other) ∧
  (∃ rs w1, runtime_state = Some rs ∧
     RuntimeState_new
       {| ctx_query_id := {| hi := 0; lo := query_id |};
          query_options := default TQueryOptions_default query_options |}
       (world e) = (rs, w1)) ∧
  if ok status then
    runtime_states_ e' !! query_id = runtime_state ∧
    ∀ max_buffers' block_size' query_options',
      CreateQueryState TQueryOptions_default RuntimeState_new InitMemTrackers
        BufferedBlockMgr_Create set_block_mgr query_id max_buffers' block_size'
        query_options' e' = Some (duplicate_query_id query_id, None, e') ∧
      ok (duplicate_query_id query_id) = false
  else runtime_states_ e' = runtime_states_ e.
Proof.
  unfold CreateQueryState. intros H Hfresh. rewrite Hfresh in H.
  destruct (RuntimeState_new _ _) as [rs w1] eqn:Hnew.
  destruct (CalculateMemLimit max_buffers block_size) as [lim|]; [|done].
  simpl in H.
  destruct (BufferedBlockMgr_Create _ _ _ _) as [[st mgr] w3].
  destruct (ok st) eqn:Hok; injection H as <- <- <-; simpl.
  - split. { intros other Hne. by rewrite lookup_insert_ne. }
    split. { by exists rs, w1. }
    change (ok Status_OK) with true. cbv iota.
    split; [apply lookup_insert_eq|].
    intros mb bs qo. by rewrite lookup_insert_eq.
  - split; [done|]. split. { by exists rs, w1. }
    by rewrite Hok.
Qed.
End TestEnvProperties.

(** ** Queries of a pool *)

Lemma GetPoolMemReserved_new_query physical_mem pp print_id id byte_limit pool s l r :
  wf_process s → ancestor_chain (heap s) pool l →
  request_to_mem_trackers_ s !! id = None →
  GetPoolMemReserved physical_mem pool s = Some r →
  ∃ s',
    GetQueryMemTracker physical_mem pp print_id id byte_limit (Some pool) s
      = Some (Some (next_ptr s), s') ∧
    wf_process s' ∧ ancestor_chain (heap s') pool l ∧
    request_to_mem_trackers_ s' = <[id := next_ptr s]> (request_to_mem_trackers_ s) ∧
    GetPoolMemReserved physical_mem pool s'
      = int64_add r (query_mem_reserved physical_mem byte_limit).
Proof.
  intros Hwf Hchain Hreg Hres.
  destruct (GetQueryMemTracker_creates_lookup physical_mem pp print_id id byte_limit
              pool s l Hwf Hchain Hreg)
    as (s' & t1 & pt & Hget & Hne & Hpt & Hq1 & Ht1 & _ & _ & _ & Hlim & _ & _
        & _ & _ & _ & Hother & Hmem & _ & Hr & _ & _).
  exists s'. split; [done|].
  split. { by destruct (GetQueryMemTracker_step _ _ _ _ _ _ _ _ _ Hget Hwf). }
  split.
  { apply (ancestor_chain_preserved (heap s)); [|done]. intros p t Hp.
    assert (p ≠ next_ptr s) by (destruct (Hwf p t Hp); lia).
    destruct (decide (p = pool)) as [->|Hpp].
    - rewrite Hpt in Hp. injection Hp as <-. eexists. split; [done|done].
    - exists t. by rewrite Hother. }
  split; [done|].
  unfold GetPoolMemReserved in *. rewrite Hpt in Hres. simpl in Hres.
  rewrite Hq1. simpl. rewrite GetPoolMemReserved_loop_app.
  erewrite (GetPoolMemReserved_loop_ext physical_mem s); [| |exact Hres].
  - simpl. rewrite Ht1. simpl.
    unfold child_mem_reserved, query_mem_reserved. rewrite Hlim.
    unfold consumption. rewrite Hmem. simpl. rewrite fn_lookup_insert. simpl.
    by destruct (int64_add r _).
  - intros c Hc tc Htc.
    assert (c < next_ptr s) as Hlt by (by destruct (Hwf c tc Htc)).
    unfold consumption. rewrite Hmem. simpl.
    rewrite fn_lookup_insert_ne by lia.
    destruct (decide (c = pool)) as [->|Hcp].
    + rewrite Hq1. rewrite Hpt in Htc. injection Htc as <-. eauto.
    + rewrite Hother by lia. eauto.
Qed.

Lemma query_mem_reserved_nonneg physical_mem byte_limit :
  (0 ≤ physical_mem)%Z → (0 ≤ query_mem_reserved physical_mem byte_limit)%Z.
Proof. intros H. unfold query_mem_reserved. case_bool_decide; lia. Qed.

Lemma GetPoolMemReserved_loop_in_range physical_mem s children acc r :
  Int64.in_range acc →
  GetPoolMemReserved_loop physical_mem s children acc = Some r → Int64.in_range r.
Proof.
  revert acc. induction children as [|c children IH]; intros acc Hacc H; simpl in H.
  { by injection H as <-. }
  destruct (heap s !! c) as [t|]; [|done]. simpl in H.
  unfold int64_add in H. case_bool_decide as Hr; [|done]. simpl in H.
  by apply (IH _ Hr).
Qed.

(** X22: the reserved memory of a pool is the sum over its queries: when
    queries with new ids are created in the pool one after the other, each
    with its own limit, the reserved memory grows by the sum of the limits,
    each capped at the physical memory, a query without limit counting for
    nothing as long as it consumes nothing. *)
Theorem GetPoolMemReserved_sums_queries physical_mem pp print_id gc_call pool
    (queries : list (TUniqueId * Z)) s l r :
  wf_process s → ancestor_chain (heap s) pool l →
  (0 ≤ physical_mem)%Z →
  NoDup queries.*1 →
  (∀ id, id ∈ queries.*1 → request_to_mem_trackers_ s !! id = None) →
  GetPoolMemReserved physical_mem pool s = Some r →
  (r + foldr Z.add 0 (query_mem_reserved physical_mem <$> queries.*2)
     < Int64.half_modulus)%Z →
  ∃ s',
    exec_all physical_mem pp print_id gc_call
      ((λ q, OpGetQueryMemTracker q.1 q.2 (Some pool)) <$> queries) s = Some s' ∧
    GetPoolMemReserved physical_mem pool s'
      = Some (r + foldr Z.add 0 (query_mem_reserved physical_mem <$> queries.*2))%Z.
Proof.
  intros Hwf Hchain Hphys. revert s r Hwf Hchain.
  induction queries as [|[id byte_limit] queries IH];
    intros s r Hwf Hchain Hnd Hfresh Hres Hsum.
  { exists s. split; [done|]. simpl. by rewrite Z.add_0_r. }
  rewrite !fmap_cons in *. cbn [foldr fst snd exec_all exec] in *.
  apply NoDup_cons in Hnd as [Hid Hnd].
  assert (Int64.in_range r) as Hr.
  { unfold GetPoolMemReserved in Hres.
    destruct (heap s !! pool) as [pt|]; [|done]. simpl in Hres.
    eapply (GetPoolMemReserved_loop_in_range _ _ _ 0%Z); [|exact Hres].
    unfold Int64.in_range, Int64.half_modulus. lia. }
  assert (0 ≤ foldr Z.add 0 (query_mem_reserved physical_mem <$> queries.*2))%Z as Hrest.
  { clear -Hphys. induction queries as [|[? z] ? IH']; [done|].
    rewrite !fmap_cons. cbn [foldr snd].
    pose proof (query_mem_reserved_nonneg physical_mem z Hphys). lia. }
  pose proof (query_mem_reserved_nonneg physical_mem byte_limit Hphys) as Hq.
  destruct (GetPoolMemReserved_new_query physical_mem pp print_id id byte_limit pool
              s l r Hwf Hchain (Hfresh id (list_elem_of_here _ _)) Hres)
    as (s1 & Hget & Hwf1 & Hchain1 & Hreg1 & Hres1).
  rewrite Hget. simpl.
  unfold int64_add in Hres1. rewrite bool_decide_eq_true_2 in Hres1
    by (unfold Int64.in_range in *; lia).
  destruct (IH s1 (r + query_mem_reserved physical_mem byte_limit)%Z Hwf1 Hchain1 Hnd)
    as (s' & Hexec & Hres'); [|done| |].
  - intros id' Hid'. rewrite Hreg1. rewrite lookup_insert_ne by (by intros ->).
    apply Hfresh. by right.
  - lia.
  - exists s'. split; [done|]. rewrite Hres'. f_equal. lia.
Qed.

(** ** Pools stay registered *)

Lemma no_new_named_refl name h : no_new_named name h h.
Proof. intros p t H1 H2. by exists t. Qed.

Lemma no_new_named_trans name h1 h2 h3 :
  no_new_named name h1 h2 → no_new_named name h2 h3 → no_new_named name h1 h3.
Proof.
  intros H12 H23 p t3 Hp Hn.
  destruct (H23 p t3 Hp Hn) as (t2 & Hp2 & Hn2). by apply (H12 p t2).
Qed.

Lemma no_new_named_insert_same name h p t t' :
  h !! p = Some t → pool_name_ t' = pool_name_ t →
  no_new_named name h (<[p := t']> h).
Proof.
  intros Hp Hn r tr Hr Hname. destruct (decide (r = p)) as [->|Hne].
  - rewrite lookup_insert_eq in Hr. injection Hr as <-. exists t. split; congruence.
  - rewrite lookup_insert_ne in Hr by done. by exists tr.
Qed.

Lemma no_new_named_insert_other name h p t' :
  pool_name_ t' ≠ name → no_new_named name h (<[p := t']> h).
Proof.
  intros Hn r tr Hr Hname. destruct (decide (r = p)) as [->|Hne].
  - rewrite lookup_insert_eq in Hr. injection Hr as <-. done.
  - rewrite lookup_insert_ne in Hr by done. by exists tr.
Qed.

Lemma pool_interned_frame name tp s s' :
  pool_to_mem_trackers_ s' = pool_to_mem_trackers_ s →
  no_new_named name (heap s) (heap s') →
  pool_interned name tp s → pool_interned name tp s'.
Proof.
  intros Hp Hnn [Hreg Honly]. split; [by rewrite Hp|].
  intros p t' Hp' Hname. destruct (Hnn p t' Hp' Hname) as (t & Ht & Hn).
  by apply (Honly p t).
Qed.

Lemma MemTracker_new_no_new_named name byte_limit label parent luiz s this s' :
  name ≠ "" → wf_process s →
  MemTracker_new byte_limit label parent luiz s = Some (this, s') →
  no_new_named name (heap s) (heap s') ∧
  pool_to_mem_trackers_ s' = pool_to_mem_trackers_ s.
Proof.
  intros Hname Hwf Hnew.
  destruct (MemTracker_new_lookup _ _ _ _ _ _ _ Hwf Hnew)
    as (-> & _ & (t & Ht & _ & _ & _ & _ & _ & _ & Hpn & _) & Hother & Hparent
        & _ & _ & _ & Hp & _).
  split; [|done]. intros p t' Hp' Hn.
  destruct (decide (p = next_ptr s)) as [->|Hne].
  { rewrite Ht in Hp'. injection Hp' as <-. congruence. }
  destruct (decide (parent = Some p)) as [Hpp|Hpp].
  - destruct (Hparent p Hpp) as (_ & pt & Hpt & Hpt'). rewrite Hpt' in Hp'.
    injection Hp' as <-. by exists pt.
  - rewrite Hother in Hp' by done. by exists t'.
Qed.

Lemma UnregisterFromParent_no_new_named name this s s' :
  wf_process s →
  UnregisterFromParent this s = Some s' →
  no_new_named name (heap s) (heap s') ∧
  pool_to_mem_trackers_ s' = pool_to_mem_trackers_ s.
Proof.
  intros Hwf H.
  destruct (UnregisterFromParent_inv _ _ _ Hwf H)
    as (t & p & pt & x & Ht & Hpar & Hp & Hne & Hit & Hx & ->). simpl.
  split; [|done].
  eapply no_new_named_trans;
    [|apply (no_new_named_insert_same _ _ this t); [by rewrite lookup_insert_ne|done]].
  by apply (no_new_named_insert_same _ _ p pt).
Qed.

Lemma MemTracker_delete_pool_interned name tp this s s' :
  wf_process s → pool_interned name tp s →
  MemTracker_delete this s = Some s' →
  is_Some (heap s' !! tp) → pool_interned name tp s'.
Proof.
  unfold MemTracker_delete. intros Hwf Hint H Hlive.
  destruct (heap s !! this) as [t|] eqn:Ht; [|done]. simpl in H.
  destruct (if auto_unregister_ t then _ else _) as [s1|] eqn:Hs1; [|done].
  simpl in H. injection H as <-. simpl in *.
  assert (this ≠ tp) as Hne.
  { intros ->. rewrite lookup_delete_eq in Hlive. by destruct Hlive. }
  assert (no_new_named name (heap s) (heap s1) ∧
          pool_to_mem_trackers_ s1 = pool_to_mem_trackers_ s) as [Hnn Hp].
  { destruct (auto_unregister_ t).
    - by eapply UnregisterFromParent_no_new_named.
    - injection Hs1 as <-. split; [apply no_new_named_refl|done]. }
  destruct (pool_interned_frame name tp s s1 Hp Hnn Hint) as [Hreg Honly].
  destruct Hint as [_ Honly0].
  split; simpl.
  - rewrite lookup_delete_ne; [done|]. intros Heq. apply Hne.
    by apply (Honly0 this t).
  - intros p t' Hp' Hn. apply lookup_delete_Some in Hp' as [_ Hp'].
    by apply (Honly p t').
Qed.

Lemma exec_pool_interned physical_mem pp print_id gc_call name tp op s s' :
  name ≠ "" → wf_process s → pool_interned name tp s →
  exec physical_mem pp print_id gc_call op s = Some s' →
  is_Some (heap s' !! tp) → pool_interned name tp s'.
Proof.
  intros Hname Hwf Hint H Hlive. destruct op; simpl in H.
  - destruct (MemTracker_new _ _ _ _ s) as [[this s1]|] eqn:E; [|done].
    injection H as <-.
    destruct (MemTracker_new_no_new_named name _ _ _ _ _ _ _ Hname Hwf E) as [Hnn Hp].
    by apply (pool_interned_frame name tp s).
  - destruct (MemTracker_new_metric _ _ _ s) as [[this s1]|] eqn:E; [|done].
    injection H as <-. revert E.
    unfold MemTracker_new_metric, allocate, Init. simpl. intros Hnew.
    rewrite lookup_insert_eq in Hnew. simpl in Hnew.
    match type of Hnew with context [Init_loop ?f ?h ?p ?a ?l] =>
      destruct (Init_loop f h p a l) as [[all lim]|] eqn:Hloop end; [|done].
    simpl in Hnew. injection Hnew as <- <-.
    apply (pool_interned_frame name tp s); [done| |done]. simpl.
    rewrite insert_insert_eq. apply no_new_named_insert_other. simpl. congruence.
  - unfold AddGcFunction in H.
    destruct (heap s !! this) as [t|] eqn:Ht; [|done]. simpl in H. injection H as <-.
    apply (pool_interned_frame name tp s); [done| |done]. simpl.
    by apply (no_new_named_insert_same _ _ this t).
  - destruct (UnregisterFromParent_no_new_named name _ _ _ Hwf H) as [Hnn Hp].
    by apply (pool_interned_frame name tp s).
  - by eapply MemTracker_delete_pool_interned.
  - unfold shared_ptr_release in H.
    destruct (use_count s !! this) as [[|[|n]]|]; simpl in H; try done.
    + destruct (MemTracker_delete this s) as [s1|] eqn:Hd; [|done]. simpl in H.
      injection H as <-. simpl in Hlive.
      pose proof (MemTracker_delete_pool_interned _ _ _ _ _ Hwf Hint Hd Hlive) as Hi.
      by apply (pool_interned_frame name tp s1); [| apply no_new_named_refl|].
    + injection H as <-.
      by apply (pool_interned_frame name tp s); [| apply no_new_named_refl|].
  - destruct (GetRequestPoolMemTracker _ _ s) as [[r s1]|] eqn:E; [|done].
    injection H as <-. unfold GetRequestPoolMemTracker in E.
    destruct (pool_to_mem_trackers_ s !! pool_name) as [tr|] eqn:Hpool.
    { by injection E as <- <-. }
    destruct parent as [q|]; [|by injection E as <- <-].
    destruct (MemTracker_new _ _ _ _ s) as [[tr sN]|] eqn:Hnew; [|done]. simpl in E.
    destruct (heap sN !! tr) as [t|] eqn:Ht; [|done]. simpl in E. injection E as <- <-.
    destruct (MemTracker_new_no_new_named name _ _ _ _ _ _ _ Hname Hwf Hnew) as [Hnn Hp].
    destruct (pool_interned_frame name tp s sN Hp Hnn Hint) as [Hreg Honly].
    assert (pool_name ≠ name) as Hne.
    { intros ->. destruct Hint as [Hreg0 _]. congruence. }
    split; simpl.
    + by rewrite lookup_insert_ne.
    + intros p t' Hp' Hn. destruct (decide (p = tr)) as [->|Hpt].
      * rewrite lookup_insert_eq in Hp'. injection Hp' as <-. done.
      * rewrite lookup_insert_ne in Hp' by done. by apply (Honly p t').
  - destruct (GetQueryMemTracker _ _ _ _ _ _ s) as [[r s1]|] eqn:E; [|done].
    injection H as <-. unfold GetQueryMemTracker in E.
    destruct (log_query_limit_heap physical_mem pp byte_limit s)
      as (Hh & Hn & _ & _ & Hp0 & _).
    set (s0 := log_query_limit physical_mem pp byte_limit s) in *.
    assert (wf_process s0) as Hwf0 by (unfold wf_process; by rewrite Hh, Hn).
    assert (pool_interned name tp s0) as Hint0.
    { apply (pool_interned_frame name tp s); [done| |done].
      rewrite Hh. apply no_new_named_refl. }
    clearbody s0.
    destruct (request_to_mem_trackers_ s0 !! id) as [w|].
    { injection E as E. unfold weak_ptr_lock in E.
      by destruct (use_count s0 !! w); injection E as <- <-. }
    destruct (MemTracker_new _ _ _ _ s0) as [[tr sN]|] eqn:Hnew; [|done]. simpl in E.
    destruct (heap sN !! tr) as [t|] eqn:Ht; [|done]. simpl in E. injection E as <- <-.
    destruct (MemTracker_new_no_new_named name _ _ _ _ _ _ _ Hname Hwf0 Hnew)
      as [Hnn Hp].
    destruct (pool_interned_frame name tp s0 sN Hp Hnn Hint0) as [Hreg Honly].
    split; simpl; [done|].
    intros p t' Hp' Hn'. destruct (decide (p = tr)) as [->|Hpt].
    + rewrite lookup_insert_eq in Hp'. injection Hp' as <-. simpl in Hn'.
      by apply (Honly tr t).
    + rewrite lookup_insert_ne in Hp' by done. by apply (Honly p t').
  - unfold RegisterMetrics in H.
    destruct (heap s !! this) as [t|] eqn:Ht; [|done]. simpl in H. injection H as <-.
    apply (pool_interned_frame name tp s); [done| |done]. simpl.
    by apply (no_new_named_insert_same _ _ this t).
  - unfold RefreshConsumptionFromMetric in H.
    destruct (heap s !! this) as [t|]; [|done]. simpl in H.
    destruct (consumption_metric_ t); [|done]. simpl in H. by injection H as <-.
  - destruct (GcMemory _ _ _ s) as [[? ?]|] eqn:E; [|done]. injection H as <-.
    unfold GcMemory in E.
    case_bool_decide; [by injection E as <- <-|].
    destruct (heap s !! this) as [t|]; [|done]. simpl in E.
    by case_bool_decide; injection E as <- <-.
  - by injection H as <-.
Qed.

(** X23: a pool tracker stays registered for as long as it lives: from the
    call that creates the tracker of a pool, whose name is not empty, every
    [GetRequestPoolMemTracker] for that name returns that one tracker,
    whatever parent is passed and whatever other operations ran in between,
    until the tracker is destroyed.  Destructors of other trackers erase
    only the empty name. *)
Theorem GetRequestPoolMemTracker_same_instance_while_alive physical_mem pp print_id
    gc_call pool_name q s l :
  pool_name ≠ "" → wf_process s → ancestor_chain (heap s) q l →
  pool_to_mem_trackers_ s !! pool_name = None →
  (∀ p t, heap s !! p = Some t → pool_name_ t ≠ pool_name) →
  ∃ tracker s1,
    GetRequestPoolMemTracker pool_name (Some q) s = Some (Some tracker, s1) ∧
    ∀ ops s2 parent',
      exec_all physical_mem pp print_id gc_call ops s1 = Some s2 →
      is_Some (heap s2 !! tracker) →
      GetRequestPoolMemTracker pool_name parent' s2 = Some (Some tracker, s2).
Proof.
  intros Hname Hwf Hchain Hreg Hnone.
  destruct (GetRequestPoolMemTracker_creates pool_name q s l Hwf Hchain Hreg)
    as (s1 & t & Hget & _ & Ht & _ & _ & Hpn & _ & Hmap).
  exists (next_ptr s), s1. split; [done|].
  assert (wf_process s1) as Hwf1.
  { by destruct (GetRequestPoolMemTracker_step _ _ _ _ _ Hget Hwf). }
  assert (pool_interned pool_name (next_ptr s) s1) as Hint.
  { split; [by rewrite Hmap, lookup_insert_eq|].
    intros p t' Hp' Hn. destruct (decide (p = next_ptr s)) as [->|Hne]; [done|].
    exfalso. unfold GetRequestPoolMemTracker in Hget. rewrite Hreg in Hget.
    destruct (MemTracker_new _ _ _ _ s) as [[tr sN]|] eqn:Hnew; [|done].
    simpl in Hget.
    destruct (heap sN !! tr) as [tN|] eqn:HtN; [|done]. simpl in Hget.
    injection Hget as -> <-. simpl in Hp'. rewrite lookup_insert_ne in Hp' by done.
    destruct (MemTracker_new_no_new_named pool_name _ _ _ _ _ _ _ Hname Hwf Hnew)
      as [Hnn _].
    destruct (Hnn p t' Hp' Hn) as (t0 & Ht0 & Hn0). by apply (Hnone p t0). }
  assert (is_Some (heap s1 !! next_ptr s)) as Hlive by (by eexists).
  clear Hget Ht Hmap.
  intros ops s2 parent' Hexec Hlive2.
  assert (pool_interned pool_name (next_ptr s) s2) as [Hreg2 _].
  { revert s1 Hwf1 Hlive Hint Hexec.
    induction ops as [|op ops IH]; simpl; intros s1 Hwf1 Hlive Hint Hexec.
    { by injection Hexec as <-. }
    destruct (exec _ _ _ _ op s1) as [sm|] eqn:E; [|done]. simpl in Hexec.
    destruct (exec_step _ _ _ _ _ _ _ E Hwf1) as (Hwfm & Hnm & _).
    destruct (exec_all_step _ _ _ _ _ _ _ Hexec Hwfm) as (_ & _ & Hp).
    assert (next_ptr s < next_ptr sm) as Hlt.
    { destruct Hlive as [t1 Ht1]. destruct (Hwf1 _ t1 Ht1). lia. }
    destruct Hlive2 as [t' Ht'].
    destruct (Hp _ t' Hlt Ht') as (tm & Htm & _).
    apply (IH sm); [done|by eexists| |done].
    apply (exec_pool_interned physical_mem pp print_id gc_call pool_name (next_ptr s)
             op s1 sm); [done|done|done|done|by eexists]. }
  unfold GetRequestPoolMemTracker. by rewrite Hreg2.
Qed.

(** ** Runs that free no address still in use *)

Lemma is_Some_insert (h : gmap ptr MemTracker) p t c :
  is_Some (h !! c) → is_Some (<[p := t]> h !! c).
Proof.
  intros H. destruct (decide (c = p)) as [->|Hne].
  - rewrite lookup_insert_eq. by eexists.
  - by rewrite lookup_insert_ne.
Qed.

(** An update of a tracker that keeps its parent and adds no child keeps
    the child lists free of destroyed trackers and the parents live. *)
Lemma tidy_insert_sub h p t t' :
  h !! p = Some t → parent_ t' = parent_ t →
  (∀ c, c ∈ child_trackers_ t' → c ∈ child_trackers_ t) →
  no_dangling_child h ∧ live_parents h →
  no_dangling_child (<[p := t']> h) ∧ live_parents (<[p := t']> h).
Proof.
  intros Hp Hpar Hsub [Hnd Hlp]. split.
  - intros r tr c Hr Hc. apply is_Some_insert.
    destruct (decide (r = p)) as [->|Hne].
    + rewrite lookup_insert_eq in Hr. injection Hr as <-.
      apply (Hnd p t c Hp). by apply Hsub.
    + rewrite lookup_insert_ne in Hr by done. by apply (Hnd r tr c).
  - intros r tr q Hr Hq. apply is_Some_insert.
    destruct (decide (r = p)) as [->|Hne].
    + rewrite lookup_insert_eq in Hr. injection Hr as <-.
      apply (Hlp p t q Hp). congruence.
    + rewrite lookup_insert_ne in Hr by done. by apply (Hlp r tr q).
Qed.

Lemma tidy_insert_root h n t :
  child_trackers_ t = [] → parent_ t = None →
  no_dangling_child h ∧ live_parents h →
  no_dangling_child (<[n := t]> h) ∧ live_parents (<[n := t]> h).
Proof.
  intros Hcs Hpar [Hnd Hlp]. split.
  - intros r tr c Hr Hc. apply is_Some_insert.
    destruct (decide (r = n)) as [->|Hne].
    + rewrite lookup_insert_eq in Hr. injection Hr as <-.
      rewrite Hcs in Hc. by apply elem_of_nil in Hc.
    + rewrite lookup_insert_ne in Hr by done. by apply (Hnd r tr c).
  - intros r tr q Hr Hq. apply is_Some_insert.
    destruct (decide (r = n)) as [->|Hne].
    + rewrite lookup_insert_eq in Hr. injection Hr as <-. congruence.
    + rewrite lookup_insert_ne in Hr by done. by apply (Hlp r tr q).
Qed.

Lemma tidy_delete h this :
  (∀ p t, h !! p = Some t → p ≠ this →
     (this ∉ child_trackers_ t) ∧ parent_ t ≠ Some this) →
  no_dangling_child h ∧ live_parents h →
  no_dangling_child (delete this h) ∧ live_parents (delete this h).
Proof.
  intros Hfree [Hnd Hlp]. split.
  - intros r tr c Hr Hc. apply lookup_delete_Some in Hr as [Hne Hr].
    destruct (Hfree r tr Hr (not_eq_sym Hne)) as [Hnin _].
    rewrite lookup_delete_ne; [by apply (Hnd r tr c)|]. by intros <-.
  - intros r tr q Hr Hq. apply lookup_delete_Some in Hr as [Hne Hr].
    destruct (Hfree r tr Hr (not_eq_sym Hne)) as [_ Hpar].
    rewrite lookup_delete_ne; [by apply (Hlp r tr q)|]. intros <-. by apply Hpar.
Qed.

Lemma MemTracker_new_tidy byte_limit label parent luiz s this s' :
  wf_process s →
  MemTracker_new byte_limit label parent luiz s = Some (this, s') →
  no_dangling_child (heap s) ∧ live_parents (heap s) →
  no_dangling_child (heap s') ∧ live_parents (heap s').
Proof.
  intros Hwf Hnew [Hnd Hlp].
  pose proof (MemTracker_new_keeps_names _ _ _ _ _ _ _ Hwf Hnew) as Hk.
  assert (∀ c, is_Some (heap s !! c) → is_Some (heap s' !! c)) as Hlive.
  { intros c [tc Htc]. destruct (Hk c tc Htc) as (tc' & Htc' & _). by eexists. }
  destruct (MemTracker_new_lookup _ _ _ _ _ _ _ Hwf Hnew)
    as (-> & _ & (t & Ht & Hpar & Hcs & _) & Hother & Hparent & _).
  split.
  - intros r tr c Hr Hc. destruct (decide (r = next_ptr s)) as [->|Hne].
    { rewrite Ht in Hr. injection Hr as <-. rewrite Hcs in Hc.
      by apply elem_of_nil in Hc. }
    destruct (decide (parent = Some r)) as [Hpr|Hpr].
    + destruct (Hparent r Hpr) as (_ & pt & Hpt & Hpt'). rewrite Hpt' in Hr.
      injection Hr as <-. simpl in Hc. apply elem_of_app in Hc as [Hc|Hc].
      * apply Hlive. by apply (Hnd r pt c).
      * apply list_elem_of_singleton in Hc as ->. by eexists.
    + rewrite Hother in Hr by done. apply Hlive. by apply (Hnd r tr c).
  - intros r tr q Hr Hq. destruct (decide (r = next_ptr s)) as [->|Hne].
    { rewrite Ht in Hr. injection Hr as <-. rewrite Hpar in Hq.
      destruct (Hparent q Hq) as (_ & pt & _ & Hpt'). by eexists. }
    apply Hlive. destruct (decide (parent = Some r)) as [Hpr|Hpr].
    + destruct (Hparent r Hpr) as (_ & pt & Hpt & Hpt'). rewrite Hpt' in Hr.
      injection Hr as <-. by apply (Hlp r pt q).
    + rewrite Hother in Hr by done. by apply (Hlp r tr q).
Qed.

Lemma UnregisterFromParent_tidy this s s' :
  wf_process s →
  UnregisterFromParent this s = Some s' →
  no_dangling_child (heap s) ∧ live_parents (heap s) →
  no_dangling_child (heap s') ∧ live_parents (heap s').
Proof.
  intros Hwf H Htidy.
  destruct (UnregisterFromParent_inv _ _ _ Hwf H)
    as (t & p & pt & x & Ht & Hpar & Hp & Hne & Hit & Hx & ->). simpl.
  apply (tidy_insert_sub _ this t); [by rewrite lookup_insert_ne|done|done|].
  apply (tidy_insert_sub _ p pt); [done|done| |done].
  intros c Hc. simpl in Hc. by apply list_elem_of_filter in Hc as [_ Hc].
Qed.

Lemma MemTracker_delete_tidy this s s' :
  wf_process s → wf_children (next_ptr s) (heap s) →
  orderly_destroy this s →
  MemTracker_delete this s = Some s' →
  no_dangling_child (heap s) ∧ live_parents (heap s) →
  no_dangling_child (heap s') ∧ live_parents (heap s').
Proof.
  intros Hwf Hwfc [Hown Hleaf] Hdel Htidy.
  unfold MemTracker_delete in Hdel.
  destruct (heap s !! this) as [t|] eqn:Ht; [|done]. simpl in Hdel.
  destruct (auto_unregister_ t) eqn:Hau.
  - destruct (UnregisterFromParent this s) as [s1|] eqn:Hun; [|done].
    simpl in Hdel. injection Hdel as <-. simpl.
    pose proof (UnregisterFromParent_tidy _ _ _ Hwf Hun Htidy) as Htidy1.
    destruct (UnregisterFromParent_inv _ _ _ Hwf Hun)
      as (t0 & p & pt & x & Ht0 & Hpar & Hp & Hne & Hit & Hx & ->). simpl in *.
    rewrite Ht in Ht0. injection Ht0 as <-.
    destruct (Hwfc this t Ht) as (_ & _ & Hself).
    destruct (Hself x Hit) as (-> & _). clear Hself.
    apply tidy_delete; [|done].
    intros r tr Hr Hrt. rewrite lookup_insert_ne in Hr by done.
    destruct (decide (r = p)) as [->|Hrp].
    + rewrite lookup_insert_eq in Hr. injection Hr as <-. simpl. split.
      * intros Hin. apply list_elem_of_filter in Hin as [Hin _]. by apply Hin.
      * by apply (Hleaf p pt).
    + rewrite lookup_insert_ne in Hr by done. split; [|by apply (Hleaf r tr)].
      intros Hin. destruct (Hwfc r tr Hr) as (_ & Hch & _).
      destruct (Hch this Hin) as [_ Hlive].
      destruct (Hlive t Ht) as [Hpr _]. congruence.
  - simpl in Hdel. injection Hdel as <-. simpl.
    destruct (Hown t eq_refl) as [?|Hit]; [congruence|].
    apply tidy_delete; [|done].
    intros r tr Hr Hrt. split; [|by apply (Hleaf r tr)].
    intros Hin. destruct (Hwfc r tr Hr) as (_ & Hch & _).
    destruct (Hch this Hin) as [_ Hlive].
    destruct (Hlive t Ht) as [_ Hit']. congruence.
Qed.

Lemma exec_tidy physical_mem pp print_id gc_call op s s' :
  wf_process s → wf_children (next_ptr s) (heap s) →
  (∀ this, destroyed_by op s = Some this → orderly_destroy this s) →
  exec physical_mem pp print_id gc_call op s = Some s' →
  no_dangling_child (heap s) ∧ live_parents (heap s) →
  no_dangling_child (heap s') ∧ live_parents (heap s').
Proof.
  destruct op; simpl; intros Hwf Hwfc Hord H Htidy.
  - destruct (MemTracker_new _ _ _ _ s) as [[? ?]|] eqn:E; [|done].
    injection H as <-. by eapply MemTracker_new_tidy.
  - destruct (MemTracker_new_metric _ _ _ s) as [[this s1]|] eqn:E; [|done].
    injection H as <-. revert E.
    unfold MemTracker_new_metric, allocate, Init. simpl. intros Hnew.
    rewrite lookup_insert_eq in Hnew. simpl in Hnew.
    match type of Hnew with context [Init_loop ?f ?h ?p ?a ?l] =>
      destruct (Init_loop f h p a l) as [[all lim]|] eqn:Hloop end; [|done].
    simpl in Hnew. injection Hnew as <- <-. simpl.
    rewrite insert_insert_eq. by apply tidy_insert_root.
  - unfold AddGcFunction in H.
    destruct (heap s !! this) as [t|] eqn:Ht; [|done]. simpl in H. injection H as <-.
    simpl. by apply (tidy_insert_sub _ this t).
  - by eapply UnregisterFromParent_tidy.
  - apply (MemTracker_delete_tidy this s s'); [done|done| |done|done].
    by apply Hord.
  - unfold shared_ptr_release in H.
    destruct (use_count s !! this) as [[|[|n]]|] eqn:Hcount; simpl in H; try done.
    + destruct (MemTracker_delete this s) as [s1|] eqn:Hd; [|done]. simpl in H.
      injection H as <-. simpl.
      apply (MemTracker_delete_tidy this s s1); [done|done| |done|done].
      apply Hord. by rewrite bool_decide_eq_true_2.
    + by injection H as <-.
  - destruct (GetRequestPoolMemTracker _ _ s) as [[r s1]|] eqn:E; [|done].
    injection H as <-. unfold GetRequestPoolMemTracker in E.
    destruct (pool_to_mem_trackers_ s !! pool_name) as [tr|].
    { by injection E as <- <-. }
    destruct parent as [q|]; [|by injection E as <- <-].
    destruct (MemTracker_new _ _ _ _ s) as [[tr sN]|] eqn:Hnew; [|done]. simpl in E.
    destruct (heap sN !! tr) as [t|] eqn:Ht; [|done]. simpl in E. injection E as <- <-.
    simpl. apply (tidy_insert_sub _ tr t); [done|done|done|].
    by eapply MemTracker_new_tidy.
  - destruct (GetQueryMemTracker _ _ _ _ _ _ s) as [[r s1]|] eqn:E; [|done].
    injection H as <-. unfold GetQueryMemTracker in E.
    destruct (log_query_limit_heap physical_mem pp byte_limit s) as (Hh & Hn & _).
    set (s0 := log_query_limit physical_mem pp byte_limit s) in *.
    assert (wf_process s0) as Hwf0 by (unfold wf_process; by rewrite Hh, Hn).
    rewrite <- Hh in Htidy. clearbody s0.
    destruct (request_to_mem_trackers_ s0 !! id) as [w|].
    { injection E as E. unfold weak_ptr_lock in E.
      by destruct (use_count s0 !! w); injection E as <- <-. }
    destruct (MemTracker_new _ _ _ _ s0) as [[tr sN]|] eqn:Hnew; [|done]. simpl in E.
    destruct (heap sN !! tr) as [t|] eqn:Ht; [|done]. simpl in E. injection E as <- <-.
    simpl. apply (tidy_insert_sub _ tr t); [done|done|done|].
    by eapply MemTracker_new_tidy.
  - unfold RegisterMetrics in H.
    destruct (heap s !! this) as [t|] eqn:Ht; [|done]. simpl in H. injection H as <-.
    simpl. by apply (tidy_insert_sub _ this t).
  - unfold RefreshConsumptionFromMetric in H.
    destruct (heap s !! this) as [t|]; [|done]. simpl in H.
    destruct (consumption_metric_ t); [|done]. simpl in H. by injection H as <-.
  - destruct (GcMemory _ _ _ s) as [[? ?]|] eqn:E; [|done]. injection H as <-.
    unfold GcMemory in E.
    case_bool_decide; [by injection E as <- <-|].
    destruct (heap s !! this) as [t|]; [|done]. simpl in E.
    by case_bool_decide; injection E as <- <-.
  - by injection H as <-.
Qed.

Lemma orderly_run_invariants physical_mem pp print_id gc_call ops s s' :
  wf_process s → wf_children (next_ptr s) (heap s) →
  no_dangling_child (heap s) ∧ live_parents (heap s) →
  exec_all physical_mem pp print_id gc_call ops s = Some s' →
  orderly_run physical_mem pp print_id gc_call ops s →
  wf_children (next_ptr s') (heap s') ∧
  no_dangling_child (heap s') ∧ live_parents (heap s').
Proof.
  revert s. induction ops as [|op ops IH]; simpl; intros s Hwf Hwfc Htidy H Hrun.
  - by injection H as <-.
  - destruct Hrun as [Hord Hrun].
    destruct (exec _ _ _ _ op s) as [s1|] eqn:E; [|done]. simpl in H.
    apply (IH s1); [|by eapply exec_children|by eapply exec_tidy|done|done].
    by destruct (exec_step _ _ _ _ _ _ _ E Hwf).
Qed.

(** X3: in a run from the start of the program that destroys a tracker only
    when nothing refers to it any more, the tree of trackers is consistent
    at every moment: no list of children names a tracker twice, every
    tracker a list names is live, is a child of the owner of the list and
    has an iterator that designates its own node, the iterator of a tracker
    is [end()] or designates its own node in the list of its parent, and
    parents outlive their children.  On such a run which address a new
    tracker gets is of no consequence. *)
Theorem child_lists_consistent physical_mem pp print_id gc_call ops s :
  exec_all physical_mem pp print_id gc_call ops empty_process = Some s →
  orderly_run physical_mem pp print_id gc_call ops empty_process →
  tree_consistent (heap s).
Proof.
  intros Hexec Hrun.
  assert (no_dangling_child (heap empty_process) ∧ live_parents (heap empty_process))
    as Hstart by (split; intros p t; intros; done).
  destruct (orderly_run_invariants physical_mem pp print_id gc_call ops
              empty_process s wf_empty_process wf_children_empty_process Hstart
              Hexec Hrun) as (Hwfc & Hnd & Hlp).
  intros p t Hp. destruct (Hwfc p t Hp) as (Hnodup & Hch & Hit).
  split; [done|]. split; [|split].
  - intros c Hc. destruct (Hnd p t c Hp Hc) as [tc Htc].
    destruct (Hch c Hc) as [_ Hlive]. exists tc. split; [done|]. by apply Hlive.
  - intros x Hx. destruct (Hit x Hx) as (-> & q & Hq & Hin). split; [done|].
    destruct (Hlp p t q Hp Hq) as [pt Hpt]. exists q, pt.
    split; [done|]. split; [done|]. by apply Hin.
  - intros q Hq. by apply (Hlp p t q).
Qed.

(** ** What stays fixed *)

(** An operation that does not destroy a tracker leaves it live. *)
Lemma exec_spares physical_mem pp print_id gc_call op s s' this :
  wf_process s →
  exec physical_mem pp print_id gc_call op s = Some s' →
  destroyed_by op s ≠ Some this →
  is_Some (heap s !! this) → is_Some (heap s' !! this).
Proof.
  intros Hwf H Hspare [t Ht].
  assert (∀ s1, keeps_names (heap s) (heap s1) → is_Some (heap s1 !! this)) as Hkeep.
  { intros s1 Hk. destruct (Hk this t Ht) as (t' & Ht' & _). by eexists. }
  destruct op; simpl in H, Hspare.
  - destruct (MemTracker_new _ _ _ _ s) as [[? ?]|] eqn:E; [|done].
    injection H as <-. apply Hkeep. by eapply MemTracker_new_keeps_names.
  - destruct (MemTracker_new_metric _ _ _ s) as [[this' s1]|] eqn:E; [|done].
    injection H as <-. revert E.
    unfold MemTracker_new_metric, allocate, Init. simpl. intros Hnew.
    rewrite lookup_insert_eq in Hnew. simpl in Hnew.
    match type of Hnew with context [Init_loop ?f ?h ?p ?a ?l] =>
      destruct (Init_loop f h p a l) as [[all lim]|] eqn:Hloop end; [|done].
    simpl in Hnew. injection Hnew as <- <-. simpl.
    apply is_Some_insert, is_Some_insert. by eexists.
  - unfold AddGcFunction in H.
    destruct (heap s !! this0) as [t0|]; [|done]. simpl in H. injection H as <-.
    simpl. apply is_Some_insert. by eexists.
  - apply Hkeep. by destruct (UnregisterFromParent_keeps_names _ _ _ Hwf H).
  - unfold MemTracker_delete in H.
    destruct (heap s !! this0) as [t0|]; [|done]. simpl in H.
    destruct (if auto_unregister_ t0 then _ else _) as [s1|] eqn:Hs1; [|done].
    simpl in H. injection H as <-. simpl.
    rewrite lookup_delete_ne by congruence.
    destruct (auto_unregister_ t0).
    + apply Hkeep. by destruct (UnregisterFromParent_keeps_names _ _ _ Hwf Hs1).
    + injection Hs1 as <-. by eexists.
  - unfold shared_ptr_release in H.
    destruct (use_count s !! this0) as [[|[|n]]|] eqn:Hcount; simpl in H; try done.
    + rewrite bool_decide_eq_true_2 in Hspare by done.
      unfold MemTracker_delete in H.
      destruct (heap s !! this0) as [t0|]; [|done]. simpl in H.
      destruct (if auto_unregister_ t0 then _ else _) as [s1|] eqn:Hs1; [|done].
      simpl in H. injection H as <-. simpl.
      rewrite lookup_delete_ne by congruence.
      destruct (auto_unregister_ t0).
      * apply Hkeep. by destruct (UnregisterFromParent_keeps_names _ _ _ Hwf Hs1).
      * injection Hs1 as <-. by eexists.
    + injection H as <-. by eexists.
  - destruct (GetRequestPoolMemTracker _ _ s) as [[r s1]|] eqn:E; [|done].
    injection H as <-. unfold GetRequestPoolMemTracker in E.
    destruct (pool_to_mem_trackers_ s !! pool_name) as [tr|].
    { injection E as <- <-. by eexists. }
    destruct parent as [q|]; [|injection E as <- <-; by eexists].
    destruct (MemTracker_new _ _ _ _ s) as [[tr sN]|] eqn:Hnew; [|done]. simpl in E.
    destruct (heap sN !! tr) as [tN|] eqn:HtN; [|done]. simpl in E.
    injection E as <- <-. simpl. apply is_Some_insert.
    apply Hkeep. by eapply MemTracker_new_keeps_names.
  - destruct (GetQueryMemTracker _ _ _ _ _ _ s) as [[r s1]|] eqn:E; [|done].
    injection H as <-. unfold GetQueryMemTracker in E.
    destruct (log_query_limit_heap physical_mem pp byte_limit s) as (Hh & Hn & _).
    set (s0 := log_query_limit physical_mem pp byte_limit s) in *.
    assert (wf_process s0) as Hwf0 by (unfold wf_process; by rewrite Hh, Hn).
    rewrite <- Hh in Hkeep, Ht. clearbody s0.
    destruct (request_to_mem_trackers_ s0 !! id) as [w|].
    { injection E as E. unfold weak_ptr_lock in E.
      destruct (use_count s0 !! w); injection E as <- <-; by eexists. }
    destruct (MemTracker_new _ _ _ _ s0) as [[tr sN]|] eqn:Hnew; [|done]. simpl in E.
    destruct (heap sN !! tr) as [tN|] eqn:HtN; [|done]. simpl in E.
    injection E as <- <-. simpl. apply is_Some_insert.
    apply Hkeep. by eapply MemTracker_new_keeps_names.
  - unfold RegisterMetrics in H.
    destruct (heap s !! this0) as [t0|]; [|done]. simpl in H. injection H as <-.
    simpl. apply is_Some_insert. by eexists.
  - unfold RefreshConsumptionFromMetric in H.
    destruct (heap s !! this0) as [t0|]; [|done]. simpl in H.
    destruct (consumption_metric_ t0); [|done]. simpl in H. injection H as <-.
    by eexists.
  - destruct (GcMemory _ _ _ s) as [[? ?]|] eqn:E; [|done]. injection H as <-.
    unfold GcMemory in E.
    case_bool_decide; [injection E as <- <-; by eexists|].
    destruct (heap s !! this0) as [t0|]; [|done]. simpl in E.
    case_bool_decide; injection E as <- <-; by eexists.
  - injection H as <-. by eexists.
Qed.

(** X12: a tracker that no operation of a run destroys is live at the end
    of the run, with the parent and the limit it had at the start: nothing
    but its destructor ends the life of a tracker, and no operation assigns
    to [parent_] or [limit_]. *)
Theorem parent_and_limit_fixed physical_mem pp print_id gc_call ops s s' this t :
  wf_process s → heap s !! this = Some t →
  exec_all physical_mem pp print_id gc_call ops s = Some s' →
  spared physical_mem pp print_id gc_call this ops s →
  ∃ t', heap s' !! this = Some t' ∧ parent_ t' = parent_ t ∧ limit_ t' = limit_ t.
Proof.
  revert s t. induction ops as [|op ops IH]; simpl; intros s t Hwf Ht H Hsp.
  - injection H as <-. by exists t.
  - destruct Hsp as [Hop Hsp].
    destruct (exec _ _ _ _ op s) as [s1|] eqn:E; [|done]. simpl in H.
    destruct (exec_step _ _ _ _ _ _ _ E Hwf) as (Hwf1 & _ & Hp).
    destruct (exec_spares _ _ _ _ _ _ _ this Hwf E Hop) as [t1 Ht1]; [by eexists|].
    assert (this < next_ptr s) as Hlt by (by destruct (Hwf this t Ht)).
    destruct (Hp this t1 Hlt Ht1) as (t0 & Ht0 & Hpar & Hlim & _).
    assert (Some t0 = Some t) as [= ->] by (rewrite <- Ht0; exact Ht).
    destruct (IH s1 t1 Hwf1 Ht1 H Hsp) as (t' & Ht' & Hpar' & Hlim').
    exists t'. split; [done|]. split; congruence.
Qed.

(** * Examples *)

Lemma exec_all_invariants physical_mem pp print_id gc_call ops s s' :
  wf_process s → wf_children (next_ptr s) (heap s) → wf_registries s →
  exec_all physical_mem pp print_id gc_call ops s = Some s' →
  wf_process s' ∧ wf_children (next_ptr s') (heap s') ∧ wf_registries s'.
Proof.
  revert s. induction ops as [|op ops IH]; simpl; intros s Hwf Hwfc Hwr H.
  - by injection H as <-.
  - destruct (exec _ _ _ _ op s) as [s1|] eqn:E; [|done]. simpl in H.
    apply (IH s1); [|by eapply exec_children|by eapply exec_registries|done].
    by destruct (exec_step _ _ _ _ _ _ _ E Hwf).
Qed.

Lemma built_invariants ops s :
  exec_all 1000 (λ _, "") (λ _, "") (λ _ m, m) ops empty_process = Some s →
  wf_process s ∧ wf_children (next_ptr s) (heap s) ∧ wf_registries s.
Proof.
  apply exec_all_invariants.
  - exact wf_empty_process.
  - exact wf_children_empty_process.
  - exact wf_registries_empty_process.
Qed.

Lemma one_tracker_built :
  exec_all 1000 (λ _, "") (λ _, "") (λ _ m, m) one_tracker_ops empty_process
  = Some one_tracker.
Proof. vm_compute. reflexivity. Qed.

Lemma query_process_built :
  exec_all 1000 (λ _, "") (λ _, "") (λ _ m, m) query_process_ops empty_process
  = Some query_process.
Proof. vm_compute. reflexivity. Qed.

Lemma running_query_built :
  exec_all 1000 (λ _, "") (λ _, "") (λ _ m, m) running_query_ops empty_process
  = Some running_query.
Proof. vm_compute. reflexivity. Qed.

Lemma wf_children_one_tracker : wf_children (next_ptr one_tracker) (heap one_tracker).
Proof. by destruct (built_invariants _ _ one_tracker_built) as (_ & ? & _). Qed.

Lemma wf_query_process : wf_process query_process.
Proof. by destruct (built_invariants _ _ query_process_built) as (? & _ & _). Qed.

Lemma wf_children_query_process :
  wf_children (next_ptr query_process) (heap query_process).
Proof. by destruct (built_invariants _ _ query_process_built) as (_ & ? & _). Qed.

Lemma wf_running_query : wf_process running_query.
Proof. by destruct (built_invariants _ _ running_query_built) as (? & _ & _). Qed.

Lemma wf_children_running_query :
  wf_children (next_ptr running_query) (heap running_query).
Proof. by destruct (built_invariants _ _ running_query_built) as (_ & ? & _). Qed.

Lemma no_dangling_child_forall h :
  map_Forall (λ _ t, Forall (λ c, is_Some (h !! c)) (child_trackers_ t)) h →
  no_dangling_child h.
Proof.
  intros H p t c Hp Hc. pose proof (H p t Hp) as Hall. simpl in Hall.
  rewrite Forall_forall in Hall. by apply Hall.
Qed.

Lemma GetPoolMemReserved_bounded_witness :
  ∃ r, GetPoolMemReserved 1000 0 query_process = Some r ∧
       (0 ≤ r ≤ Z.of_nat (length (child_trackers_ (tracker_at query_process 0%nat))) * 1000)%Z.
Proof.
  apply (GetPoolMemReserved_bounded 1000 0 query_process (tracker_at query_process 0)).
  - reflexivity.
  - lia.
  - intros c Hc. apply list_elem_of_singleton in Hc as ->.
    exists (tracker_at query_process 1). split; [reflexivity|].
    intros Hlim. vm_compute in Hlim. by destruct Hlim.
  - vm_compute. reflexivity.
Defined.

Lemma GetPoolMemReserved_after_new_query_witness :
  ∃ tracker s',
    GetQueryMemTracker 1000 (λ _, "") (λ _, "") example_query_id 100 (Some 0) one_tracker
      = Some (Some tracker, s') ∧
    GetPoolMemReserved 1000 0 s'
      = int64_add 0 (if bool_decide (100 > 0)%Z then Z.min 100 1000 else 0%Z).
Proof.
  apply (GetPoolMemReserved_after_new_query 1000 (λ _, "") (λ _, "") example_query_id
           100 0 one_tracker [0] 0).
  - exact wf_one_tracker.
  - exact one_tracker_chain.
  - reflexivity.
  - reflexivity.
Defined.

Lemma orderly_run_cons physical_mem pp print_id gc_call op ops s s1 :
  exec physical_mem pp print_id gc_call op s = Some s1 →
  (∀ this, destroyed_by op s = Some this → orderly_destroy this s) →
  orderly_run physical_mem pp print_id gc_call ops s1 →
  orderly_run physical_mem pp print_id gc_call (op :: ops) s.
Proof. intros H Hord Hrun. simpl. by rewrite H. Qed.

Lemma spared_cons physical_mem pp print_id gc_call this op ops s s1 :
  exec physical_mem pp print_id gc_call op s = Some s1 →
  destroyed_by op s ≠ Some this →
  spared physical_mem pp print_id gc_call this ops s1 →
  spared physical_mem pp print_id gc_call this (op :: ops) s.
Proof. intros H Hop Hsp. simpl. by rewrite H. Qed.

Lemma query_turnover_orderly :
  orderly_run 1000 (λ _, "") (λ _, "") (λ _ m, m) query_turnover_ops empty_process.
Proof.
  unfold query_turnover_ops, running_query_ops, one_tracker_ops.
  cbn [app].
  eapply orderly_run_cons; [vm_compute; reflexivity|intros this H; discriminate H|].
  eapply orderly_run_cons; [vm_compute; reflexivity|intros this H; discriminate H|].
  eapply orderly_run_cons; [vm_compute; reflexivity|intros this H; discriminate H|].
  eapply orderly_run_cons; [vm_compute; reflexivity| |].
  - intros this H. vm_compute in H. injection H as <-. split.
    + intros t Ht. vm_compute in Ht. injection Ht as <-. by left.
    + intros p t Hp.
      match type of Hp with ?h !! p = Some t =>
        apply (map_Forall_lookup_1 (λ _ t, parent_ t ≠ Some 2) h p t); [|exact Hp] end.
      apply (bool_decide_unpack _). vm_compute. exact I.
  - eapply orderly_run_cons; [vm_compute; reflexivity|intros this H; discriminate H|].
    exact I.
Qed.

Lemma child_lists_consistent_witness :
  ∃ s, exec_all 1000 (λ _, "") (λ _, "") (λ _ m, m) query_turnover_ops empty_process
       = Some s ∧ tree_consistent (heap s).
Proof.
  eexists. split; [vm_compute; reflexivity|].
  eapply (child_lists_consistent 1000 (λ _, "") (λ _, "") (λ _ m, m)
            query_turnover_ops).
  - vm_compute. reflexivity.
  - exact query_turnover_orderly.
Defined.

Lemma UnregisterFromParent_removes_own_node_witness :
  ∃ s' l1 l2,
    UnregisterFromParent 1 query_process = Some s' ∧
    child_trackers_ (tracker_at query_process 0) = l1 ++ 1 :: l2 ∧ (1 ∉ l1 ++ l2) ∧
    heap s' !! 0 = Some (with_child_trackers (l1 ++ l2) (tracker_at query_process 0)) ∧
    heap s' !! 1 = Some (with_child_tracker_it None (tracker_at query_process 1)) ∧
    (∀ r, r ≠ 1 → r ≠ 0 → heap s' !! r = heap query_process !! r) ∧
    s' = with_heap (heap s') query_process.
Proof.
  apply (UnregisterFromParent_removes_own_node 1 query_process
           (tracker_at query_process 1) 0 (tracker_at query_process 0) 1).
  - exact wf_query_process.
  - exact wf_children_query_process.
  - reflexivity.
  - reflexivity.
  - reflexivity.
  - reflexivity.
Defined.

Lemma new_child_then_unregister_witness :
  ∃ this s1 s2,
    MemTracker_new 100 "Query" (Some 0) true one_tracker = Some (this, s1) ∧
    child_trackers_ <$> heap s1 !! 0
      = Some (child_trackers_ (tracker_at one_tracker 0) ++ [this]) ∧
    UnregisterFromParent this s1 = Some s2 ∧
    heap s2 !! 0 = Some (tracker_at one_tracker 0) ∧
    (∀ p, p ≠ this → heap s2 !! p = heap one_tracker !! p).
Proof.
  apply (new_child_then_unregister 100 "Query" 0 true one_tracker [0]
           (tracker_at one_tracker 0)).
  - exact wf_one_tracker.
  - exact wf_children_one_tracker.
  - exact one_tracker_chain.
  - reflexivity.
Defined.

Lemma MemTracker_delete_no_dangling_witness :
  ∃ s', MemTracker_delete 2 running_query = Some s' ∧
        heap s' !! 2 = None ∧ no_dangling_child (heap s').
Proof.
  eexists. split; [vm_compute; reflexivity|].
  eapply (MemTracker_delete_no_dangling 2 running_query _ (tracker_at running_query 2)).
  - exact wf_running_query.
  - exact wf_children_running_query.
  - apply no_dangling_child_forall. apply (bool_decide_unpack _). vm_compute. exact I.
  - reflexivity.
  - left. reflexivity.
  - vm_compute. reflexivity.
Defined.

Lemma MemTracker_delete_registered_dangles_witness :
  ∃ s', MemTracker_delete 1 query_process = Some s' ∧
        heap s' !! 1 = None ∧
        heap s' !! 0 = Some (tracker_at query_process 0) ∧
        1 ∈ child_trackers_ (tracker_at query_process 0) ∧
        GetPoolMemReserved 1000 0 s' = None.
Proof.
  apply (MemTracker_delete_registered_dangles 1000 1 query_process
           (tracker_at query_process 1) 0 (tracker_at query_process 0) 1).
  - exact wf_query_process.
  - exact wf_children_query_process.
  - reflexivity.
  - reflexivity.
  - reflexivity.
  - reflexivity.
  - reflexivity.
Defined.

Lemma query_tracker_create_release_witness :
  ∃ tracker s1 s2,
    GetQueryMemTracker 1000 (λ _, "") (λ _, "") example_query_id 100 (Some 0) one_tracker
      = Some (Some tracker, s1) ∧
    shared_ptr_release tracker s1 = Some s2 ∧
    heap s2 = heap one_tracker ∧
    request_to_mem_trackers_ s2 = request_to_mem_trackers_ one_tracker ∧
    pool_to_mem_trackers_ s2 = pool_to_mem_trackers_ one_tracker ∧
    use_count s2 = delete tracker (use_count one_tracker).
Proof.
  apply (query_tracker_create_release 1000 (λ _, "") (λ _, "") example_query_id 100 0
           one_tracker [0]).
  - exact wf_one_tracker.
  - exact wf_children_one_tracker.
  - exact one_tracker_chain.
  - reflexivity.
  - reflexivity.
Defined.

Lemma registries_name_live_trackers_witness : wf_registries running_query.
Proof.
  apply (registries_name_live_trackers 1000 (λ _, "") (λ _, "") (λ _ m, m)
           running_query_ops empty_process running_query).
  - exact wf_empty_process.
  - exact wf_registries_empty_process.
  - vm_compute. reflexivity.
Defined.

Lemma GcMemory_metrics_witness :
  ∃ b s', GcMemory release_half 0 40%Z metered_tracker = Some (b, s') ∧
    let pre := current_value
                 (counter (refresh_if_metric 0 (tracker_at metered_tracker 0)
                             (mem metered_tracker)) 0) in
    if bool_decide (0 ≤ pre < 40)%Z then
      b = false ∧
      s' = with_mem (refresh_if_metric 0 (tracker_at metered_tracker 0)
                       (mem metered_tracker)) metered_tracker
    else
      metric (mem s') "mem-tracker.process.num-gcs"
        = (metric (mem metered_tracker) "mem-tracker.process.num-gcs" + 1)%Z ∧
      (Int64.in_range (pre - consumption s' 0%nat) →
       metric (mem s') "mem-tracker.process.bytes-freed-by-last-gc"
         = (pre - consumption s' 0%nat)%Z).
Proof.
  apply (GcMemory_metrics release_half 0 40%Z metered_tracker
           (tracker_at metered_tracker 0)
           "mem-tracker.process.num-gcs" "mem-tracker.process.bytes-freed-by-last-gc").
  - reflexivity.
  - reflexivity.
  - reflexivity.
  - discriminate.
  - reflexivity.
  - lia.
  - unfold Int64.in_range, Int64.half_modulus. lia.
  - vm_compute. split; [discriminate|reflexivity].
Defined.

Lemma query_spared :
  spared 1000 (λ _, "") (λ _, "") (λ _ m, m) 2
    [OpAddGcFunction 2 7; OpUnregisterFromParent 2;
     OpGetQueryMemTracker {| hi := 0; lo := 8 |} 50 (Some 1); OpSharedPtrRelease 3]
    running_query.
Proof.
  eapply spared_cons; [vm_compute; reflexivity|discriminate|].
  eapply spared_cons; [vm_compute; reflexivity|discriminate|].
  eapply spared_cons; [vm_compute; reflexivity|discriminate|].
  eapply spared_cons; [vm_compute; reflexivity|vm_compute; discriminate|].
  exact I.
Qed.

Lemma parent_and_limit_fixed_witness :
  ∃ s',
    exec_all 1000 (λ _, "") (λ _, "") (λ _ m, m)
      [OpAddGcFunction 2 7; OpUnregisterFromParent 2;
       OpGetQueryMemTracker {| hi := 0; lo := 8 |} 50 (Some 1); OpSharedPtrRelease 3]
      running_query = Some s' ∧
    ∃ t', heap s' !! 2 = Some t' ∧
          parent_ t' = parent_ (tracker_at running_query 2) ∧
          limit_ t' = limit_ (tracker_at running_query 2).
Proof.
  eexists. split; [vm_compute; reflexivity|].
  eapply (parent_and_limit_fixed 1000 (λ _, "") (λ _, "") (λ _ m, m)
            [OpAddGcFunction 2 7; OpUnregisterFromParent 2;
             OpGetQueryMemTracker {| hi := 0; lo := 8 |} 50 (Some 1);
             OpSharedPtrRelease 3]
            running_query _ 2 (tracker_at running_query 2)).
  - exact wf_running_query.
  - reflexivity.
  - vm_compute. reflexivity.
  - exact query_spared.
Defined.

Lemma one_tracker_carries_no_query_id :
  ∀ p t, heap one_tracker !! p = Some t → query_id_ t ≠ example_query_id.
Proof.
  intros p t Hp.
  apply (map_Forall_lookup_1 (λ _ t, query_id_ t ≠ example_query_id)
           (heap one_tracker) p t); [|done].
  apply (bool_decide_unpack _). vm_compute. exact I.
Qed.

Lemma one_tracker_carries_no_pool_name :
  ∀ p t, heap one_tracker !! p = Some t → pool_name_ t ≠ "default-pool".
Proof.
  intros p t Hp.
  apply (map_Forall_lookup_1 (λ _ t, pool_name_ t ≠ "default-pool")
           (heap one_tracker) p t); [|done].
  apply (bool_decide_unpack _). vm_compute. exact I.
Qed.

Lemma GetQueryMemTracker_interns_witness :
  ∃ tracker s1,
    GetQueryMemTracker 1000 (λ _, "") (λ _, "") example_query_id 100 (Some 0) one_tracker
      = Some (Some tracker, s1) ∧
    ∀ ops s2 byte_limit' parent',
      exec_all 1000 (λ _, "") (λ _, "") (λ _ m, m) ops s1 = Some s2 →
      is_Some (heap s2 !! tracker) →
      ∃ s3, GetQueryMemTracker 1000 (λ _, "") (λ _, "") example_query_id byte_limit'
              parent' s2 = Some (Some tracker, s3).
Proof.
  apply (GetQueryMemTracker_interns 1000 (λ _, "") (λ _, "") (λ _ m, m)
           example_query_id 100 (Some 0) one_tracker [0]).
  - discriminate.
  - exact wf_one_tracker.
  - exact one_tracker_chain.
  - reflexivity.
  - exact one_tracker_carries_no_query_id.
Defined.

Lemma GetQueryMemTracker_returns_live_tracker_witness :
  ∃ tracker s' t n,
    GetQueryMemTracker 1000 (λ _, "") (λ _, "") example_query_id 100 (Some 1)
      running_query = Some (Some tracker, s') ∧
    heap s' !! tracker = Some t ∧ query_id_ t = example_query_id ∧
    use_count s' !! tracker = Some (S n) ∧
    request_to_mem_trackers_ s' !! example_query_id = Some tracker.
Proof.
  apply (GetQueryMemTracker_returns_live_tracker 1000 (λ _, "") (λ _, "")
           example_query_id 100 1 running_query [1; 0]).
  - exact wf_running_query.
  - by destruct (built_invariants _ _ running_query_built) as (_ & _ & ?).
  - apply (chain_parent _ 1 (tracker_at running_query 1) 0); [reflexivity|reflexivity|].
    apply (chain_root _ 0 (tracker_at running_query 0)); reflexivity.
Defined.

Lemma GetRequestPoolMemTracker_interns_witness :
  ∃ tracker s1 t,
    GetRequestPoolMemTracker "default-pool" (Some 0) one_tracker
      = Some (Some tracker, s1) ∧
    heap s1 !! tracker = Some t ∧ limit_ t = (-1)%Z ∧ pool_name_ t = "default-pool" ∧
    parent_ t = Some 0 ∧
    GetPoolMemReserved 1000 tracker s1 = Some 0%Z ∧
    ∀ parent', GetRequestPoolMemTracker "default-pool" parent' s1
               = Some (Some tracker, s1).
Proof.
  apply (GetRequestPoolMemTracker_interns 1000 "default-pool" 0 one_tracker [0]).
  - exact wf_one_tracker.
  - exact one_tracker_chain.
  - reflexivity.
Defined.

Lemma unregister_then_delete_undefined_witness :
  ∃ s1, UnregisterFromParent 2 running_query = Some s1 ∧
        MemTracker_delete 2 s1 = None ∧
        ∀ use, shared_ptr_release 2 (with_use_count (<[2 := 1]> use) s1) = None.
Proof.
  eexists. split; [vm_compute; reflexivity|].
  eapply (unregister_then_delete_undefined 2 running_query (tracker_at running_query 2)).
  - exact wf_running_query.
  - reflexivity.
  - reflexivity.
  - vm_compute. reflexivity.
Defined.

Lemma QueryState_new_options_witness :
  ∃ qs s',
    QueryState_new (λ _ _ _ s, Some (1, s)) (λ _, "100 B")
      {| ctx_query_id := example_query_id;
         query_options := {| max_errors := 0; batch_size := 64;
                             mem_limit := Some 100%Z |} |}
      "default-pool" query_process = Some (qs, s') ∧
    max_errors (query_options (query_ctx_ qs)) = 100%Z ∧
    batch_size (query_options (query_ctx_ qs)) = 64%Z ∧
    log s' = log query_process ++
             [VLOG_QUERY "Using query memory limit from query options: 100 B"].
Proof.
  eexists _, _. split; [reflexivity|].
  match goal with |- max_errors (query_options (query_ctx_ ?q)) = _ ∧ _ ∧ log ?s1 = _ =>
    destruct (QueryState_new_options (λ _ _ _ s, Some (1, s)) (λ _, "100 B")
                {| ctx_query_id := example_query_id;
                   query_options := {| max_errors := 0; batch_size := 64;
                                       mem_limit := Some 100%Z |} |}
                "default-pool" query_process q s1)
      as (H1 & H2 & _ & _ & _ & _ & s0 & Hc & _ & Hlog) end.
  - reflexivity.
  - split; [exact H1|]. split; [exact H2|].
    injection Hc as Hs. subst s0. exact Hlog.
Defined.

Lemma RegisterMetrics_values_witness :
  ∃ s' t',
    RegisterMetrics 0 "mem-tracker.process" one_tracker = Some s' ∧
    heap s' !! 0 = Some t' ∧
    same_shape (tracker_at one_tracker 0) t' ∧ same_links (tracker_at one_tracker 0) t' ∧
    gc_functions_ t' = gc_functions_ (tracker_at one_tracker 0) ∧
    (∀ p, p ≠ 0 → heap s' !! p = heap one_tracker !! p) ∧
    counter (mem s') = counter (mem one_tracker) ∧
    (∃ gcs freed over lim,
       num_gcs_metric_ t' = Some gcs ∧ bytes_freed_by_last_gc_metric_ t' = Some freed ∧
       bytes_over_limit_metric_ t' = Some over ∧ limit_metric_ t' = Some lim ∧
       NoDup [gcs; freed; over; lim] ∧
       metric (mem s') gcs = 0%Z ∧ metric (mem s') freed = (-1)%Z ∧
       metric (mem s') over = (-1)%Z ∧
       metric (mem s') lim = limit_ (tracker_at one_tracker 0) ∧
       ∀ name, name ∉ [gcs; freed; over; lim] →
         metric (mem s') name = metric (mem one_tracker) name).
Proof.
  apply (RegisterMetrics_values 0 "mem-tracker.process" one_tracker
           (tracker_at one_tracker 0)).
  reflexivity.
Defined.

Lemma CalculateMemLimit_exact_witness :
  ∃ r, CalculateMemLimit 10 1024 = Some r ∧ Int64.in_range r ∧
       r = (if bool_decide (10 = -1)%Z then -1 else 10 * 1024)%Z ∧
       ((-1 ≤ 10)%Z → (0 ≤ 1024)%Z → (r = -1 ↔ 10 = -1)%Z).
Proof.
  apply (CalculateMemLimit_exact 10 1024).
  - unfold Int32.in_range. lia.
  - unfold Int32.in_range. lia.
Defined.

Lemma CreateQueryState_once_witness :
  ∃ e',
    CreateQueryState default_query_options counting_RuntimeState_new (λ _ w, w)
      willing_BufferedBlockMgr_Create (λ _ _ w, w) 0 10 1024 None empty_TestEnv
      = Some (Status_OK, Some 0, e') ∧
    runtime_states_ e' !! 0%Z = Some 0 ∧
    CreateQueryState default_query_options counting_RuntimeState_new (λ _ w, w)
      willing_BufferedBlockMgr_Create (λ _ _ w, w) 0 (-1) 8 None e'
      = Some (duplicate_query_id 0, None, e').
Proof.
  eexists. split; [reflexivity|].
  match goal with |- runtime_states_ ?e !! _ = _ ∧ _ =>
    destruct (CreateQueryState_once default_query_options counting_RuntimeState_new
                (λ _ w, w) willing_BufferedBlockMgr_Create (λ _ _ w, w)
                0 10 1024 None empty_TestEnv Status_OK (Some 0) e)
      as (_ & _ & H) end.
  - reflexivity.
  - reflexivity.
  - change (ok Status_OK) with true in H. cbv iota in H.
    destruct H as [H1 H2]. split; [exact H1|].
    destruct (H2 (-1)%Z 8%Z None) as [H3 _]. exact H3.
Defined.

Lemma GetPoolMemReserved_sums_queries_witness :
  ∃ s',
    exec_all 1000 (λ _, "") (λ _, "") (λ _ m, m)
      ((λ q, OpGetQueryMemTracker q.1 q.2 (Some 0)) <$>
         [({| hi := 0; lo := 1 |}, 100%Z); ({| hi := 0; lo := 2 |}, (-1)%Z);
          ({| hi := 0; lo := 3 |}, 5000%Z)]) one_tracker = Some s' ∧
    GetPoolMemReserved 1000 0 s'
      = Some (0 + foldr Z.add 0
                    (query_mem_reserved 1000 <$>
                       [({| hi := 0; lo := 1 |}, 100%Z); ({| hi := 0; lo := 2 |}, (-1)%Z);
                        ({| hi := 0; lo := 3 |}, 5000%Z)].*2))%Z.
Proof.
  apply (GetPoolMemReserved_sums_queries 1000 (λ _, "") (λ _, "") (λ _ m, m) 0
           [({| hi := 0; lo := 1 |}, 100%Z); ({| hi := 0; lo := 2 |}, (-1)%Z);
            ({| hi := 0; lo := 3 |}, 5000%Z)] one_tracker [0] 0).
  - exact wf_one_tracker.
  - exact one_tracker_chain.
  - lia.
  - apply (bool_decide_unpack _). vm_compute. exact I.
  - intros id _. reflexivity.
  - reflexivity.
  - vm_compute. reflexivity.
Defined.

Lemma GetRequestPoolMemTracker_same_instance_while_alive_witness :
  ∃ tracker s1,
    GetRequestPoolMemTracker "default-pool" (Some 0) one_tracker
      = Some (Some tracker, s1) ∧
    ∀ ops s2 parent',
      exec_all 1000 (λ _, "") (λ _, "") (λ _ m, m) ops s1 = Some s2 →
      is_Some (heap s2 !! tracker) →
      GetRequestPoolMemTracker "default-pool" parent' s2 = Some (Some tracker, s2).
Proof.
  apply (GetRequestPoolMemTracker_same_instance_while_alive 1000 (λ _, "") (λ _, "")
           (λ _ m, m) "default-pool" 0 one_tracker [0]).
  - discriminate.
  - exact wf_one_tracker.
  - exact one_tracker_chain.
  - reflexivity.
  - exact one_tracker_carries_no_pool_name.
Defined.
